(** * Coracle publication engine: record merge, freshness-gated loading,
      publish routing and read receipts

    A shallow embedding of [src/engine/commands.ts] (updateRecord,
    wrapWithFallback, publishToGroupsPublicly, publishToGroupsPrivately,
    publishToZeroOrMoreGroups, markAsSeen) and of the pubkey loader
    (getStalePubkeys, loadPubkeyData), followed by the properties of the
    specification that concern them.

    Part I holds the embedding, Part II the lemmas and theorems. *)

From Stdlib Require Import ZArith Lia List String Ascii Bool Permutation Sorted DecimalString.
From stdpp Require Import base gmap strings list fin_maps.

Local Open Scope string_scope.
Local Open Scope list_scope.
Local Open Scope Z_scope.

(* ===================================================================== *)
(** * Part I. The embedding *)
(* ===================================================================== *)

(** ** JavaScript values stored in a record

    Timestamps are integer-valued numbers.  Everything else a record may
    hold (an access status such as ["granted"], a list of relay policies,
    a profile object) is a payload that is truthy and whose numeric
    conversion is NaN; it is carried as a label.  [JNaN] is the number
    NaN, which [Math.max] yields on such a payload. *)

Module Js.

Inductive JsVal : Type :=
| JNum (n : Z)
| JNaN
| JData (d : string).

Definition JsVal_eqb (a b : JsVal) : bool :=
  match a, b with
  | JNum n, JNum m => Z.eqb n m
  | JNaN, JNaN => true
  | JData d, JData e => String.eqb d e
  | _, _ => false
  end.

(** ToBoolean: 0 and NaN are falsy. *)
Definition truthy (v : JsVal) : bool :=
  match v with
  | JNum n => negb (Z.eqb n 0)
  | JNaN => false
  | JData _ => true
  end.

(** [x || d], where [x] is [None] for [undefined]. *)
Definition js_or (x : option JsVal) (d : JsVal) : JsVal :=
  match x with
  | Some v => if truthy v then v else d
  | None => d
  end.

(** [a > b] for a number [a]: false as soon as [b] converts to NaN. *)
Definition js_gt (a : Z) (b : JsVal) : bool :=
  match b with
  | JNum n => Z.ltb n a
  | JNaN => false
  | JData _ => false
  end.

(** [Math.max(a, b)] for a number [a]. *)
Definition math_max (a : Z) (b : JsVal) : JsVal :=
  match b with
  | JNum n => JNum (Z.max a n)
  | JNaN => JNaN
  | JData _ => JNaN
  end.

(** [String(n)] for an integer-valued number. *)
Definition String_of_Z (n : Z) : string := NilZero.string_of_int (Z.to_int n).

End Js.

(** ** Record merge: [updateRecord] *)

Module Merge.
Import Js.

(** A record is a plain object, or [undefined]. *)
Definition Record : Type := option (gmap string JsVal).

(** [record?.[k]] *)
Definition rget (record : Record) (k : string) : option JsVal :=
  match record with
  | Some o => o !! k
  | None => None
  end.

(** [{...record}] *)
Definition spread (record : Record) : gmap string JsVal :=
  match record with
  | Some o => o
  | None => ∅
  end.

(** [`${field}_updated_at`] *)
Definition tsField (field : string) : string := field +:+ "_updated_at".

(** [record?.[tsField] || -1] *)
Definition lastUpdated (record : Record) (field : string) : JsVal :=
  js_or (rget record (tsField field)) (JNum (-1)).

(** The body of the loop of [updateRecord], for one entry of [updates].
    In the object literal the later keys win, so [updated_at] is written
    last. *)
Definition updateField (timestamp : Z) (record : Record) (entry : string * JsVal) : Record :=
  let '(field, value) := entry in
  if js_gt timestamp (lastUpdated record field) then
    Some (<["updated_at" := math_max timestamp (js_or (rget record "updated_at") (JNum 0))]>
          (<[tsField field := JNum timestamp]>
           (<[field := value]> (spread record))))
  else record.

(** [updates] is given as [Object.entries(updates)], in its order. *)
Definition updateRecord (record : Record) (timestamp : Z) (updates : list (string * JsVal)) : Record :=
  fold_left (updateField timestamp) updates record.

(** A sequence of merges, applied from left to right. *)
Definition applyMerges (record : Record) (ops : list (Z * list (string * JsVal))) : Record :=
  fold_left (fun r op => updateRecord r (fst op) (snd op)) ops record.

(** *** Well-formed inputs

    The bookkeeping keys of a record are [updated_at] and the keys ending
    in [_updated_at]; a payload field is any other key. *)

Fixpoint endsWith (suffix s : string) : bool :=
  if String.eqb s suffix then true
  else match s with
       | EmptyString => false
       | String _ s' => endsWith suffix s'
       end.

Definition isBookkeepingKey (k : string) : bool :=
  String.eqb k "updated_at" || endsWith "_updated_at" k.

(** The entries of an object whose keys are payload fields: the keys are
    pairwise distinct and none is a bookkeeping key. *)
Definition payloadUpdates (updates : list (string * JsVal)) : Prop :=
  NoDup (map fst updates) /\
  Forall (fun e => isBookkeepingKey (fst e) = false) updates.

(** The record-level [updated_at], when present, is a number. *)
Definition numericUpdatedAt (record : Record) : Prop :=
  match rget record "updated_at" with
  | Some (JNum _) | None => True
  | Some _ => False
  end.

(** Every per-field stamp of the record is bounded by its [updated_at]. *)
Definition stampsBounded (record : Record) : Prop :=
  forall field n, rget record (tsField field) = Some (JNum n) ->
    exists u, rget record "updated_at" = Some (JNum u) /\ n <= u.

(** The record written when the guard of the loop body holds. *)
Definition overwrite (t : Z) (f : string) (v : JsVal) (r : Record) : Record :=
  Some (<["updated_at" := math_max t (js_or (rget r "updated_at") (JNum 0))]>
        (<[tsField f := JNum t]> (<[f := v]> (spread r)))).

(** The number read by [record?.updated_at || 0] on a record whose
    [updated_at] is numeric. *)
Definition updatedAtOr0 (r : Record) : Z :=
  match rget r "updated_at" with
  | Some (JNum n) => n
  | _ => 0
  end.

(** Whether some entry of [updates] passes the guard of the loop against
    the stamps stored in [record]. *)
Definition anyWritten (timestamp : Z) (record : Record) (updates : list (string * JsVal)) : bool :=
  existsb (fun e => js_gt timestamp (lastUpdated record (fst e))) updates.

(** Merges that carry the same timestamp give the same value to every
    field they share. *)
Definition tiesAgree (ops : list (Z * list (string * JsVal))) : Prop :=
  forall t u1 u2 f v1 v2,
    In (t, u1) ops -> In (t, u2) ops -> In (f, v1) u1 -> In (f, v2) u2 -> v1 = v2.

End Merge.

(** ** Helpers of the [hurdak] library

    The library is not part of the repository; its two helpers used here
    are written out with their documented meaning. *)

Module Hurdak.

Inductive TimeUnit : Type := Second | Minute | Hour | Day.

(** Modelled from the spec: [seconds(n, unit)] of [hurdak], the number of
    seconds in [n] units (5 minutes are 300 seconds, 90 days are
    7776000). *)
Definition seconds (n : Z) (unit : TimeUnit) : Z :=
  match unit with
  | Second => n
  | Minute => n * 60
  | Hour => n * 60 * 60
  | Day => n * 60 * 60 * 24
  end.

(** Modelled from the spec: [chunk(n, xs)] of [hurdak] cuts [xs] into
    consecutive groups of [n] elements, the last one possibly shorter.
    [current] is the group being filled. *)
Fixpoint chunkFrom {A : Type} (n : nat) (current : list A) (xs : list A) : list (list A) :=
  match xs with
  | [] => match current with
          | [] => []
          | _ :: _ => [current]
          end
  | x :: xs' =>
      if Nat.ltb (List.length current) n
      then chunkFrom n (current ++ [x]) xs'
      else current :: chunkFrom n [x] xs'
  end.

Definition chunk {A : Type} (n : nat) (xs : list A) : list (list A) :=
  chunkFrom n [] xs.

End Hurdak.

(** ** The pubkey loader: [getStalePubkeys], [loadPubkeyData] *)

Module Loader.
Import Hurdak.

(** What the loader reads from its surroundings: the clock [now()] and
    the freshness store behind [getFreshness(key, pubkey)], which live in
    [src/engine/state] and are taken as given.  The clock is read as one
    value for the duration of a (synchronous) call. *)
Record Env : Type := {
  now : Z;
  getFreshness : string -> string -> Z
}.

Fixpoint allChars (p : ascii -> bool) (s : string) : bool :=
  match s with
  | EmptyString => true
  | String c s' => p c && allChars p s'
  end.

(** The character class [[0-f]]: every character from "0" to "f". *)
Definition inRange0f (c : ascii) : bool :=
  (Ascii.leb "0" c && Ascii.leb c "f")%char.

(** [pubkey.match(/^[0-f]{64}$/)] *)
Definition matchesPubkeyPattern (pubkey : string) : bool :=
  Nat.eqb (String.length pubkey) 64 && allChars inRange0f pubkey.

(** The identity format of the specification: 64 lowercase hexadecimal
    characters. *)
Definition isLowerHexChar (c : ascii) : bool :=
  ((Ascii.leb "0" c && Ascii.leb c "9") || (Ascii.leb "a" c && Ascii.leb c "f"))%char.

Definition wellFormedIdentity (pubkey : string) : bool :=
  Nat.eqb (String.length pubkey) 64 && allChars isLowerHexChar pubkey.

(** [inc] of [@welshman/lib]: [(x || 0) + 1]. *)
Definition inc (x : option Z) : Z :=
  match x with
  | Some n => n + 1
  | None => 0 + 1
  end.

(** [result.add(pubkey)] on a [Set], kept in insertion order. *)
Definition setAdd (result : list string) (pubkey : string) : list string :=
  if existsb (String.eqb pubkey) result then result else result ++ [pubkey].

(** The body of the loop of [getStalePubkeys]; the state is the global
    [attempts] map and the [result] set. *)
Definition staleStep (env : Env) (key : string) (delta : Z)
    (st : gmap string Z * list string) (pubkey : string) : gmap string Z * list string :=
  let '(attempts, result) := st in
  if negb (matchesPubkeyPattern pubkey) then st
  else
    let thisAttempts := inc (attempts !! pubkey) in
    let thisDelta := delta * thisAttempts in
    if getFreshness env key pubkey <? now env - thisDelta
    then (<[pubkey := thisAttempts]> attempts, setAdd result pubkey)
    else st.

(** Returns the updated [attempts] map and [Array.from(result)]. *)
Definition getStalePubkeys (env : Env) (attempts : gmap string Z)
    (pubkeys : list string) (key : string) (delta : Z) : gmap string Z * list string :=
  fold_left (staleStep env key delta) pubkeys (attempts, []).

(** [const delta = force ? 5 : seconds(5, "minute")] *)
Definition loadDelta (force : bool) : Z :=
  if force then 5 else seconds 5 Minute.

Record Filter : Type := {
  f_kinds : list Z;
  f_dtags : option (list string);
  f_authors : list string
}.

Record LoadRequest : Type := {
  lr_skipCache : bool;
  lr_relays : list string;
  lr_filters : list Filter
}.

Definition APP_DATA : Z := 30078.

(** The relay selection ([hints.FromPubkeys(..).getSelections()]),
    [withIndexers] and the values of [appDataKeys] are collaborators. *)
Record Hints : Type := {
  getSelections : list string -> list (string * list string);
  withIndexers : list string -> list string;
  appDataKeyValues : list string
}.

(** [loadPubkeyData]: the updated [attempts] map and the [load] requests
    issued, none when no pubkey is stale. *)
Definition loadPubkeyData (env : Env) (hints : Hints) (attempts : gmap string Z)
    (key : string) (kinds : list Z) (rawPubkeys : list string) (force : bool)
    : gmap string Z * list LoadRequest :=
  let delta := loadDelta force in
  let '(attempts', pubkeys) := getStalePubkeys env attempts rawPubkeys key delta in
  if Nat.eqb (List.length pubkeys) 0 then (attempts', [])
  else
    let filters :=
      if existsb (Z.eqb APP_DATA) kinds
      then [ {| f_kinds := [APP_DATA]; f_dtags := Some (appDataKeyValues hints); f_authors := [] |};
             {| f_kinds := filter (fun k => negb (Z.eqb k APP_DATA)) kinds;
                f_dtags := None; f_authors := [] |} ]
      else [ {| f_kinds := kinds; f_dtags := None; f_authors := [] |} ] in
    (attempts',
     map (fun sel =>
            {| lr_skipCache := true;
               lr_relays := withIndexers hints [fst sel];
               lr_filters :=
                 map (fun f => {| f_kinds := f_kinds f; f_dtags := f_dtags f;
                                  f_authors := snd sel |}) filters |})
         (getSelections hints pubkeys)).

(** The [filters] of [loadPubkeyData], before the authors are set. *)
Definition loadFilters (hints : Hints) (kinds : list Z) : list Filter :=
  if existsb (Z.eqb APP_DATA) kinds
  then [ {| f_kinds := [APP_DATA]; f_dtags := Some (appDataKeyValues hints); f_authors := [] |};
         {| f_kinds := filter (fun k => negb (Z.eqb k APP_DATA)) kinds;
            f_dtags := None; f_authors := [] |} ]
  else [ {| f_kinds := kinds; f_dtags := None; f_authors := [] |} ].

(** The test an identity passes to enter the result: the pattern, then
    the freshness comparison of the loop. *)
Definition isStale (env : Env) (key : string) (delta : Z)
    (attempts : gmap string Z) (pubkey : string) : bool :=
  matchesPubkeyPattern pubkey &&
  Z.ltb (getFreshness env key pubkey) (now env - delta * inc (attempts !! pubkey)).

(** The attempt count of an identity, 0 when it has none. *)
Definition attemptCount (attempts : gmap string Z) (pubkey : string) : Z :=
  match attempts !! pubkey with
  | Some n => n
  | None => 0
  end.

(** A well-formed identity, and a clock and store for the examples. *)
Definition aliceKey : string :=
  "aaaaaaaaaaaaaaaaaaaaaaaaaaaaaaaaaaaaaaaaaaaaaaaaaaaaaaaaaaaaaaaa".

Definition envAt (t fresh : Z) : Env :=
  {| now := t; getFreshness := fun _ _ => fresh |}.

(** 64 characters of the class [[0-f]] that are not hexadecimal digits. *)
Definition shoutedKey : string :=
  "ZZZZZZZZZZZZZZZZZZZZZZZZZZZZZZZZZZZZZZZZZZZZZZZZZZZZZZZZZZZZZZZZ".

Definition demoHints : Hints :=
  {| getSelections := fun pubkeys => [("wss://relay.example", pubkeys)];
     withIndexers := fun relays => relays ++ ["wss://indexer.example"];
     appDataKeyValues := ["nostr-engine/User/settings/v1"] |}.

End Loader.

(** ** Publishing: [wrapWithFallback], the group publishers, [markAsSeen] *)

Module Engine.
Import Js Hurdak.

Definition Tag : Type := list string.

(** An event template ([createEvent]) and a signed event. *)
Record Template : Type := {
  kind : Z;
  tags : list Tag;
  content : string;
  created_at : Z
}.

Record Event : Type := {
  ev_id : string;
  ev_pubkey : string;
  ev_kind : Z;
  ev_tags : list Tag;
  ev_content : string;
  ev_created_at : Z
}.

(** What [nip59.wrap] returns: the rumor, with the envelope under [wrap]. *)
Record Rumor : Type := {
  rumor_id : string;
  rumor_template : Template;
  wrap : Event
}.

(** The [wrap] parameters and the options of [nip59.wrap]; absent
    properties are [None]. *)
Record WrapParams : Type := {
  wp_author : option string;
  wp_recipient : string;
  wp_tags : option (list Tag);
  wp_kind : option Z;
  wp_algo : option string
}.

Record WrapOpts : Type := {
  wo_author : option string;
  wo_wrap : WrapParams
}.

Record SharedKey : Type := {
  sk_group : string;
  sk_pubkey : string;
  sk_privkey : string;
  sk_created_at : Z
}.

Inductive GroupAccess : Type := AccessNone | Requested | Granted | Revoked.

Definition GroupAccess_eqb (a b : GroupAccess) : bool :=
  match a, b with
  | AccessNone, AccessNone | Requested, Requested
  | Granted, Granted | Revoked, Revoked => true
  | _, _ => false
  end.

(** The collaborators of [src/engine/state], read but not written by the
    functions below. *)
Record World : Type := {
  w_now : Z;                                     (* now() *)
  signerEnabled : bool;                          (* signer.get().isEnabled() *)
  nip44Enabled : bool;                           (* nip44.get().isEnabled() *)
  sign : Template -> bool -> Event;              (* sign(template, {anonymous}) *)
  signAsUser : Template -> Event;                (* signer.get().signAsUser *)
  nip59wrap : Template -> WrapOpts -> Rumor;     (* nip59.get().wrap *)
  privateKeys : nat -> string;                   (* the keys generatePrivateKey() draws *)
  userPubkey : string;                           (* pubkey.get() *)
  hintsWithinContext : string -> list string;    (* hints.WithinContext(a).getUrls() *)
  hintsPublishEvent : Event -> list string;      (* hints.PublishEvent(e).getUrls() *)
  hintsWriteRelays : list string;                (* hints.WriteRelays().getUrls() *)
  forcePlatformRelays : list string -> list string;
  sharedKeyForGroup : string -> option SharedKey; (* deriveSharedKeyForGroup(a).get() *)
  groupAccess : string -> GroupAccess;           (* access status of the session *)
  unpublishedReadReceipts : list string          (* get(unpublishedReadReceipts) *)
}.

(** Modelled from the spec: [deriveIsGroupMember(address).get()], which
    lives in [src/engine/state]; membership of a private group is the
    access status [Granted]. *)
Definition deriveIsGroupMember (w : World) (address : string) : bool :=
  GroupAccess_eqb (groupAccess w address) Granted.

(** One call [publish({event, relays})]; the value it returns carries
    the request. *)
Record PublishCall : Type := {
  pc_event : Event;
  pc_relays : list string
}.

Record Pub : Type := { request : PublishCall }.

(** The state the functions write: the calls made to [publish], oldest
    first; the [optimisticReadReceipts] store; the number of private keys
    drawn so far. *)
Record State : Type := {
  published : list PublishCall;
  optimisticReadReceipts : list string;
  keysDrawn : nat
}.

Inductive Error : Type :=
| InvalidPublicAddress (address : string)
| InvalidPrivateAddress (address : string)
| NotGroupMember
| TypeError (what : string).

(** Computations that may throw and that write the state; what was
    written before a throw stays written. *)
Definition M (A : Type) : Type := State -> (Error + A) * State.

Definition ret {A : Type} (a : A) : M A := fun st => (inr a, st).

Definition throw {A : Type} (e : Error) : M A := fun st => (inl e, st).

Definition bindM {A B : Type} (m : M A) (k : A -> M B) : M B :=
  fun st =>
    match m st with
    | (inr a, st') => k a st'
    | (inl e, st') => (inl e, st')
    end.

Notation "'let*' x := m 'in' k" := (bindM m (fun x => k))
  (at level 10, x name, m at level 200, k at level 200).

(** [for (const x of xs) body(x)] *)
Fixpoint forEach {A : Type} (xs : list A) (body : A -> M unit) : M unit :=
  match xs with
  | [] => ret tt
  | x :: xs' => let* _ := body x in forEach xs' body
  end.

(** A loop that extends local accumulators. *)
Fixpoint foldM {A B : Type} (body : B -> A -> M B) (xs : list A) (acc : B) : M B :=
  match xs with
  | [] => ret acc
  | x :: xs' => let* acc' := body acc x in foldM body xs' acc'
  end.

Definition publish (call : PublishCall) : M Pub :=
  fun st =>
    (inr {| request := call |},
     {| published := published st ++ [call];
        optimisticReadReceipts := optimisticReadReceipts st;
        keysDrawn := keysDrawn st |}).

Definition generatePrivateKey (w : World) : M string :=
  fun st =>
    (inr (privateKeys w (keysDrawn st)),
     {| published := published st;
        optimisticReadReceipts := optimisticReadReceipts st;
        keysDrawn := S (keysDrawn st) |}).

Definition setOptimisticReadReceipts (ids : list string) : M unit :=
  fun st =>
    (inr tt,
     {| published := published st;
        optimisticReadReceipts := ids;
        keysDrawn := keysDrawn st |}).

Definition getOptimisticReadReceipts : M (list string) :=
  fun st => (inr (optimisticReadReceipts st), st).

(** [createEvent(kind, {tags})] *)
Definition createEvent (w : World) (k : Z) (ts : list Tag) : Template :=
  {| kind := k; tags := ts; content := EmptyString; created_at := w_now w |}.

(** [{...wrap, kind: 1060, algo: "nip04"}] *)
Definition legacyWrap (wp : WrapParams) : WrapParams :=
  {| wp_author := wp_author wp;
     wp_recipient := wp_recipient wp;
     wp_tags := wp_tags wp;
     wp_kind := Some 1060;
     wp_algo := Some "nip04" |}.

Definition wrapWithFallback (w : World) (template : Template)
    (author : option string) (wp : WrapParams) : list Rumor :=
  let events := [] in
  if nip44Enabled w
  then events ++ [nip59wrap w template {| wo_author := author; wo_wrap := wp |}]
  else events ++ [nip59wrap w template {| wo_author := author; wo_wrap := legacyWrap wp |}].

Definition addATags (template : Template) (addresses : list string) : Template :=
  {| kind := kind template;
     tags := tags template ++ map (fun a => ["a"; a]) addresses;
     content := content template;
     created_at := created_at template |}.

(** The body of the validating loop of [publishToGroupsPublicly]. *)
Definition checkPublic (address : string) : M unit :=
  if negb (String.prefix "34550:" address)
  then throw (InvalidPublicAddress address)
  else ret tt.

Definition publishToGroupsPublicly (w : World) (addresses : list string)
    (template : Template) (anonymous : bool) : M Pub :=
  let* _ := forEach addresses checkPublic in
  let event := sign w (addATags template addresses) anonymous in
  let relays := forcePlatformRelays w (hintsPublishEvent w event) in
  publish {| pc_event := event; pc_relays := relays |}.

(** The body of the loop of [publishToGroupsPrivately]; [acc] holds the
    local [events] and [pubs]. *)
Definition publishPrivatelyTo (w : World) (template : Template) (anonymous : bool)
    (acc : list Rumor * list Pub) (address : string) : M (list Rumor * list Pub) :=
  let relays := forcePlatformRelays w (hintsWithinContext w address) in
  let thisTemplate := addATags template [address] in
  let sharedKey := sharedKeyForGroup w address in
  if negb (String.prefix "35834:" address) then throw (InvalidPrivateAddress address)
  else if negb (deriveIsGroupMember w address) then throw NotGroupMember
  else
    let* author := (if anonymous
                    then let* k := generatePrivateKey w in ret (Some k)
                    else ret None) in
    match sharedKey with
    | None => throw (TypeError "sharedKey.privkey")
    | Some key =>
        let rumors :=
          wrapWithFallback w thisTemplate author
            {| wp_author := Some (sk_privkey key);
               wp_recipient := sk_pubkey key;
               wp_tags := None; wp_kind := None; wp_algo := None |} in
        foldM (fun acc rumor =>
                 let* pub := publish {| pc_event := wrap rumor; pc_relays := relays |} in
                 ret (fst acc ++ [rumor], snd acc ++ [pub]))
              rumors acc
    end.

Definition publishToGroupsPrivately (w : World) (addresses : list string)
    (template : Template) (anonymous : bool) : M (list Rumor * list Pub) :=
  foldM (publishPrivatelyTo w template anonymous) addresses ([], []).

(** What [publishToZeroOrMoreGroups] collects under [events]: signed
    events and rumors. *)
Inductive Produced : Type :=
| SignedEvent (e : Event)
| WrappedRumor (r : Rumor).

Definition isPrivateAddress (address : string) : bool := String.prefix "35834:" address.

Definition publishToZeroOrMoreGroups (w : World) (addresses : list string)
    (template : Template) (anonymous : bool) : M (list Produced * list Pub) :=
  let pubs := [] in
  let events := [] in
  if Nat.eqb (List.length addresses) 0 then
    let event := sign w template anonymous in
    let relays := forcePlatformRelays w (hintsPublishEvent w event) in
    let* pub := publish {| pc_event := event; pc_relays := relays |} in
    ret (events ++ [SignedEvent event], pubs ++ [pub])
  else
    let '(wrapL, nowrap) := List.partition isPrivateAddress addresses in
    let* acc :=
      (if Nat.ltb 0 (List.length wrapL) then
         let* result := publishToGroupsPrivately w wrapL template anonymous in
         ret (events ++ map WrappedRumor (fst result), pubs ++ snd result)
       else ret (events, pubs)) in
    if Nat.ltb 0 (List.length nowrap) then
      let* pub := publishToGroupsPublicly w nowrap template anonymous in
      ret (fst acc ++ [SignedEvent (pc_event (request pub))], snd acc ++ [pub])
    else ret acc.

(** [markAsSeen] *)

Definition expirationTag (w : World) : Tag :=
  ["expiration"; String_of_Z (w_now w + seconds 90 Day)].

(** The marker template built for one chunk of ids. *)
Definition markerTemplate (w : World) (ids : list string) : Template :=
  createEvent w 15 (expirationTag w :: map (fun id => ["e"; id]) ids).

(** The options of the wrap addressed to the user's own pubkey. *)
Definition selfWrapOpts (w : World) (key : string) : WrapOpts :=
  {| wo_author := None;
     wo_wrap := {| wp_author := Some key;
                   wp_recipient := userPubkey w;
                   wp_tags := Some [expirationTag w];
                   wp_kind := None; wp_algo := None |} |}.

Definition publishMarker (w : World) (ids : list string) : M unit :=
  let template := markerTemplate w ids in
  if nip44Enabled w then
    let* key := generatePrivateKey w in
    let rumor := nip59wrap w template (selfWrapOpts w key) in
    let* _ := publish {| pc_event := wrap rumor; pc_relays := hintsWriteRelays w |} in
    ret tt
  else
    let* _ := publish {| pc_event := signAsUser w template;
                         pc_relays := hintsWriteRelays w |} in
    ret tt.

Definition markAsSeen (w : World) (events : list Event) : M unit :=
  if negb (signerEnabled w) || Nat.eqb (List.length events) 0 then ret tt
  else
    let allIds := unpublishedReadReceipts w ++ map ev_id events in
    if Nat.ltb 100 (List.length allIds) then
      let* optimistic := getOptimisticReadReceipts in
      let* _ := (if Nat.ltb 0 (List.length optimistic)
                 then setOptimisticReadReceipts []
                 else ret tt) in
      forEach (chunk 500 allIds) (publishMarker w)
    else setOptimisticReadReceipts allIds.

(** What one call [publish] of [markAsSeen] looks like for a chunk. *)
Definition isMarkerCall (w : World) (ids : list string) (call : PublishCall) : Prop :=
  pc_relays call = hintsWriteRelays w /\
  if nip44Enabled w
  then exists key, pc_event call = wrap (nip59wrap w (markerTemplate w ids) (selfWrapOpts w key))
  else pc_event call = signAsUser w (markerTemplate w ids).

(** *** A world for the examples *)

Definition demoSign (t : Template) (anonymous : bool) : Event :=
  {| ev_id := "signed";
     ev_pubkey := if anonymous then "anon" else "user";
     ev_kind := kind t; ev_tags := tags t; ev_content := content t;
     ev_created_at := created_at t |}.

Definition demoWrap (t : Template) (o : WrapOpts) : Rumor :=
  {| rumor_id := "rumor";
     rumor_template := t;
     wrap := {| ev_id := "wrap";
                ev_pubkey := match wp_author (wo_wrap o) with Some k => k | None => EmptyString end;
                ev_kind := match wp_kind (wo_wrap o) with Some k => k | None => 1059 end;
                ev_tags := ["p"; wp_recipient (wo_wrap o)]
                           :: match wp_tags (wo_wrap o) with Some ts => ts | None => [] end;
                ev_content := "ciphertext";
                ev_created_at := created_at t |} |}.

Definition demoSharedKey (address : string) : option SharedKey :=
  Some {| sk_group := address; sk_pubkey := "sharedpub"; sk_privkey := "sharedpriv";
          sk_created_at := 0 |}.

Definition demoWorld (signer nip44 : bool) (access : string -> GroupAccess)
    (unpublished : list string) : World :=
  {| w_now := 1700000000;
     signerEnabled := signer;
     nip44Enabled := nip44;
     sign := demoSign;
     signAsUser := fun t => demoSign t false;
     nip59wrap := demoWrap;
     privateKeys := fun n => "key" +:+ String_of_Z (Z.of_nat n);
     userPubkey := "user";
     hintsWithinContext := fun a => ["wss://group.example"];
     hintsPublishEvent := fun e => ["wss://write.example"];
     hintsWriteRelays := ["wss://write.example"];
     forcePlatformRelays := fun rs => rs;
     sharedKeyForGroup := demoSharedKey;
     groupAccess := access;
     unpublishedReadReceipts := unpublished |}.

Definition emptyState : State :=
  {| published := []; optimisticReadReceipts := []; keysDrawn := 0 |}.

Definition note : Template :=
  {| kind := 1; tags := []; content := "hello"; created_at := 1700000000 |}.

(** Access of the examples: a member of [g1] only. *)
Definition memberOfG1 (address : string) : GroupAccess :=
  if String.eqb address "35834:admin:g1" then Granted else AccessNone.

(** [n] received events with the ids "1", ..., "n". *)
Definition receivedEvents (n : nat) : list Event :=
  map (fun i => {| ev_id := String_of_Z (Z.of_nat i); ev_pubkey := "peer"; ev_kind := 1;
                   ev_tags := []; ev_content := EmptyString; ev_created_at := 0 |})
      (seq 1 n).

End Engine.

(** ** Sessions and group status: [modifyGroupStatus], [setGroupStatus],
       [setSession], [updateSession], [logoutPubkey], [logout] *)

Module Sessions.
Import Js Merge.

(** A session: its pubkey, its login method, and [groups], the status
    record of each group address; [groups] may be missing, and a key of
    [groups] may hold [undefined]. *)
Record Session : Type := {
  s_pubkey : string;
  s_method : string;
  s_groups : option (gmap string Record)
}.

(** [session.groups[address]] once [groups] is an object. *)
Definition groupRecord (groups : gmap string Record) (address : string) : Record :=
  match groups !! address with
  | Some r => r
  | None => None
  end.

(** [session.groups?.[address]] *)
Definition groupStatus (session : Session) (address : string) : Record :=
  match s_groups session with
  | Some groups => groupRecord groups address
  | None => None
  end.

Definition modifyGroupStatus (session : Session) (address : string) (timestamp : Z)
    (updates : list (string * JsVal)) : Session :=
  let groups := match s_groups session with
                | Some g => g
                | None => ∅
                end in
  {| s_pubkey := s_pubkey session;
     s_method := s_method session;
     s_groups := Some (<[address := updateRecord (groupRecord groups address) timestamp updates]>
                       groups) |}.

(** [sessions.update($s => ($s[k] ? {...$s, [k]: data} : $s))] *)
Definition setSession (k : string) (data : Session) (sessions : gmap string Session)
    : gmap string Session :=
  match sessions !! k with
  | Some _ => <[k := data]> sessions
  | None => sessions
  end.

(** [sessions.update($s => ($s[k] ? {...$s, [k]: f($s[k])} : $s))] *)
Definition updateSession (k : string) (f : Session -> Session) (sessions : gmap string Session)
    : gmap string Session :=
  match sessions !! k with
  | Some s => <[k := f s]> sessions
  | None => sessions
  end.

Definition setGroupStatus (pubkey address : string) (timestamp : Z)
    (updates : list (string * JsVal)) (sessions : gmap string Session)
    : gmap string Session :=
  updateSession pubkey (fun s => modifyGroupStatus s address timestamp updates) sessions.

Inductive SessionError : Type :=
| NoCurrentSession          (* [session.get()] is undefined *)
| CannotDestroyCurrent.     (* "Can't destroy the current session, use logout instead" *)

(** [logoutPubkey]; [current] is the value of [session.get()]. *)
Definition logoutPubkey (current : option Session) (pubkey : string)
    (sessions : gmap string Session) : SessionError + gmap string Session :=
  match current with
  | None => inl NoCurrentSession
  | Some s =>
      if String.eqb (s_pubkey s) pubkey then inl CannotDestroyCurrent
      else inr (delete pubkey sessions)
  end.

(** [logout]: the new [pubkey] and [sessions] stores. *)
Definition logout : option string * gmap string Session := (None, ∅).

End Sessions.

(** ** Shapes of the envelopes the group publishers send *)

Module Envelopes.
Import Js Hurdak Engine.

(** The [wrap] parameters of [publishToGroupsPrivately]: the shared key
    of the group signs the wrap and is its recipient. *)
Definition sharedKeyWrap (key : SharedKey) : WrapParams :=
  {| wp_author := Some (sk_privkey key);
     wp_recipient := sk_pubkey key;
     wp_tags := None; wp_kind := None; wp_algo := None |}.

(** The parameters [nip59.wrap] receives from [wrapWithFallback]. *)
Definition fallbackParams (w : World) (wp : WrapParams) : WrapParams :=
  if nip44Enabled w then wp else legacyWrap wp.

(** [rumor] and [pub] are what [publishToGroupsPrivately] produces for
    [address]: the template with the one [a] tag of the address, wrapped
    with the shared key of that group and sent to the relays of its
    context. *)
Definition isGroupEnvelope (w : World) (template : Template) (address : string)
    (rumor : Rumor) (pub : Pub) : Prop :=
  exists author key,
    sharedKeyForGroup w address = Some key /\
    rumor = nip59wrap w (addATags template [address])
              {| wo_author := author; wo_wrap := fallbackParams w (sharedKeyWrap key) |} /\
    pc_event (request pub) = wrap rumor /\
    pc_relays (request pub) = forcePlatformRelays w (hintsWithinContext w address).

(** An address [publishToGroupsPrivately] accepts. *)
Definition privatelyPublishable (w : World) (address : string) : Prop :=
  String.prefix "35834:" address = true /\
  deriveIsGroupMember w address = true /\
  is_Some (sharedKeyForGroup w address).

End Envelopes.

(** ** Group keys: [initSharedKey], [initGroup], [publishToGroupAdmin],
       [publishAsGroupAdminPublicly], [publishAsGroupAdminPrivately],
       [publishKeyShares] and its callers, [publishGroupMeta],
       [publishGroupEntryRequest], [publishGroupExitRequest] *)

Module Groups.
Import Js Hurdak Engine Envelopes Sessions.

Record AdminKey : Type := {
  ak_group : string;
  ak_pubkey : string;
  ak_privkey : string;
  ak_created_at : Z;
  ak_relays : list string
}.

Record Group : Type := {
  g_id : string;
  g_pubkey : string;
  g_address : string;
  g_relays : list string
}.

(** The three stores [initGroup] writes, each keyed as the code keys
    it. *)
Record GroupStores : Type := {
  groupSharedKeys : gmap string SharedKey;
  groupAdminKeys : gmap string AdminKey;
  groups : gmap string Group
}.

(** The sources of fresh values: [generatePrivateKey()], [getPublicKey],
    [randomId()], and the clock. *)
Record KeySource : Type := {
  ks_privateKeys : nat -> string;
  ks_getPublicKey : string -> string;
  ks_randomIds : nat -> string;
  ks_now : Z
}.

Record Draws : Type := { keysUsed : nat; idsUsed : nat }.

Definition initSharedKey (ks : KeySource) (address : string)
    (stores : GroupStores) (draws : Draws) : SharedKey * GroupStores * Draws :=
  let privkey := ks_privateKeys ks (keysUsed draws) in
  let pubkey := ks_getPublicKey ks privkey in
  let key := {| sk_group := address; sk_pubkey := pubkey; sk_privkey := privkey;
                sk_created_at := ks_now ks |} in
  (key,
   {| groupSharedKeys := <[pubkey := key]> (groupSharedKeys stores);
      groupAdminKeys := groupAdminKeys stores;
      groups := groups stores |},
   {| keysUsed := S (keysUsed draws); idsUsed := idsUsed draws |}).

Record InitGroupResult : Type := {
  ig_id : string;
  ig_address : string;
  ig_adminKey : AdminKey;
  ig_sharedKey : option SharedKey
}.

Definition initGroup (ks : KeySource) (kind : Z) (relays : list string)
    (stores : GroupStores) (draws : Draws) : InitGroupResult * GroupStores * Draws :=
  let id := ks_randomIds ks (idsUsed draws) in
  let privkey := ks_privateKeys ks (keysUsed draws) in
  let pubkey := ks_getPublicKey ks privkey in
  let address := String_of_Z kind +:+ ":" +:+ pubkey +:+ ":" +:+ id in
  let draws1 := {| keysUsed := S (keysUsed draws); idsUsed := S (idsUsed draws) |} in
  let '(sharedKey, stores1, draws2) :=
    if Z.eqb kind 35834
    then let '(key, stores', draws') := initSharedKey ks address stores draws1 in
         (Some key, stores', draws')
    else (None, stores, draws1) in
  let adminKey := {| ak_group := address; ak_pubkey := pubkey; ak_privkey := privkey;
                     ak_created_at := ks_now ks; ak_relays := relays |} in
  ({| ig_id := id; ig_address := address; ig_adminKey := adminKey;
      ig_sharedKey := sharedKey |},
   {| groupSharedKeys := groupSharedKeys stores1;
      groupAdminKeys := <[pubkey := adminKey]> (groupAdminKeys stores1);
      groups := <[address := {| g_id := id; g_pubkey := pubkey; g_address := address;
                                g_relays := relays |}]> (groups stores1) |},
   draws2).

(** The further collaborators of the group functions. *)
Record GroupWorld : Type := {
  gw_world : World;
  adminKeyForGroup : string -> option AdminKey;  (* deriveAdminKeyForGroup(a).get() *)
  groupRelays : string -> option (list string);
    (* the relays of deriveGroup(a).get(), None when there is no such group *)
  clientTags : list Tag;                         (* getClientTags() *)
  keyShareRelays : string -> string -> list string;
    (* hints.merge([ForPubkeys([pubkey]), WithinContext(address),
       fromRelays(PLATFORM_RELAYS)]).policy(addNoFallbacks).getUrls() *)
  addressPubkey : string -> string;              (* Address.from(address).pubkey *)
  sessionPubkey : option string;                 (* session.get().pubkey *)
  currentPubkey : string;         (* pubkey.get(), as the key it is used as *)
  displayProfile : string -> string;             (* displayProfileByPubkey *)
  signWithKey : Template -> string -> Event;     (* sign(template, {sk}) *)
  accessValue : GroupAccess -> JsVal             (* the values of the enum GroupAccess *)
}.

(** [createEvent(kind, {content, tags})] *)
Definition createEventWith (w : World) (k : Z) (c : string) (ts : list Tag) : Template :=
  {| kind := k; tags := ts; content := c; created_at := w_now w |}.

(** The loop over the rumors [wrapWithFallback] returned: each is
    published to [relays] and its pub is added to [pubs]. *)
Definition publishRumors (relays : list string) (rumors : list Rumor) (pubs : list Pub)
    : M (list Pub) :=
  foldM (fun pubs rumor =>
           let* pub := publish {| pc_event := wrap rumor; pc_relays := relays |} in
           ret (pubs ++ [pub]))
        rumors pubs.

(** The [wrap] parameters of a share addressed to one recipient. *)
Definition recipientWrap (author recipient : string) (ts : option (list Tag)) : WrapParams :=
  {| wp_author := Some author; wp_recipient := recipient;
     wp_tags := ts; wp_kind := None; wp_algo := None |}.

Definition publishToGroupAdmin (gw : GroupWorld) (address : string) (template : Template)
    : M unit :=
  let w := gw_world gw in
  let relays := forcePlatformRelays w (hintsWithinContext w address) in
  match sessionPubkey gw with
  | None => throw (TypeError "session.get().pubkey")
  | Some me =>
      forEach [addressPubkey gw address; me] (fun pubkey =>
        let expiration := ["expiration"; String_of_Z (w_now w + seconds 30 Day)] in
        let* key := generatePrivateKey w in
        let rumors := wrapWithFallback w template None
                        (recipientWrap key pubkey (Some [expiration])) in
        let* _ := publishRumors relays rumors [] in
        ret tt)
  end.

Definition publishAsGroupAdminPublicly (gw : GroupWorld) (address : string)
    (template : Template) : M Pub :=
  let w := gw_world gw in
  let relays := forcePlatformRelays w (hintsWithinContext w address) in
  match adminKeyForGroup gw address with
  | None => throw (TypeError "adminKey.privkey")
  | Some adminKey =>
      let event := signWithKey gw template (ak_privkey adminKey) in
      publish {| pc_event := event; pc_relays := relays |}
  end.

Definition publishAsGroupAdminPrivately (gw : GroupWorld) (address : string)
    (template : Template) : M (list Pub) :=
  let w := gw_world gw in
  let relays := forcePlatformRelays w (hintsWithinContext w address) in
  match adminKeyForGroup gw address with
  | None => throw (TypeError "adminKey.privkey")
  | Some adminKey =>
      match sharedKeyForGroup w address with
      | None => throw (TypeError "sharedKey.privkey")
      | Some sharedKey =>
          let rumors := wrapWithFallback w template (Some (ak_privkey adminKey))
                          (sharedKeyWrap sharedKey) in
          publishRumors relays rumors []
      end
  end.

(** The body of the loop of [publishKeyShares]. *)
Definition publishKeyShareTo (gw : GroupWorld) (address : string) (template : Template)
    (pubs : list Pub) (pubkey : string) : M (list Pub) :=
  let w := gw_world gw in
  let relays := keyShareRelays gw pubkey address in
  match adminKeyForGroup gw address with
  | None => throw (TypeError "adminKey.privkey")
  | Some adminKey =>
      let* key := generatePrivateKey w in
      let rumors := wrapWithFallback w template (Some (ak_privkey adminKey))
                      (recipientWrap key pubkey None) in
      publishRumors relays rumors pubs
  end.

Definition publishKeyShares (gw : GroupWorld) (address : string) (pubkeys : list string)
    (template : Template) : M (list Pub) :=
  foldM (publishKeyShareTo gw address template) pubkeys [].

Definition relayTags (relays : list string) : list Tag :=
  map (fun url => ["relay"; url]) relays.

Definition publishAdminKeyShares (gw : GroupWorld) (address : string)
    (pubkeys : list string) : M (list Pub) :=
  let w := gw_world gw in
  match groupRelays gw address with
  | None => throw (TypeError "deriveGroup(address).get().relays")
  | Some relays =>
      match adminKeyForGroup gw address with
      | None => throw (TypeError "adminKey.privkey")
      | Some adminKey =>
          let template :=
            createEvent w 24
              ([["a"; address]; ["role"; "admin"]; ["privkey"; ak_privkey adminKey]]
               ++ clientTags gw ++ relayTags relays) in
          publishKeyShares gw address pubkeys template
      end
  end.

Definition publishGroupInvites (gw : GroupWorld) (address : string)
    (pubkeys : list string) (gracePeriod : Z) : M (list Pub) :=
  let w := gw_world gw in
  match groupRelays gw address with
  | None => throw (TypeError "deriveGroup(address).get().relays")
  | Some relays =>
      match sharedKeyForGroup w address with
      | None => throw (TypeError "sharedKey.privkey")
      | Some sharedKey =>
          let template :=
            createEvent w 24
              ([["a"; address]; ["role"; "member"]; ["privkey"; sk_privkey sharedKey];
                ["grace_period"; String_of_Z gracePeriod]]
               ++ clientTags gw ++ relayTags relays) in
          match adminKeyForGroup gw address with
          | None => throw (TypeError "adminKey.pubkey")
          | Some adminKey =>
              publishKeyShares gw address (pubkeys ++ [ak_pubkey adminKey]) template
          end
      end
  end.

Definition publishGroupEvictions (gw : GroupWorld) (address : string)
    (pubkeys : list string) : M (list Pub) :=
  publishKeyShares gw address pubkeys
    (createEvent (gw_world gw) 24 ([["a"; address]] ++ clientTags gw)).

Record GroupMeta : Type := {
  gm_name : string; gm_about : string; gm_banner : string; gm_picture : string
}.

(** [publishGroupMeta]; [feeds] and [relays] are given as lists ([[]]
    for a missing one).  It returns the pub of the public path or the
    pubs of the private one. *)
Definition publishGroupMeta (gw : GroupWorld) (address id : string) (feeds : list Tag)
    (relays : list string) (meta : GroupMeta) (listPublicly : bool)
    : M (Pub + list Pub) :=
  let template :=
    createEvent (gw_world gw) 35834
      ([["d"; id]; ["name"; gm_name meta]; ["about"; gm_about meta];
        ["banner"; gm_banner meta]; ["picture"; gm_picture meta]]
       ++ clientTags gw ++ feeds ++ relayTags relays) in
  if listPublicly
  then let* pub := publishAsGroupAdminPublicly gw address template in ret (inl pub)
  else let* pubs := publishAsGroupAdminPrivately gw address template in ret (inr pubs).

(** A promise nobody awaits: what it did stays done, what it threw is
    lost. *)
Definition unawaited {A : Type} (m : M A) : M unit :=
  fun st => (inr tt, snd (m st)).

(** [publishGroupEntryRequest]; [claim] is [None] for [null].  The
    session store is passed in and returned. *)
Definition publishGroupEntryRequest (gw : GroupWorld) (address : string)
    (claim : option string) (sessions : gmap string Session)
    : M (gmap string Session) :=
  let w := gw_world gw in
  match adminKeyForGroup gw address with
  | Some _ =>
      match sessionPubkey gw with
      | None => throw (TypeError "session.get().pubkey")
      | Some me =>
          let* _ := unawaited (publishGroupInvites gw address [me] 0) in
          ret sessions
      end
  | None =>
      let sessions' :=
        setGroupStatus (currentPubkey gw) address (w_now w)
          [("access", accessValue gw Requested)] sessions in
      let tags := clientTags gw ++ [["a"; address]] in
      let tags' := match claim with
                   | Some c => if String.eqb c EmptyString then tags
                               else tags ++ [["claim"; c]]
                   | None => tags
                   end in
      let* _ := unawaited
                  (publishToGroupAdmin gw address
                     (createEventWith w 25
                        (displayProfile gw (currentPubkey gw)
                           +:+ " would like to join the group")
                        tags')) in
      ret sessions'
  end.

Definition publishGroupExitRequest (gw : GroupWorld) (address : string)
    (sessions : gmap string Session) : M (gmap string Session) :=
  let w := gw_world gw in
  let sessions' :=
    setGroupStatus (currentPubkey gw) address (w_now w)
      [("access", accessValue gw AccessNone)] sessions in
  match adminKeyForGroup gw address with
  | None =>
      let* _ := unawaited
                  (publishToGroupAdmin gw address
                     (createEventWith w 26
                        (displayProfile gw (currentPubkey gw) +:+ " is leaving the group")
                        (clientTags gw ++ [["a"; address]]))) in
      ret sessions'
  | Some _ => ret sessions'
  end.

(** The envelope of a share: [template] wrapped for [recipient] by the
    fresh key [key], the rumor authored with [author]. *)
Definition shareEnvelope (w : World) (template : Template) (author : option string)
    (key recipient : string) (ts : option (list Tag)) : Event :=
  wrap (nip59wrap w template
          {| wo_author := author;
             wo_wrap := fallbackParams w (recipientWrap key recipient ts) |}).

(** The [i]-th recipient of a run of shares gets the [i]-th key drawn
    from [first] on. *)
Fixpoint shareCalls (gw : GroupWorld) (address : string) (template : Template)
    (author : option string) (first : nat) (pubkeys : list string) : list PublishCall :=
  match pubkeys with
  | [] => []
  | pubkey :: rest =>
      {| pc_event := shareEnvelope (gw_world gw) template author
                       (privateKeys (gw_world gw) first) pubkey None;
         pc_relays := keyShareRelays gw pubkey address |}
      :: shareCalls gw address template author (S first) rest
  end.

(** The template [publishGroupMeta] builds. *)
Definition groupMetaTemplate (gw : GroupWorld) (id : string) (feeds : list Tag)
    (relays : list string) (meta : GroupMeta) : Template :=
  createEvent (gw_world gw) 35834
    ([["d"; id]; ["name"; gm_name meta]; ["about"; gm_about meta];
      ["banner"; gm_banner meta]; ["picture"; gm_picture meta]]
     ++ clientTags gw ++ feeds ++ relayTags relays).

(** The state after [calls] more calls to [publish] and [n] more keys
    drawn. *)
Definition afterCalls (st : State) (calls : list PublishCall) (n : nat) : State :=
  {| published := published st ++ calls;
     optimisticReadReceipts := optimisticReadReceipts st;
     keysDrawn := (keysDrawn st + n)%nat |}.

(** *** Worlds for the examples *)

Definition demoKeySource : KeySource :=
  {| ks_privateKeys := fun n => "priv" +:+ String_of_Z (Z.of_nat n);
     ks_getPublicKey := fun k => "pub-of-" +:+ k;
     ks_randomIds := fun n => "id" +:+ String_of_Z (Z.of_nat n);
     ks_now := 1700000000 |}.

Definition demoAdminKey (address : string) : AdminKey :=
  {| ak_group := address; ak_pubkey := "adminpub"; ak_privkey := "adminpriv";
     ak_created_at := 0; ak_relays := [] |}.

Definition demoGroupWorld (isAdmin : bool) : GroupWorld :=
  {| gw_world := demoWorld true true memberOfG1 [];
     adminKeyForGroup := fun a => if isAdmin then Some (demoAdminKey a) else None;
     groupRelays := fun _ => Some ["wss://group.example"];
     clientTags := [["client"; "coracle"]];
     keyShareRelays := fun _ _ => ["wss://share.example"];
     addressPubkey := fun _ => "adminpub";
     sessionPubkey := Some "user";
     currentPubkey := "user";
     displayProfile := fun p => p;
     signWithKey := fun t _ => demoSign t false;
     accessValue := fun a => match a with
                             | AccessNone => JData "none"
                             | Requested => JData "requested"
                             | Granted => JData "granted"
                             | Revoked => JData "revoked"
                             end |}.

End Groups.

(** ** Relay policies: [publishRelays], [joinRelay], [leaveRelay],
       [setRelayPolicy] *)

Module Relays.
Import Js Merge Engine.

Record RelayPolicy : Type := {
  rp_url : string;
  rp_read : bool;
  rp_write : bool
}.

(** A [Partial<RelayPolicy>]: the properties that are given. *)
Record PartialPolicy : Type := {
  pp_url : option string;
  pp_read : option bool;
  pp_write : option bool
}.

(** [normalizeRelayUrl] and [isShareableRelayUrl] of [@welshman/util]. *)
Record UrlTools : Type := {
  normalizeRelayUrl : string -> string;
  isShareableRelayUrl : string -> bool;
  writeTargets : list string
    (* withIndexers(forcePlatformRelays(hints.WriteRelays().getUrls())) *)
}.

(** The body of the [flatMap] of [publishRelays]. *)
Definition policyTags (u : UrlTools) (r : RelayPolicy) : list Tag :=
  let tag := ["r"; normalizeRelayUrl u (rp_url r)] in
  if rp_read r && rp_write r then [tag]
  else if rp_write r then [tag ++ ["write"]]
  else if rp_read r then [tag ++ ["read"]]
  else [].

(** The [tags] of the kind 10002 event of [publishRelays]. *)
Definition relayListTags (u : UrlTools) (clientTags : list Tag) (relays : list RelayPolicy)
    : list Tag :=
  flat_map (policyTags u) (List.filter (fun r => isShareableRelayUrl u (rp_url r)) relays)
  ++ clientTags.

(** The argument of [createAndPublish] in [publishRelays]. *)
Record RelayListDraft : Type := {
  d_kind : Z;
  d_tags : list Tag;
  d_relays : list string
}.

(** [updateStore(store, timestamp, updates)]: the record the store is
    set to, [record] being [store.get()]. *)
Definition updateStore (record : Record) (timestamp : Z) (updates : list (string * JsVal))
    : Record :=
  updateRecord record timestamp updates.

(** What [publishRelays] does with the list it is given: the list is
    merged with [updateStore] into the user's record [person] under
    [relays] at [now()], and when the user can sign an event of kind 10002
    with these tags is created and published.  [label] names a list of
    policies as a record value (see [Js.JsVal]). *)
Record RelaysPublication : Type := {
  stored : Record;
  event : option RelayListDraft
}.

Definition publishRelays (u : UrlTools) (canSign : bool) (clientTags : list Tag)
    (label : list RelayPolicy -> string) (now : Z) (person : Record)
    (relays : list RelayPolicy) : RelaysPublication :=
  {| stored := updateStore person now [("relays", JData (label relays))];
     event := if canSign
              then Some {| d_kind := 10002;
                           d_tags := relayListTags u clientTags relays;
                           d_relays := writeTargets u |}
              else None |}.

(** [reject(whereEq({url}), policies)] *)
Definition rejectUrl (url : string) (policies : list RelayPolicy) : list RelayPolicy :=
  List.filter (fun p => negb (String.eqb (rp_url p) url)) policies.

(** The list [leaveRelay] hands to [publishRelays]; [policies] is
    [relayPolicies.get()]. *)
Definition leaveRelay (url : string) (policies : list RelayPolicy) : list RelayPolicy :=
  rejectUrl url policies.

(** The list [joinRelay] hands to [publishRelays]. *)
Definition joinRelay (u : UrlTools) (url : string) (policies : list RelayPolicy)
    : list RelayPolicy :=
  let url := normalizeRelayUrl u url in
  rejectUrl url policies ++ [{| rp_url := url; rp_read := true; rp_write := true |}].

(** [{url, read: false, write: false, ...policy}] *)
Definition withDefaults (url : string) (policy : PartialPolicy) : RelayPolicy :=
  {| rp_url := match pp_url policy with Some v => v | None => url end;
     rp_read := match pp_read policy with Some b => b | None => false end;
     rp_write := match pp_write policy with Some b => b | None => false end |}.

(** The list [setRelayPolicy] hands to [publishRelays]. *)
Definition setRelayPolicy (url : string) (policy : PartialPolicy)
    (policies : list RelayPolicy) : list RelayPolicy :=
  List.filter (fun p => negb (String.eqb (rp_url p) url)) policies
  ++ [withDefaults url policy].

(** The marker that follows the url in the tag of a policy. *)
Definition policyMarker (r : RelayPolicy) : list string :=
  if rp_read r && rp_write r then []
  else if rp_write r then ["write"] else ["read"].

End Relays.

(** ** The tag update of [updateSingleton] *)

Module Singleton.
Import Engine.

(** [t[1]], [None] for [undefined]. *)
Definition tagValue (t : Tag) : option string := nth_error t 1.

(** [a === b] on strings and [undefined]. *)
Definition valueEqb (a b : option string) : bool :=
  match a, b with
  | Some x, Some y => String.eqb x y
  | None, None => true
  | _, _ => false
  end.

(** [uniqBy(nth(1), tags)]: the first tag of each value is kept; [seen]
    holds the values met so far. *)
Fixpoint uniqByValue (seen : list (option string)) (tags : list Tag) : list Tag :=
  match tags with
  | [] => []
  | t :: rest =>
      if existsb (valueEqb (tagValue t)) seen then uniqByValue seen rest
      else t :: uniqByValue (tagValue t :: seen) rest
  end.

(** [updateTags], the local function of [updateSingleton]. *)
Definition updateTags (add remove : list Tag) (tags : list Tag) : list Tag :=
  uniqByValue []
    (List.filter (fun t => negb (existsb (fun rm => valueEqb (tagValue rm) (tagValue t)) remove))
                 tags
     ++ add).

End Singleton.

(** ** Direct messages: [sendLegacyMessage], [sendMessage] *)

Module Messages.
Import Js Engine Envelopes Groups.

(** [s.split(",")]: [current] is the piece being read. *)
Fixpoint splitFrom (sep : ascii) (current : string) (s : string) : list string :=
  match s with
  | EmptyString => [current]
  | String c rest =>
      if Ascii.eqb c sep then current :: splitFrom sep EmptyString rest
      else splitFrom sep (current +:+ String c EmptyString) rest
  end.

Definition split (sep : ascii) (s : string) : list string := splitFrom sep EmptyString s.

(** [without([x], xs)] *)
Definition without (x : string) (xs : list string) : list string :=
  List.filter (fun y => negb (String.eqb y x)) xs.

(** [uniq(xs)]: the first occurrence of each element, in order. *)
Fixpoint uniqFrom (seen : list string) (xs : list string) : list string :=
  match xs with
  | [] => []
  | x :: rest =>
      if existsb (String.eqb x) seen then uniqFrom seen rest
      else x :: uniqFrom (x :: seen) rest
  end.

Definition uniq (xs : list string) : list string := uniqFrom [] xs.

Record MessageWorld : Type := {
  mw_world : World;
  mw_user : string;                               (* user.get().pubkey *)
  mention : string -> Tag;                        (* mention(pubkey) *)
  mw_clientTags : list Tag;                       (* getClientTags() *)
  nip04Encrypt : string -> string -> string;      (* nip04.get().encryptAsUser *)
  publishMessageRelays : string -> list string;   (* hints.PublishMessage(p).getUrls() *)
  mergedMessageRelays : list string -> list string
    (* hints.merge(recipients.map(hints.PublishMessage)).getUrls() *)
}.

Inductive MessageError : Type :=
| TooManyRecipients.  (* "Attempted to send legacy message to more than 1 recipient" *)

(** The argument of [createAndPublish]. *)
Record Draft : Type := {
  m_kind : Z;
  m_tags : list Tag;
  m_content : string;
  m_relays : list string
}.

(** [recipients[0] || $pubkey] *)
Definition firstOr (recipients : list string) (fallback : string) : string :=
  match recipients with
  | r :: _ => if String.eqb r EmptyString then fallback else r
  | [] => fallback
  end.

Definition sendLegacyMessage (mw : MessageWorld) (channelId content : string)
    : MessageError + Draft :=
  let recipients := without (mw_user mw) (split "," channelId) in
  if Nat.ltb 1 (List.length recipients) then inl TooManyRecipients
  else
    let pubkey := firstOr recipients (mw_user mw) in
    inr {| m_kind := 4;
           m_tags := mention mw pubkey :: mw_clientTags mw;
           m_content := nip04Encrypt mw content pubkey;
           m_relays := publishMessageRelays mw pubkey |}.

(** The template of [sendMessage]. *)
Definition messageTemplate (mw : MessageWorld) (recipients : list string) (content : string)
    : Template :=
  {| kind := 14;
     tags := map (mention mw) recipients ++ mw_clientTags mw;
     content := content;
     created_at := w_now (mw_world mw) |}.

Definition sendMessage (mw : MessageWorld) (channelId content : string) : M unit :=
  let w := mw_world mw in
  let recipients := split "," channelId in
  let template := messageTemplate mw recipients content in
  forEach (uniq (recipients ++ [mw_user mw])) (fun pubkey =>
    let* key := generatePrivateKey w in
    let rumor := nip59wrap w template
                   {| wo_author := None; wo_wrap := recipientWrap key pubkey None |} in
    let* _ := publish {| pc_event := wrap rumor;
                         pc_relays := mergedMessageRelays mw recipients |} in
    ret tt).

(** The calls of [sendMessage] for a run of participants, the first key
    drawn being number [first]. *)
Fixpoint messageCalls (mw : MessageWorld) (template : Template) (relays : list string)
    (first : nat) (participants : list string) : list PublishCall :=
  match participants with
  | [] => []
  | pubkey :: rest =>
      {| pc_event := wrap (nip59wrap (mw_world mw) template
                             {| wo_author := None;
                                wo_wrap := recipientWrap (privateKeys (mw_world mw) first)
                                             pubkey None |});
         pc_relays := relays |}
      :: messageCalls mw template relays (S first) rest
  end.

Definition demoMessageWorld : MessageWorld :=
  {| mw_world := demoWorld true true memberOfG1 [];
     mw_user := "user";
     mention := fun p => ["p"; p];
     mw_clientTags := [];
     nip04Encrypt := fun c _ => c;
     publishMessageRelays := fun _ => ["wss://inbox.example"];
     mergedMessageRelays := fun _ => ["wss://inbox.example"] |}.

End Messages.

(** ** Handles: [updateHandle] *)

Module Handles.

Record Handle : Type := {
  h_pubkey : string;
  h_nip05 : option string;
  h_relays : list string
}.

(** The stores [updateHandle] works on: the freshness store, the
    [handles] store, and the handles looked up so far with [loadHandle]. *)
Record HandleState : Type := {
  freshness : string -> string -> Z;
  handles : gmap string Handle;
  lookups : list string
}.

(** Modelled from the spec: [setFreshness(ns, key, ts)] of
    [src/engine/state] records [ts] as the freshness of [(ns, key)], which
    [getFreshness(ns, key)] then returns; the other pairs keep theirs. *)
Definition setFreshness (ns key : string) (ts : Z) (f : string -> string -> Z)
    : string -> string -> Z :=
  fun ns' key' => if String.eqb ns ns' && String.eqb key key' then ts else f ns' key'.

(** [updateHandle({pubkey, created_at}, {nip05})]; [loadHandle] is the
    lookup of [src/engine/requests], [None] when it finds nothing. *)
Definition updateHandle (loadHandle : string -> option Handle)
    (pubkey : string) (created_at : Z) (nip05 : option string) (st : HandleState)
    : HandleState :=
  match nip05 with
  | None => st
  | Some name =>
      if String.eqb name EmptyString || Z.leb created_at (freshness st "handle" pubkey)
      then st
      else
        let fresh := setFreshness "handle" pubkey created_at (freshness st) in
        let handle := loadHandle name in
        {| freshness := fresh;
           handles :=
             match handle with
             | Some h =>
                 if String.eqb (h_pubkey h) pubkey
                 then <[pubkey := {| h_pubkey := h_pubkey h; h_nip05 := Some name;
                                     h_relays := h_relays h |}]> (handles st)
                 else handles st
             | None => handles st
             end;
           lookups := lookups st ++ [name] |}
  end.

End Handles.

(* ===================================================================== *)
(** * Part II. Properties *)
(* ===================================================================== *)

Module MergeFacts.
Import Js Merge.

(** *** Keys *)

Lemma length_append (s t : string) :
  String.length (s +:+ t) = (String.length s + String.length t)%nat.
Proof. induction s as [|c s IH]; simpl; [reflexivity | now rewrite IH]. Qed.

Lemma append_inj_r (t s1 s2 : string) : s1 +:+ t = s2 +:+ t -> s1 = s2.
Proof.
  revert s2; induction s1 as [|c s1 IH]; intros [|d s2] H; simpl in H.
  - reflexivity.
  - apply (f_equal String.length) in H.
    rewrite !length_append in H; simpl in H; lia.
  - apply (f_equal String.length) in H.
    rewrite !length_append in H; simpl in H; lia.
  - injection H as -> H. f_equal. now apply IH.
Qed.

Lemma endsWith_refl (sfx : string) : endsWith sfx sfx = true.
Proof. destruct sfx; simpl; [reflexivity | now rewrite Ascii.eqb_refl, String.eqb_refl]. Qed.

Lemma endsWith_append (sfx g : string) : endsWith sfx (g +:+ sfx) = true.
Proof.
  induction g as [|c g IH]; simpl.
  - apply endsWith_refl.
  - rewrite IH. now destruct (match sfx with EmptyString => _ | String _ _ => _ end).
Qed.

Lemma tsField_inj (f g : string) : tsField f = tsField g -> f = g.
Proof. apply append_inj_r. Qed.

Lemma tsField_not_updated_at (f : string) : tsField f <> "updated_at".
Proof.
  intros H. apply (f_equal String.length) in H.
  unfold tsField in H. rewrite length_append in H. simpl in H. lia.
Qed.

Lemma payload_not_updated_at (f : string) :
  isBookkeepingKey f = false -> f <> "updated_at".
Proof.
  unfold isBookkeepingKey. intros H ->. discriminate H.
Qed.

Lemma payload_not_tsField (f g : string) :
  isBookkeepingKey f = false -> f <> tsField g.
Proof.
  unfold isBookkeepingKey, tsField. intros H ->.
  rewrite endsWith_append, orb_true_r in H. discriminate H.
Qed.

(** *** One entry of the loop *)

Lemma updateField_unfold t r f v :
  updateField t r (f, v) =
  if js_gt t (lastUpdated r f) then overwrite t f v r else r.
Proof. reflexivity. Qed.

Lemma rget_overwrite t f v r k :
  rget (overwrite t f v r) k =
  if decide ("updated_at" = k) then Some (math_max t (js_or (rget r "updated_at") (JNum 0)))
  else if decide (tsField f = k) then Some (JNum t)
  else if decide (f = k) then Some v
  else rget r k.
Proof.
  unfold overwrite; simpl. rewrite !lookup_insert.
  repeat case_decide; try reflexivity.
  destruct r; simpl; [reflexivity | apply lookup_empty].
Qed.

Lemma record_ext (o1 o2 : gmap string JsVal) :
  (forall k, rget (Some o1) k = rget (Some o2) k) -> Some o1 = Some o2.
Proof. intros H. f_equal. apply map_eq, H. Qed.

Lemma js_or_updated_at r :
  numericUpdatedAt r -> js_or (rget r "updated_at") (JNum 0) = JNum (updatedAtOr0 r).
Proof.
  unfold numericUpdatedAt, updatedAtOr0.
  destruct (rget r "updated_at") as [[n| |d]|]; simpl; try tauto.
  destruct (Z.eqb_spec n 0); simpl; congruence.
Qed.

Lemma numeric_overwrite t f v r : numericUpdatedAt r -> numericUpdatedAt (overwrite t f v r).
Proof.
  intros H. unfold numericUpdatedAt. rewrite rget_overwrite.
  rewrite decide_True by reflexivity. now rewrite js_or_updated_at.
Qed.

Lemma numeric_updateField t r e : numericUpdatedAt r -> numericUpdatedAt (updateField t r e).
Proof.
  destruct e as [f v]. rewrite updateField_unfold.
  destruct (js_gt _ _); [apply numeric_overwrite | trivial].
Qed.

Lemma numeric_updateRecord u t r : numericUpdatedAt r -> numericUpdatedAt (updateRecord r t u).
Proof.
  unfold updateRecord. revert r.
  induction u as [|e u IH]; simpl; intros r H; [trivial|].
  apply IH, numeric_updateField, H.
Qed.

Lemma updatedAtOr0_overwrite t f v r :
  numericUpdatedAt r -> updatedAtOr0 (overwrite t f v r) = Z.max t (updatedAtOr0 r).
Proof.
  intros H. unfold updatedAtOr0 at 1. rewrite rget_overwrite.
  rewrite decide_True by reflexivity. now rewrite js_or_updated_at.
Qed.

Lemma lastUpdated_overwrite_same t f v r :
  lastUpdated (overwrite t f v r) f = if Z.eqb t 0 then JNum (-1) else JNum t.
Proof.
  unfold lastUpdated. rewrite rget_overwrite.
  rewrite decide_False by (intros H; symmetry in H; exact (tsField_not_updated_at _ H)).
  rewrite decide_True by reflexivity. simpl.
  now destruct (Z.eqb t 0).
Qed.

Lemma lastUpdated_overwrite_other t f v r g :
  isBookkeepingKey f = false -> f <> g ->
  lastUpdated (overwrite t f v r) g = lastUpdated r g.
Proof.
  intros Hf Hfg. unfold lastUpdated. rewrite rget_overwrite.
  rewrite decide_False by (intros H; symmetry in H; exact (tsField_not_updated_at _ H)).
  rewrite decide_False by (intros H; apply Hfg, tsField_inj, H).
  rewrite decide_False by (apply payload_not_tsField, Hf).
  reflexivity.
Qed.

Lemma rget_overwrite_num t f v r k :
  numericUpdatedAt r ->
  rget (overwrite t f v r) k =
  if decide ("updated_at" = k) then Some (JNum (Z.max t (updatedAtOr0 r)))
  else if decide (tsField f = k) then Some (JNum t)
  else if decide (f = k) then Some v
  else rget r k.
Proof. intros H. now rewrite rget_overwrite, js_or_updated_at. Qed.

Lemma overwrite_ext t f v r t' f' v' r' :
  (forall k, rget (overwrite t f v r) k = rget (overwrite t' f' v' r') k) ->
  overwrite t f v r = overwrite t' f' v' r'.
Proof. apply record_ext. Qed.

(** Disequalities between the keys written for two payload fields. *)
Ltac key_facts f g :=
  pose proof (tsField_not_updated_at f);
  pose proof (tsField_not_updated_at g);
  match goal with
  | Hf : isBookkeepingKey f = false, Hg : isBookkeepingKey g = false |- _ =>
      pose proof (payload_not_updated_at f Hf);
      pose proof (payload_not_updated_at g Hg);
      pose proof (payload_not_tsField f f Hf);
      pose proof (payload_not_tsField f g Hf);
      pose proof (payload_not_tsField g f Hg);
      pose proof (payload_not_tsField g g Hg)
  end;
  try match goal with
      | N : f <> g |- _ =>
          pose proof (fun E : tsField f = tsField g => N (tsField_inj f g E))
      end.

Lemma overwrite_comm t1 t2 f1 f2 v1 v2 r :
  isBookkeepingKey f1 = false -> isBookkeepingKey f2 = false -> f1 <> f2 ->
  numericUpdatedAt r ->
  overwrite t2 f2 v2 (overwrite t1 f1 v1 r) = overwrite t1 f1 v1 (overwrite t2 f2 v2 r).
Proof.
  intros Hf1 Hf2 Hne Hnum. apply overwrite_ext; intros k.
  rewrite !rget_overwrite_num by auto using numeric_overwrite.
  rewrite !updatedAtOr0_overwrite by assumption.
  key_facts f1 f2.
  repeat case_decide; try congruence.
  do 2 f_equal; lia.
Qed.

Lemma overwrite_absorb t1 t2 f v1 v2 r :
  t1 < t2 -> numericUpdatedAt r ->
  overwrite t2 f v2 (overwrite t1 f v1 r) = overwrite t2 f v2 r.
Proof.
  intros Hlt Hnum. apply overwrite_ext; intros k.
  rewrite !rget_overwrite_num by auto using numeric_overwrite.
  rewrite !updatedAtOr0_overwrite by assumption.
  repeat case_decide; try congruence.
  do 2 f_equal; lia.
Qed.

(** Two entries for the same field: the later timestamp absorbs the
    earlier one, whichever is merged first. *)
Lemma updateField_same_lt t1 t2 f v1 v2 r :
  t1 < t2 -> numericUpdatedAt r ->
  updateField t2 (updateField t1 r (f, v1)) (f, v2)
  = updateField t1 (updateField t2 r (f, v2)) (f, v1).
Proof.
  intros Hlt Hnum. rewrite !updateField_unfold.
  destruct (js_gt t1 (lastUpdated r f)) eqn:C1.
  - assert (C2 : js_gt t2 (lastUpdated r f) = true).
    { destruct (lastUpdated r f); simpl in *; try discriminate; lia. }
    rewrite C2, !lastUpdated_overwrite_same.
    replace (js_gt t2 (if Z.eqb t1 0 then JNum (-1) else JNum t1)) with true
      by (destruct (Z.eqb_spec t1 0); simpl; lia).
    replace (js_gt t1 (if Z.eqb t2 0 then JNum (-1) else JNum t2)) with false
      by (destruct (Z.eqb_spec t2 0); simpl; lia).
    now apply overwrite_absorb.
  - destruct (js_gt t2 (lastUpdated r f)) eqn:C2.
    + rewrite lastUpdated_overwrite_same.
      replace (js_gt t1 (if Z.eqb t2 0 then JNum (-1) else JNum t2)) with false
        by (destruct (Z.eqb_spec t2 0); simpl; lia).
      reflexivity.
    + now rewrite C1.
Qed.

Lemma updateField_comm t1 t2 r e1 e2 :
  (t1 = t2 -> fst e1 = fst e2 -> snd e1 = snd e2) ->
  isBookkeepingKey (fst e1) = false -> isBookkeepingKey (fst e2) = false ->
  numericUpdatedAt r ->
  updateField t2 (updateField t1 r e1) e2 = updateField t1 (updateField t2 r e2) e1.
Proof.
  destruct e1 as [f1 v1], e2 as [f2 v2]; cbn [fst snd]. intros Hagree Hf1 Hf2 Hnum.
  destruct (decide (f1 = f2)) as [->|Hf].
  - destruct (Z.lt_total t1 t2) as [Hlt|[Heq|Hgt]].
    + now apply updateField_same_lt.
    + subst t2. now rewrite (Hagree eq_refl eq_refl).
    + symmetry. now apply updateField_same_lt.
  - rewrite !updateField_unfold.
    destruct (js_gt t1 (lastUpdated r f1)) eqn:C1;
      destruct (js_gt t2 (lastUpdated r f2)) eqn:C2;
      rewrite ?lastUpdated_overwrite_other by auto;
      rewrite ?C1, ?C2; try reflexivity.
    now apply overwrite_comm.
Qed.

(** *** Whole merges commute when they agree where they tie *)

Lemma updateRecord_cons r t e u :
  updateRecord r t (e :: u) = updateRecord (updateField t r e) t u.
Proof. reflexivity. Qed.

Lemma updateField_updateRecord_comm t1 t2 e u r :
  (t1 = t2 -> forall e', In e' u -> fst e = fst e' -> snd e = snd e') ->
  isBookkeepingKey (fst e) = false ->
  Forall (fun e => isBookkeepingKey (fst e) = false) u ->
  numericUpdatedAt r ->
  updateRecord (updateField t1 r e) t2 u = updateField t1 (updateRecord r t2 u) e.
Proof.
  revert r. induction u as [|e' u IH]; intros r Hagree He Hu Hnum; [reflexivity|].
  inversion Hu as [|? ? He' Hu']; subst.
  rewrite !updateRecord_cons.
  assert (Hc : updateField t2 (updateField t1 r e) e'
               = updateField t1 (updateField t2 r e') e).
  { apply updateField_comm; auto. intros E. apply Hagree; [exact E | now left]. }
  rewrite Hc. apply IH; auto using numeric_updateField.
  intros E e'' Hin. apply Hagree; [exact E | now right].
Qed.

Lemma updateRecord_comm t1 t2 u1 u2 r :
  (t1 = t2 -> forall e1 e2, In e1 u1 -> In e2 u2 -> fst e1 = fst e2 -> snd e1 = snd e2) ->
  Forall (fun e => isBookkeepingKey (fst e) = false) u1 ->
  Forall (fun e => isBookkeepingKey (fst e) = false) u2 ->
  numericUpdatedAt r ->
  updateRecord (updateRecord r t1 u1) t2 u2 = updateRecord (updateRecord r t2 u2) t1 u1.
Proof.
  revert r. induction u1 as [|e u1 IH]; intros r Hagree Hu1 Hu2 Hnum; [reflexivity|].
  inversion Hu1 as [|? ? He Hu1']; subst.
  rewrite !updateRecord_cons.
  rewrite IH; auto using numeric_updateField.
  - rewrite updateField_updateRecord_comm; auto.
    intros E e' Hin. apply Hagree; [exact E | now left | exact Hin].
  - intros E e1 e2 H1 H2. apply Hagree; [exact E | now right | exact H2].
Qed.

Lemma numeric_applyMerges ops r : numericUpdatedAt r -> numericUpdatedAt (applyMerges r ops).
Proof.
  unfold applyMerges. revert r.
  induction ops as [|op ops IH]; simpl; intros r H; [trivial|].
  apply IH, numeric_updateRecord, H.
Qed.

Lemma tiesAgree_incl ops ops' :
  (forall op, In op ops' -> In op ops) -> tiesAgree ops -> tiesAgree ops'.
Proof.
  intros Hincl Hag t u1 u2 f v1 v2 H1 H2. apply (Hag t u1 u2 f v1 v2); auto.
Qed.

(** Merges that agree where they tie give the same record in any
    order. *)
Lemma applyMerges_Permutation ops ops' :
  Permutation ops ops' ->
  forall r,
  numericUpdatedAt r ->
  tiesAgree ops ->
  Forall (fun op => payloadUpdates (snd op)) ops ->
  applyMerges r ops = applyMerges r ops'.
Proof.
  induction 1 as [|op l l' HP IH|op1 op2 l|l l' l'' HP1 IH1 HP2 IH2];
    intros r Hnum Hag Hpay.
  - reflexivity.
  - unfold applyMerges; simpl. inversion Hpay; subst.
    apply IH; auto using numeric_updateRecord.
    apply (tiesAgree_incl (op :: l)); [|exact Hag]. intros op' Hin. now right.
  - unfold applyMerges; simpl. f_equal.
    inversion Hpay as [|? ? Hp1 Hpay']; subst.
    inversion Hpay' as [|? ? Hp2 _]; subst.
    apply updateRecord_comm; auto; [|apply Hp1|apply Hp2].
    destruct op1 as [t1 u1], op2 as [t2 u2]; cbn [fst snd].
    intros E [f1 v1] [f2 v2] H1 H2 Ef. cbn [fst snd] in *. subst t1 f2.
    apply (Hag t2 u2 u1 f1 v1 v2); simpl; auto.
  - rewrite IH1 by assumption. apply IH2; auto.
    + apply (tiesAgree_incl l); [|exact Hag].
      intros op Hin. apply (Permutation_in _ (Permutation_sym HP1) Hin).
    + eapply Permutation_Forall; eassumption.
Qed.

(** *** What one merge does to each key *)

Lemma rget_updateField_other t r e k :
  "updated_at" <> k -> tsField (fst e) <> k -> fst e <> k ->
  rget (updateField t r e) k = rget r k.
Proof.
  destruct e as [f v]; cbn [fst]; intros H1 H2 H3.
  rewrite updateField_unfold. destruct (js_gt _ _); [|reflexivity].
  rewrite rget_overwrite. now rewrite !decide_False by assumption.
Qed.

Lemma rget_updateRecord_other t u r k :
  "updated_at" <> k ->
  Forall (fun e => tsField (fst e) <> k /\ fst e <> k) u ->
  rget (updateRecord r t u) k = rget r k.
Proof.
  intros HK Hu. revert r. induction Hu as [|e u [H1 H2] Hu IH]; intros r; [reflexivity|].
  rewrite updateRecord_cons, IH. now apply rget_updateField_other.
Qed.

Lemma lastUpdated_ext r r' f :
  rget r' (tsField f) = rget r (tsField f) -> lastUpdated r' f = lastUpdated r f.
Proof. unfold lastUpdated. now intros ->. Qed.

(** The keys of a field that does not occur in [u] survive the merge. *)
Lemma updateRecord_field_absent t u r f :
  isBookkeepingKey f = false ->
  Forall (fun e => isBookkeepingKey (fst e) = false) u ->
  ~ In f (map fst u) ->
  rget (updateRecord r t u) f = rget r f /\
  rget (updateRecord r t u) (tsField f) = rget r (tsField f).
Proof.
  intros Hf Hu Hnin.
  assert (Hne : Forall (fun e => fst e <> f) u).
  { apply List.Forall_forall. intros e He E. apply Hnin. rewrite <- E. apply in_map, He. }
  split; apply rget_updateRecord_other.
  - intros E. symmetry in E. exact (payload_not_updated_at _ Hf E).
  - apply List.Forall_forall. intros e He.
    rewrite List.Forall_forall in Hu, Hne. split; [|now apply Hne].
    intros E. symmetry in E. exact (payload_not_tsField _ _ Hf E).
  - intros E. symmetry in E. exact (tsField_not_updated_at _ E).
  - apply List.Forall_forall. intros e He.
    rewrite List.Forall_forall in Hu, Hne. split.
    + intros E. apply (Hne e He), tsField_inj, E.
    + apply payload_not_tsField. now apply Hu.
Qed.

Lemma payloadUpdates_cons e u :
  payloadUpdates (e :: u) ->
  isBookkeepingKey (fst e) = false /\ ~ In (fst e) (map fst u) /\ payloadUpdates u.
Proof.
  intros [Hnd Hall]. simpl in Hnd. apply NoDup_cons in Hnd as [Hnin Hnd].
  inversion Hall; subst. repeat split; auto.
  intros Hin. apply Hnin. now apply list_elem_of_In.
Qed.

(** Each entry of a merge is decided against the stamp stored before the
    merge: it is written when the guard holds and dropped otherwise. *)
Lemma updateRecord_entry t u : forall r f v,
  payloadUpdates u -> In (f, v) u ->
  if js_gt t (lastUpdated r f)
  then rget (updateRecord r t u) f = Some v /\
       rget (updateRecord r t u) (tsField f) = Some (JNum t)
  else rget (updateRecord r t u) f = rget r f /\
       rget (updateRecord r t u) (tsField f) = rget r (tsField f).
Proof.
  induction u as [|e u IH]; intros r f v Hpay Hin; [contradiction|].
  apply payloadUpdates_cons in Hpay as (He & Hnin & Hpay).
  rewrite updateRecord_cons. destruct Hin as [->|Hin].
  - cbn [fst] in *.
    destruct (updateRecord_field_absent t u (updateField t r (f, v)) f He (proj2 Hpay) Hnin)
      as [-> ->].
    rewrite updateField_unfold. destruct (js_gt t (lastUpdated r f)); [|tauto].
    rewrite !rget_overwrite.
    pose proof (tsField_not_updated_at f). pose proof (payload_not_updated_at f He).
    pose proof (payload_not_tsField f f He).
    split; repeat case_decide; congruence.
  - assert (Hf : isBookkeepingKey f = false).
    { destruct Hpay as [_ Hall]. rewrite List.Forall_forall in Hall. exact (Hall _ Hin). }
    assert (Hne : fst e <> f).
    { intros E. apply Hnin. rewrite E. exact (in_map fst _ _ Hin). }
    assert (E1 : rget (updateField t r e) f = rget r f).
    { apply rget_updateField_other; auto.
      - intros E. symmetry in E. exact (payload_not_updated_at _ Hf E).
      - intros E. symmetry in E. exact (payload_not_tsField _ _ Hf E). }
    assert (E2 : rget (updateField t r e) (tsField f) = rget r (tsField f)).
    { apply rget_updateField_other; auto.
      - intros E. symmetry in E. exact (tsField_not_updated_at _ E).
      - intros E. apply Hne, tsField_inj, E.
      - now apply payload_not_tsField. }
    specialize (IH (updateField t r e) f v Hpay Hin).
    rewrite (lastUpdated_ext _ _ _ E2) in IH.
    destruct (js_gt t (lastUpdated r f)); [exact IH|].
    now rewrite <- E1, <- E2.
Qed.

(** Whether some entry of [u] passes the guard against record [r]. *)
Lemma anyWritten_updateField t r e u :
  isBookkeepingKey (fst e) = false -> ~ In (fst e) (map fst u) ->
  Forall (fun e => isBookkeepingKey (fst e) = false) u ->
  anyWritten t (updateField t r e) u = anyWritten t r u.
Proof.
  intros He Hnin Hu. unfold anyWritten.
  induction Hu as [|e' u He' Hu IH]; [reflexivity|]. simpl.
  rewrite IH by (intros Hin; apply Hnin; now right).
  f_equal. f_equal. apply lastUpdated_ext, rget_updateField_other.
  - intros E. symmetry in E. exact (tsField_not_updated_at _ E).
  - intros E. apply Hnin. left. symmetry. now apply tsField_inj.
  - now apply payload_not_tsField.
Qed.

Lemma updateRecord_none_written t u : forall r,
  payloadUpdates u -> anyWritten t r u = false -> updateRecord r t u = r.
Proof.
  induction u as [|e u IH]; intros r Hpay Hany; [reflexivity|].
  apply payloadUpdates_cons in Hpay as (He & Hnin & Hpay).
  unfold anyWritten in Hany. simpl in Hany. apply orb_false_iff in Hany as [C Hany].
  rewrite updateRecord_cons.
  assert (E : updateField t r e = r).
  { destruct e as [f v]. rewrite updateField_unfold. cbn [fst] in C. now rewrite C. }
  rewrite E. now apply IH.
Qed.

Lemma updateRecord_updated_at t u : forall r,
  payloadUpdates u -> numericUpdatedAt r ->
  rget (updateRecord r t u) "updated_at" =
  if anyWritten t r u then Some (JNum (Z.max t (updatedAtOr0 r)))
  else rget r "updated_at".
Proof.
  induction u as [|e u IH]; intros r Hpay Hnum; [reflexivity|].
  apply payloadUpdates_cons in Hpay as (He & Hnin & Hpay).
  rewrite updateRecord_cons, IH by auto using numeric_updateField.
  rewrite anyWritten_updateField by (auto; apply Hpay).
  unfold anyWritten at 2. simpl. fold (anyWritten t r u).
  destruct e as [f v]. cbn [fst]. rewrite updateField_unfold.
  destruct (js_gt t (lastUpdated r f)); [|reflexivity].
  rewrite updatedAtOr0_overwrite by assumption.
  rewrite rget_overwrite_num by assumption. rewrite decide_True by reflexivity.
  rewrite orb_true_l.
  destruct (anyWritten t r u); [|reflexivity].
  do 2 f_equal. lia.
Qed.

Lemma stampsBounded_updateField t r e :
  isBookkeepingKey (fst e) = false -> numericUpdatedAt r ->
  stampsBounded r -> stampsBounded (updateField t r e).
Proof.
  destruct e as [f v]; cbn [fst]; intros Hf Hnum Hb.
  rewrite updateField_unfold. destruct (js_gt _ _); [|exact Hb].
  intros g n. rewrite !rget_overwrite_num by assumption.
  pose proof (tsField_not_updated_at g). pose proof (payload_not_tsField f g Hf).
  repeat case_decide; try congruence.
  - intros [= <-]. eexists; split; [reflexivity | lia].
  - intros Hg. destruct (Hb g n Hg) as (u0 & Hu0 & Hle).
    eexists; split; [reflexivity|]. unfold updatedAtOr0. rewrite Hu0. lia.
Qed.

Lemma stampsBounded_updateRecord t u : forall r,
  Forall (fun e => isBookkeepingKey (fst e) = false) u ->
  numericUpdatedAt r -> stampsBounded r -> stampsBounded (updateRecord r t u).
Proof.
  induction u as [|e u IH]; intros r Hu Hnum Hb; [exact Hb|].
  inversion Hu; subst. rewrite updateRecord_cons.
  apply IH; auto using numeric_updateField, stampsBounded_updateField.
Qed.

Lemma updateRecord_fixed t u r :
  (forall e, In e u -> updateField t r e = r) -> updateRecord r t u = r.
Proof.
  induction u as [|e u IH]; intros H; [reflexivity|].
  rewrite updateRecord_cons, (H e) by now left.
  apply IH. intros e' He'. apply H. now right.
Qed.

Lemma js_gt_mono t t' s : t' <= t -> js_gt t' s = true -> js_gt t s = true.
Proof. destruct s; simpl; try discriminate. lia. Qed.

Lemma payloadUpdates_key u f v :
  payloadUpdates u -> In (f, v) u -> isBookkeepingKey f = false.
Proof.
  intros [_ Hall] Hin. rewrite List.Forall_forall in Hall. exact (Hall _ Hin).
Qed.

(** A merge whose guard fails for [f] leaves the value and the stamp of
    [f] alone. *)
Lemma updateRecord_keeps_field t u r f :
  payloadUpdates u -> isBookkeepingKey f = false ->
  (In f (map fst u) -> js_gt t (lastUpdated r f) = false) ->
  rget (updateRecord r t u) f = rget r f /\
  rget (updateRecord r t u) (tsField f) = rget r (tsField f).
Proof.
  intros Hpay Hf Hguard.
  destruct (in_dec string_dec f (map fst u)) as [Hin|Hnin].
  - pose proof (Hguard Hin) as C.
    apply in_map_iff in Hin as ([f' v] & E & Hin). cbn [fst] in E. subst f'.
    pose proof (updateRecord_entry t u r f v Hpay Hin) as H. now rewrite C in H.
  - apply updateRecord_field_absent; auto. apply Hpay.
Qed.

Lemma applyMerges_cons r op ops :
  applyMerges r (op :: ops) = applyMerges (updateRecord r (fst op) (snd op)) ops.
Proof. reflexivity. Qed.

Lemma applyMerges_keeps_field ops f : forall r,
  Forall (fun op => payloadUpdates (snd op)) ops ->
  isBookkeepingKey f = false ->
  (forall op, In op ops -> In f (map fst (snd op)) ->
     js_gt (fst op) (lastUpdated r f) = false) ->
  rget (applyMerges r ops) f = rget r f /\
  rget (applyMerges r ops) (tsField f) = rget r (tsField f).
Proof.
  induction ops as [|op ops IH]; intros r Hpay Hf Hguard; [split; reflexivity|].
  inversion Hpay as [|? ? Hp Hpay']; subst.
  rewrite applyMerges_cons.
  destruct (updateRecord_keeps_field (fst op) (snd op) r f Hp Hf) as [E1 E2].
  { apply Hguard. now left. }
  destruct (IH (updateRecord r (fst op) (snd op)) Hpay' Hf) as [E3 E4].
  { intros op' Hin' Hf'. rewrite (lastUpdated_ext _ _ _ E2). apply Hguard; [now right | exact Hf']. }
  split; congruence.
Qed.

(** A field that holds [v] with the stamp [t] keeps both through merges
    that mention it with a smaller timestamp, or with [t] and [v] again. *)
Lemma applyMerges_holds_field ops f v t : forall r,
  Forall (fun op => payloadUpdates (snd op)) ops ->
  isBookkeepingKey f = false ->
  (forall t' u', In (t', u') ops -> In f (map fst u') ->
     t' < t \/ (t' = t /\ In (f, v) u')) ->
  rget r f = Some v -> rget r (tsField f) = Some (JNum t) ->
  rget (applyMerges r ops) f = Some v /\
  rget (applyMerges r ops) (tsField f) = Some (JNum t).
Proof.
  induction ops as [|[t' u'] ops IH]; intros r Hpay Hf Hops Hv Hts; [split; assumption|].
  inversion Hpay as [|? ? Hp Hpay']; subst. cbn [snd] in Hp.
  rewrite applyMerges_cons; cbn [fst snd].
  assert (Hstep : rget (updateRecord r t' u') f = Some v /\
                  rget (updateRecord r t' u') (tsField f) = Some (JNum t)).
  { destruct (in_dec string_dec f (map fst u')) as [Hin|Hnin].
    - destruct (Hops t' u' (or_introl eq_refl) Hin) as [Hlt|[-> Hfv]].
      + destruct (updateRecord_keeps_field t' u' r f Hp Hf) as [E1 E2]; [|split; congruence].
        intros _. unfold lastUpdated. rewrite Hts. simpl.
        destruct (Z.eqb_spec t 0); simpl; lia.
      + pose proof (updateRecord_entry t u' r f v Hp Hfv) as Hent.
        destruct (js_gt t (lastUpdated r f)); destruct Hent as [E1 E2];
          split; congruence.
    - destruct (updateRecord_keeps_field t' u' r f Hp Hf) as [E1 E2];
        [intros Hin; contradiction | split; congruence]. }
  destruct Hstep as [Hv' Hts']. apply IH; auto.
  intros t'' u'' Hin. apply Hops. now right.
Qed.

(** Last writer wins: the entry with the greatest timestamp among the
    merges that mention [f] decides the final value of [f]. *)
Lemma applyMerges_last_writer r ops f t u v :
  numericUpdatedAt r ->
  tiesAgree ops ->
  Forall (fun op => payloadUpdates (snd op)) ops ->
  In (t, u) ops -> In (f, v) u ->
  (forall t' u', In (t', u') ops -> In f (map fst u') -> t' <= t) ->
  if js_gt t (lastUpdated r f)
  then rget (applyMerges r ops) f = Some v /\
       rget (applyMerges r ops) (tsField f) = Some (JNum t)
  else rget (applyMerges r ops) f = rget r f /\
       rget (applyMerges r ops) (tsField f) = rget r (tsField f).
Proof.
  intros Hnum Hag Hpay Hop Hfv Hmax.
  assert (Hpu : payloadUpdates u).
  { rewrite List.Forall_forall in Hpay. exact (Hpay _ Hop). }
  pose proof (payloadUpdates_key u f v Hpu Hfv) as Hf.
  destruct (js_gt t (lastUpdated r f)) eqn:C.
  - destruct (in_split _ _ Hop) as (l1 & l2 & E).
    assert (HP : Permutation ops ((t, u) :: l1 ++ l2))
      by (rewrite E; symmetry; apply Permutation_middle).
    rewrite (applyMerges_Permutation _ _ HP r Hnum Hag Hpay).
    rewrite applyMerges_cons; cbn [fst snd].
    assert (Hpay' : Forall (fun op => payloadUpdates (snd op)) ((t, u) :: l1 ++ l2))
      by (eapply Permutation_Forall; eassumption).
    inversion Hpay' as [|? ? _ Hrest]; subst x l.
    pose proof (updateRecord_entry t u r f v Hpu Hfv) as Hent. rewrite C in Hent.
    destruct Hent as [Hv Hts].
    apply applyMerges_holds_field; auto.
    intros t' u' Hin Hf'.
    assert (Hin' : In (t', u') ops).
    { apply (Permutation_in _ (Permutation_sym HP)). now right. }
    pose proof (Hmax t' u' Hin' Hf') as Hle.
    destruct (Z.eq_dec t' t) as [->|Hne]; [right | left; lia].
    split; [reflexivity|].
    apply in_map_iff in Hf' as ([f' v'] & Ef & Hfv'). cbn [fst] in Ef. subst f'.
    now rewrite (Hag t u u' f v v' Hop Hin' Hfv Hfv').
  - apply applyMerges_keeps_field; auto.
    intros [t' u'] Hin Hf'. cbn [fst snd] in *.
    destruct (js_gt t' (lastUpdated r f)) eqn:C'; [|reflexivity].
    rewrite (js_gt_mono t t') in C; [discriminate | exact (Hmax t' u' Hin Hf') | exact C'].
Qed.

(** *** The claims about [updateRecord] *)

(** Concrete key lists are checked by evaluation. *)
Ltac payload_ok :=
  split; [apply (bool_decide_unpack _); vm_compute; exact I
         | repeat constructor].

(** C6, as amended.  For merges whose updates name payload fields and
    of which no two that carry the same timestamp give different values to
    the same field, on a record with a numeric [updated_at]: the final
    record is the same in timestamp order, in the reversed order and in any
    other order; and for each field the final value and stamp are those of
    the entry with the greatest timestamp among the merges that mention
    the field, provided that timestamp passes the guard against the stamp
    stored initially (otherwise the field is left as it was). *)
Theorem applyMerges_order_independent (r : Record) (ops : list (Z * list (string * JsVal))) :
  numericUpdatedAt r ->
  Forall (fun op => payloadUpdates (snd op)) ops ->
  tiesAgree ops ->
  applyMerges r ops = applyMerges r (rev ops) /\
  (forall ops', Permutation ops ops' -> applyMerges r ops = applyMerges r ops') /\
  (forall f t u v,
     In (t, u) ops -> In (f, v) u ->
     (forall t' u', In (t', u') ops -> In f (map fst u') -> t' <= t) ->
     if js_gt t (lastUpdated r f)
     then rget (applyMerges r ops) f = Some v /\
          rget (applyMerges r ops) (tsField f) = Some (JNum t)
     else rget (applyMerges r ops) f = rget r f /\
          rget (applyMerges r ops) (tsField f) = rget r (tsField f)).
Proof.
  intros Hnum Hpay Hag.
  repeat split.
  - apply applyMerges_Permutation; auto. apply Permutation_rev.
  - intros ops' HP. now apply applyMerges_Permutation.
  - intros f t u v. now apply applyMerges_last_writer.
Qed.

(** Two merges of the same second that touch different fields, and a
    later one. *)
Lemma applyMerges_order_independent_witness :
  let r : Record := None in
  let ops := [(5, [("name", JData "alice")]);
              (5, [("about", JData "hi")]);
              (7, [("name", JData "bob")])] in
  numericUpdatedAt r /\
  Forall (fun op => payloadUpdates (snd op)) ops /\
  tiesAgree ops /\
  applyMerges r ops = applyMerges r (rev ops).
Proof.
  intros r ops.
  assert (H1 : numericUpdatedAt r) by exact I.
  assert (H2 : Forall (fun op => payloadUpdates (snd op)) ops)
    by (repeat (constructor; [payload_ok|]); constructor).
  assert (H3 : tiesAgree ops).
  { intros t u1 u2 f v1 v2 Hu1 Hu2 Hv1 Hv2. simpl in Hu1, Hu2.
    repeat (destruct Hu1 as [Hu1|Hu1]; [inversion Hu1; subst t u1; clear Hu1|]);
      try contradiction;
      repeat (destruct Hu2 as [Hu2|Hu2]; [inversion Hu2; subst u2; clear Hu2|]);
      try contradiction; simpl in Hv1, Hv2;
      repeat (destruct Hv1 as [Hv1|Hv1]; [inversion Hv1; subst f v1; clear Hv1|]);
      try contradiction;
      repeat (destruct Hv2 as [Hv2|Hv2]; [inversion Hv2; subst; clear Hv2|]);
      try contradiction; try reflexivity; try discriminate. }
  split; [exact H1 | split; [exact H2 | split; [exact H3 |]]].
  exact (proj1 (applyMerges_order_independent r ops H1 H2 H3)).
Defined.

(** C6 as stated fails: two merges carrying the same timestamp are in
    timestamp order in both directions, and when they give different
    values to the same field the one merged first wins. *)
Lemma applyMerges_tie_counterexample :
  let ops := [(5, [("name", JData "alice")]); (5, [("name", JData "bob")])] in
  Sorted (fun a b => fst a <= fst b) ops /\
  Sorted (fun a b => fst a <= fst b) (rev ops) /\
  rget (applyMerges None ops) "name" = Some (JData "alice") /\
  rget (applyMerges None (rev ops)) "name" = Some (JData "bob") /\
  applyMerges None ops <> applyMerges None (rev ops).
Proof.
  intros ops.
  assert (Ha : rget (applyMerges None ops) "name" = Some (JData "alice")) by reflexivity.
  assert (Hb : rget (applyMerges None (rev ops)) "name" = Some (JData "bob")) by reflexivity.
  repeat split; try assumption.
  - repeat constructor; simpl; lia.
  - repeat constructor; simpl; lia.
  - intros E. rewrite E in Ha. rewrite Ha in Hb. discriminate Hb.
Qed.

(** C7, as amended.  For updates that name payload fields and a record
    with a numeric [updated_at]: the stamp a field is compared with is its
    stored stamp, read as -1 when it is absent or zero; an entry is written
    (value and stamp) exactly when the incoming timestamp is strictly
    greater than that, and is dropped otherwise, leaving value and stamp
    as they were; the record-level [updated_at] becomes the maximum of the
    timestamp and its previous value (0 when absent) as soon as one entry
    is written and is untouched otherwise, so it never decreases, and is
    then its previous value or the stamp of a field; and it stays an upper
    bound of all field stamps when it was one before, which makes it the
    maximum of the field stamps clamped from below by its previous
    value. *)
Theorem updateRecord_field_rule (r : Record) (t : Z) (u : list (string * JsVal)) :
  payloadUpdates u -> numericUpdatedAt r ->
  (forall f, rget r (tsField f) = None -> lastUpdated r f = JNum (-1)) /\
  (forall f n, rget r (tsField f) = Some (JNum n) ->
     lastUpdated r f = JNum (if Z.eqb n 0 then -1 else n)) /\
  (forall f v, In (f, v) u ->
     if js_gt t (lastUpdated r f)
     then rget (updateRecord r t u) f = Some v /\
          rget (updateRecord r t u) (tsField f) = Some (JNum t)
     else rget (updateRecord r t u) f = rget r f /\
          rget (updateRecord r t u) (tsField f) = rget r (tsField f)) /\
  rget (updateRecord r t u) "updated_at" =
    (if anyWritten t r u then Some (JNum (Z.max t (updatedAtOr0 r)))
     else rget r "updated_at") /\
  (forall u0, rget r "updated_at" = Some (JNum u0) ->
     exists u1, rget (updateRecord r t u) "updated_at" = Some (JNum u1) /\ u0 <= u1 /\
       (u1 = u0 \/
        exists f, rget (updateRecord r t u) (tsField f) = Some (JNum u1))) /\
  (stampsBounded r -> stampsBounded (updateRecord r t u)).
Proof.
  intros Hpay Hnum.
  pose proof (updateRecord_updated_at t u r Hpay Hnum) as Hupd.
  split; [|split; [|split; [|split; [|split]]]].
  - intros f H. unfold lastUpdated. now rewrite H.
  - intros f n H. unfold lastUpdated. rewrite H. simpl.
    now destruct (Z.eqb n 0).
  - intros f v. now apply updateRecord_entry.
  - exact Hupd.
  - intros u0 H0. rewrite Hupd. destruct (anyWritten t r u) eqn:Hany.
    + assert (Eu : updatedAtOr0 r = u0) by (unfold updatedAtOr0; now rewrite H0).
      rewrite Eu. eexists; split; [reflexivity|]. split; [lia|].
      destruct (Z.max_spec t u0) as [[_ ->]|[Hle ->]]; [now left|right].
      apply existsb_exists in Hany as ([f v] & Hin & C). cbn [fst] in C.
      pose proof (updateRecord_entry t u r f v Hpay Hin) as Hent. rewrite C in Hent.
      exists f. apply Hent.
    + exists u0. split; [exact H0 | split; [lia | now left]].
  - intros Hb. apply stampsBounded_updateRecord; auto. apply Hpay.
Qed.

Lemma updateRecord_field_rule_witness :
  let r : Record :=
    Some (<["updated_at" := JNum 10]>
          (<["name_updated_at" := JNum 10]> (<["name" := JData "alice"]> ∅))) in
  let u := [("name", JData "bob"); ("about", JData "hi")] in
  payloadUpdates u /\ numericUpdatedAt r /\
  rget (updateRecord r 7 u) "name" = rget r "name" /\
  rget (updateRecord r 7 u) "about" = Some (JData "hi") /\
  rget (updateRecord r 7 u) "updated_at" = Some (JNum 10).
Proof.
  intros r u.
  assert (H1 : payloadUpdates u) by payload_ok.
  assert (H2 : numericUpdatedAt r) by exact I.
  destruct (updateRecord_field_rule r 7 u H1 H2) as (_ & _ & Hent & Hupd & _).
  split; [exact H1 | split; [exact H2 | split; [| split]]].
  - exact (proj1 (Hent "name" (JData "bob") (or_introl eq_refl))).
  - exact (proj1 (Hent "about" (JData "hi") (or_intror (or_introl eq_refl)))).
  - exact Hupd.
Defined.

(** C7 as stated fails in two places.  A stored stamp of 0 is read as -1,
    so an incoming timestamp 0, which is not strictly greater than the
    stored 0, overwrites the field; and the default for an absent stamp is
    -1, not minus infinity, so an update with timestamp -5 for a field
    that has no stamp is dropped. *)
Lemma updateRecord_default_counterexample :
  let r : Record :=
    Some (<["updated_at" := JNum 0]>
          (<["name_updated_at" := JNum 0]> (<["name" := JData "alice"]> ∅))) in
  (rget r "name_updated_at" = Some (JNum 0) /\
   ~ (0 > 0) /\
   rget (updateRecord r 0 [("name", JData "bob")]) "name" = Some (JData "bob")) /\
  (rget None "name_updated_at" = None /\
   updateRecord None (-5) [("name", JData "bob")] = None).
Proof.
  intros r. repeat split; try reflexivity. lia.
Qed.

(** C8, as amended.  For updates that name payload fields (pairwise
    distinct keys, none of them [updated_at] or ending in [_updated_at])
    and a record whose [updated_at], when present, is a number: merging
    the same [(timestamp, updates)] a second time changes nothing. *)
Theorem updateRecord_idempotent (r : Record) (t : Z) (u : list (string * JsVal)) :
  payloadUpdates u -> numericUpdatedAt r ->
  updateRecord (updateRecord r t u) t u = updateRecord r t u.
Proof.
  intros Hpay Hnum.
  destruct (anyWritten t r u) eqn:Hany.
  2:{ now rewrite !(updateRecord_none_written t u r Hpay Hany). }
  pose proof (updateRecord_updated_at t u r Hpay Hnum) as Hupd. rewrite Hany in Hupd.
  apply updateRecord_fixed. intros [f v] Hin.
  pose proof (updateRecord_entry t u r f v Hpay Hin) as Hent.
  rewrite updateField_unfold.
  destruct (js_gt t (lastUpdated r f)) eqn:C.
  - destruct Hent as [Hv Hts].
    unfold lastUpdated at 1. rewrite Hts. simpl.
    destruct (Z.eqb_spec t 0) as [->|Hne]; simpl.
    + destruct (updateRecord r 0 u) as [o|] eqn:Er; [|discriminate Hv].
      simpl in Hv, Hts, Hupd. unfold overwrite. simpl. rewrite Hupd. simpl.
      assert (Em : math_max 0 (if negb (Z.eqb (Z.max 0 (updatedAtOr0 r)) 0)
                               then JNum (Z.max 0 (updatedAtOr0 r)) else JNum 0)
                   = JNum (Z.max 0 (updatedAtOr0 r))).
      { destruct (Z.eqb_spec (Z.max 0 (updatedAtOr0 r)) 0) as [E|E]; simpl.
        - now rewrite E.
        - f_equal. lia. }
      rewrite Em. f_equal.
      rewrite (insert_id o f v Hv), (insert_id o _ _ Hts). now apply insert_id.
    + now rewrite Z.ltb_irrefl.
  - destruct Hent as [_ Hts]. now rewrite (lastUpdated_ext _ _ _ Hts), C.
Qed.

Lemma updateRecord_idempotent_witness :
  let r : Record :=
    Some (<["updated_at" := JNum 10]>
          (<["name_updated_at" := JNum 10]> (<["name" := JData "alice"]> ∅))) in
  let u := [("name", JData "bob"); ("about", JData "hi")] in
  payloadUpdates u /\ numericUpdatedAt r /\
  updateRecord (updateRecord r 12 u) 12 u = updateRecord r 12 u.
Proof.
  intros r u.
  assert (H1 : payloadUpdates u) by payload_ok.
  assert (H2 : numericUpdatedAt r) by exact I.
  split; [exact H1 | split; [exact H2 |]].
  exact (updateRecord_idempotent r 12 u H1 H2).
Defined.

(** C8 as stated fails: an update that names the stamp key of another
    of its fields is re-applied by the second pass, which leaves another
    record than the first. *)
Lemma updateRecord_bookkeeping_clash :
  let u := [("a", JData "x"); ("a_updated_at", JNum (-7))] in
  rget (updateRecord None 5 u) "a_updated_at" = Some (JNum (-7)) /\
  rget (updateRecord (updateRecord None 5 u) 5 u) "a_updated_at" = Some (JNum 5) /\
  updateRecord (updateRecord None 5 u) 5 u <> updateRecord None 5 u.
Proof.
  intros u.
  assert (H1 : rget (updateRecord None 5 u) "a_updated_at" = Some (JNum (-7))) by reflexivity.
  assert (H2 : rget (updateRecord (updateRecord None 5 u) 5 u) "a_updated_at"
               = Some (JNum 5)) by reflexivity.
  split; [exact H1 | split; [exact H2 |]].
  intros E. rewrite E, H1 in H2. discriminate H2.
Qed.

(** So does a record whose [updated_at] is not a number, at the
    timestamp 0: the first pass leaves NaN there, the second pass reads it
    as 0. *)
Example updateRecord_updated_at_clash :
  let r : Record := Some {["updated_at" := JData "soon"]} in
  let u := [("a", JData "x")] in
  rget (updateRecord r 0 u) "updated_at" = Some JNaN /\
  rget (updateRecord (updateRecord r 0 u) 0 u) "updated_at" = Some (JNum 0).
Proof. split; reflexivity. Qed.

Example updateRecord_fresh :
  updateRecord None 5 [("a", JData "x")]
  = Some (<["updated_at" := JNum 5]> (<["a_updated_at" := JNum 5]> (<["a" := JData "x"]> ∅))).
Proof. reflexivity. Qed.

End MergeFacts.

Module LoaderFacts.
Import Loader.

Lemma setAdd_In result q p : In p (setAdd result q) <-> In p result \/ p = q.
Proof.
  unfold setAdd. destruct (existsb (String.eqb q) result) eqn:E.
  - split; [tauto|]. intros [H| ->]; [exact H|].
    apply existsb_exists in E as (x & Hx & Ex).
    apply String.eqb_eq in Ex. now subst.
  - rewrite in_app_iff. simpl. intuition congruence.
Qed.

Lemma staleStep_eq env key delta att res q :
  staleStep env key delta (att, res) q =
  if isStale env key delta att q
  then (<[q := inc (att !! q)]> att, setAdd res q)
  else (att, res).
Proof.
  unfold staleStep, isStale. destruct (matchesPubkeyPattern q); reflexivity.
Qed.

Lemma isStale_ext env key delta att att' p :
  att' !! p = att !! p -> isStale env key delta att' p = isStale env key delta att p.
Proof. unfold isStale. now intros ->. Qed.

Lemma inc_attemptCount (att : gmap string Z) p : inc (att !! p) = 1 + attemptCount att p.
Proof. unfold inc, attemptCount. destruct (att !! p); lia. Qed.

Lemma wellFormed_matches p : wellFormedIdentity p = true -> matchesPubkeyPattern p = true.
Proof.
  unfold wellFormedIdentity, matchesPubkeyPattern.
  intros H. apply andb_true_iff in H as [-> H]. simpl.
  induction p as [|c p IH]; [reflexivity|]. simpl in *.
  apply andb_true_iff in H as [Hc H]. rewrite (IH H), andb_true_r.
  revert Hc. clear. destruct c as [[] [] [] [] [] [] [] []]; vm_compute; congruence.
Qed.

(** Membership in the result of the loop, started from any state. *)
Lemma stale_fold_In env key delta p : forall raw att res,
  In p (snd (fold_left (staleStep env key delta) raw (att, res))) <->
  In p res \/ (In p raw /\ isStale env key delta att p = true).
Proof.
  induction raw as [|q raw IH]; intros att res; cbn [fold_left]; [simpl; tauto|].
  rewrite staleStep_eq. destruct (isStale env key delta att q) eqn:Eq.
  - rewrite IH, setAdd_In. destruct (decide (q = p)) as [->|Hne].
    + cbn [In]. tauto.
    + rewrite (isStale_ext env key delta att) by now apply lookup_insert_ne.
      cbn [In]. intuition congruence.
  - rewrite IH. cbn [In]. intuition congruence.
Qed.

Lemma stale_fold_attempts_same env key delta p : forall raw att res,
  ~ (In p raw /\ isStale env key delta att p = true) ->
  fst (fold_left (staleStep env key delta) raw (att, res)) !! p = att !! p.
Proof.
  induction raw as [|q raw IH]; intros att res Hn; cbn [fold_left]; [reflexivity|].
  rewrite staleStep_eq. destruct (isStale env key delta att q) eqn:Eq.
  - assert (Hne : q <> p) by (intros ->; apply Hn; split; [now left | exact Eq]).
    rewrite IH.
    + now apply lookup_insert_ne.
    + rewrite (isStale_ext env key delta att) by now apply lookup_insert_ne.
      intros [H1 H2]. apply Hn. split; [now right | exact H2].
  - apply IH. intros [H1 H2]. apply Hn. split; [now right | exact H2].
Qed.

Lemma stale_fold_attempts_inc env key delta p : forall raw att res,
  NoDup raw -> In p raw -> isStale env key delta att p = true ->
  fst (fold_left (staleStep env key delta) raw (att, res)) !! p = Some (inc (att !! p)).
Proof.
  induction raw as [|q raw IH]; intros att res Hnd Hin Hst; [contradiction|].
  apply NoDup_cons in Hnd as [Hq Hnd]. cbn [fold_left]. rewrite staleStep_eq.
  destruct (decide (q = p)) as [->|Hne].
  - rewrite Hst. rewrite stale_fold_attempts_same.
    + apply lookup_insert_eq.
    + intros [H _]. apply Hq. now apply list_elem_of_In.
  - destruct Hin as [E|Hin]; [congruence|].
    destruct (isStale env key delta att q).
    + rewrite IH; auto.
      * now rewrite lookup_insert_ne.
      * rewrite (isStale_ext env key delta att); [exact Hst | now apply lookup_insert_ne].
    + now apply IH.
Qed.

Lemma isStale_wellFormed env key delta att p :
  wellFormedIdentity p = true ->
  isStale env key delta att p = true <->
  delta * (1 + attemptCount att p) < now env - getFreshness env key p.
Proof.
  intros Hwf. unfold isStale. rewrite (wellFormed_matches p Hwf), inc_attemptCount. simpl.
  rewrite Z.ltb_lt. lia.
Qed.

Lemma getStalePubkeys_In env attempts pubkeys key delta p :
  In p (snd (getStalePubkeys env attempts pubkeys key delta)) <->
  In p pubkeys /\ isStale env key delta attempts p = true.
Proof. unfold getStalePubkeys. rewrite stale_fold_In. simpl. tauto. Qed.

(** C4, as amended.  For every call and every well-formed identity: the
    effective delta is [delta * (1 + attemptCount)], with the attempt
    count read before the call; the identity is included exactly when it
    is among the candidates and [now - freshness] is strictly greater
    than the effective delta; its attempt count changes only when it is
    included, and is then incremented (by one when the candidates are
    pairwise distinct); with [delta = 300] and three attempts recorded,
    inclusion requires a gap of more than 1200. *)
Theorem getStalePubkeys_backoff (env : Env) (attempts : gmap string Z)
    (pubkeys : list string) (key : string) (delta : Z) (p : string) :
  wellFormedIdentity p = true ->
  let out := getStalePubkeys env attempts pubkeys key delta in
  (In p (snd out) <->
     In p pubkeys /\
     delta * (1 + attemptCount attempts p) < now env - getFreshness env key p) /\
  (~ In p (snd out) -> fst out !! p = attempts !! p) /\
  (In p (snd out) -> NoDup pubkeys ->
     fst out !! p = Some (1 + attemptCount attempts p)) /\
  (delta = 300 -> attemptCount attempts p = 3 -> In p (snd out) ->
     1200 < now env - getFreshness env key p).
Proof.
  intros Hwf out.
  assert (Hin : In p (snd out) <->
                In p pubkeys /\ isStale env key delta attempts p = true)
    by apply getStalePubkeys_In.
  split; [|split; [|split]].
  - rewrite Hin. now rewrite isStale_wellFormed.
  - intros Hn. apply stale_fold_attempts_same. now rewrite <- Hin.
  - intros H Hnd. apply Hin in H as [H1 H2].
    rewrite <- inc_attemptCount. now apply stale_fold_attempts_inc.
  - intros -> Ha H. apply Hin in H as [_ H].
    apply isStale_wellFormed in H; [|exact Hwf]. lia.
Qed.

Lemma getStalePubkeys_backoff_witness :
  let out := getStalePubkeys (envAt 1000 0) ∅ [aliceKey] "pubkey/profile" 300 in
  wellFormedIdentity aliceKey = true /\
  (In aliceKey (snd out) <->
     In aliceKey [aliceKey] /\
     300 * (1 + attemptCount ∅ aliceKey) < now (envAt 1000 0) - getFreshness (envAt 1000 0) "pubkey/profile" aliceKey).
Proof.
  intros out.
  assert (H : wellFormedIdentity aliceKey = true) by (vm_compute; reflexivity).
  split; [exact H|].
  exact (proj1 (getStalePubkeys_backoff (envAt 1000 0) ∅ [aliceKey] "pubkey/profile" 300 aliceKey H)).
Defined.

(** C4 as stated fails at the boundary: with [now - freshness] equal to
    the effective delta the identity is not included, the comparison of
    the loop being strict. *)
Lemma getStalePubkeys_boundary_counterexample :
  let env := envAt 300 0 in
  wellFormedIdentity aliceKey = true /\
  now env - getFreshness env "pubkey/profile" aliceKey >= 300 * (1 + attemptCount ∅ aliceKey) /\
  ~ In aliceKey (snd (getStalePubkeys env ∅ [aliceKey] "pubkey/profile" 300)).
Proof.
  intros env. split; [vm_compute; reflexivity|]. split.
  - vm_compute. discriminate.
  - vm_compute. tauto.
Qed.

(** Three cycles that each select the identity leave three attempts. *)
Example three_stale_cycles :
  let env := envAt 100000 0 in
  let a1 := fst (getStalePubkeys env ∅ [aliceKey] "pubkey/profile" 300) in
  let a2 := fst (getStalePubkeys env a1 [aliceKey] "pubkey/profile" 300) in
  let a3 := fst (getStalePubkeys env a2 [aliceKey] "pubkey/profile" 300) in
  attemptCount a3 aliceKey = 3.
Proof. vm_compute. reflexivity. Qed.

(** C5, as amended.  An identity that fails the format check of the loop
    is never included, whatever the timestamps, the attempt counts and the
    [force] option; and for a well-formed identity [force] does not skip
    the freshness comparison but runs it with a base delta of 5 seconds
    instead of 300: the identity is included exactly when it is among the
    candidates and [now - freshness] is strictly greater than
    [5 * (1 + attemptCount)]. *)
Theorem loadPubkeyData_stale_selection (env : Env) (attempts : gmap string Z)
    (rawPubkeys : list string) (key : string) (p : string) :
  (forall force, matchesPubkeyPattern p = false ->
     ~ In p (snd (getStalePubkeys env attempts rawPubkeys key (loadDelta force)))) /\
  (wellFormedIdentity p = true ->
     (In p (snd (getStalePubkeys env attempts rawPubkeys key (loadDelta true))) <->
        In p rawPubkeys /\
        5 * (1 + attemptCount attempts p) < now env - getFreshness env key p) /\
     (In p (snd (getStalePubkeys env attempts rawPubkeys key (loadDelta false))) <->
        In p rawPubkeys /\
        300 * (1 + attemptCount attempts p) < now env - getFreshness env key p)).
Proof.
  split.
  - intros force Hbad Hin. apply getStalePubkeys_In in Hin as [_ Hst].
    unfold isStale in Hst. rewrite Hbad in Hst. discriminate Hst.
  - intros Hwf. split.
    + rewrite getStalePubkeys_In. change (loadDelta true) with 5.
      now rewrite isStale_wellFormed.
    + rewrite getStalePubkeys_In. change (loadDelta false) with 300.
      now rewrite isStale_wellFormed.
Qed.

Lemma loadPubkeyData_stale_selection_witness :
  let env := envAt 1000 0 in
  matchesPubkeyPattern "abc" = false /\
  ~ In "abc" (snd (getStalePubkeys env ∅ ["abc"; aliceKey] "pubkey/user" (loadDelta true))) /\
  wellFormedIdentity aliceKey = true /\
  (In aliceKey (snd (getStalePubkeys env ∅ ["abc"; aliceKey] "pubkey/user" (loadDelta true))) <->
     In aliceKey ["abc"; aliceKey] /\
     5 * (1 + attemptCount ∅ aliceKey) < now env - getFreshness env "pubkey/user" aliceKey).
Proof.
  intros env.
  assert (H1 : matchesPubkeyPattern "abc" = false) by reflexivity.
  assert (H2 : wellFormedIdentity aliceKey = true) by reflexivity.
  split; [exact H1 | split; [| split; [exact H2|]]].
  - exact (proj1 (loadPubkeyData_stale_selection env ∅ ["abc"; aliceKey] "pubkey/user" "abc")
             true H1).
  - exact (proj1 (proj2 (loadPubkeyData_stale_selection env ∅ ["abc"; aliceKey]
                           "pubkey/user" aliceKey) H2)).
Defined.

(** C5 as stated fails for [force]: a well-formed identity confirmed
    fresh two seconds ago is not selected by a forced load, which issues
    no request. *)
Lemma loadPubkeyData_force_counterexample :
  let env := envAt 1002 1000 in
  wellFormedIdentity aliceKey = true /\
  ~ In aliceKey (snd (getStalePubkeys env ∅ [aliceKey] "pubkey/user" (loadDelta true))) /\
  snd (loadPubkeyData env demoHints ∅ "pubkey/user" [0; 3] [aliceKey] true) = [].
Proof.
  intros env. split; [reflexivity|]. split.
  - vm_compute. tauto.
  - vm_compute. reflexivity.
Qed.

(** The pattern of the loop accepts every character from "0" to "f",
    among them the upper-case letters. *)
Example shouted_identity_selected :
  wellFormedIdentity shoutedKey = false /\
  matchesPubkeyPattern shoutedKey = true /\
  snd (getStalePubkeys (envAt 1000 0) ∅ [shoutedKey] "pubkey/profile" 300) = [shoutedKey].
Proof. vm_compute. repeat split. Qed.

End LoaderFacts.

Module HurdakFacts.
Import Hurdak.

Lemma chunkFrom_spec {A : Type} (n : nat) : forall (xs current : list A),
  (1 <= n)%nat -> (List.length current <= n)%nat ->
  Forall (fun c => (List.length c <= n)%nat) (chunkFrom n current xs) /\
  concat (chunkFrom n current xs) = current ++ xs.
Proof.
  induction xs as [|x xs IH]; intros current Hn Hc; simpl.
  - destruct current; simpl; [split; [constructor | reflexivity]|].
    split; [repeat constructor; exact Hc | now rewrite !app_nil_r].
  - destruct (Nat.ltb_spec (List.length current) n) as [Hlt|Hge].
    + destruct (IH (current ++ [x]) Hn) as [H1 H2].
      { rewrite length_app. simpl. lia. }
      split; [exact H1|]. rewrite H2, <- app_assoc. reflexivity.
    + destruct (IH [x] Hn) as [H1 H2]; [simpl; lia|].
      split; [constructor; assumption|]. simpl. now rewrite H2.
Qed.

Lemma chunk_spec {A : Type} (n : nat) (xs : list A) :
  (1 <= n)%nat ->
  Forall (fun c => (List.length c <= n)%nat) (chunk n xs) /\ concat (chunk n xs) = xs.
Proof.
  intros Hn. unfold chunk. apply (chunkFrom_spec n xs []); [exact Hn | simpl; lia].
Qed.

End HurdakFacts.

Module EngineFacts.
Import Js Hurdak Engine.

Example zero_groups :
  fst (publishToZeroOrMoreGroups (demoWorld true true memberOfG1 []) [] note false emptyState)
  = inr ([SignedEvent (demoSign note false)],
         [{| request := {| pc_event := demoSign note false;
                           pc_relays := ["wss://write.example"] |} |}]).
Proof. vm_compute. reflexivity. Qed.

(** *** Encryption layering *)


(** *** The public and the private publisher *)

Lemma checkPublic_fails addresses st :
  (exists a, In a addresses /\ String.prefix "34550:" a = false) ->
  exists a, forEach addresses checkPublic st = (inl (InvalidPublicAddress a), st).
Proof.
  induction addresses as [|b addresses IH]; intros (a & Hin & Ha); [contradiction|].
  cbn [forEach]. unfold bindM, checkPublic at 1.
  destruct (String.prefix "34550:" b) eqn:Hb; simpl.
  - destruct Hin as [->|Hin]; [congruence|].
    destruct IH as (a' & Ea'); [exists a; tauto|]. exists a'. exact Ea'.
  - exists b. reflexivity.
Qed.

(** A public publish that fails its validation has made no call. *)
Lemma publishToGroupsPublicly_fails w addresses template anonymous st :
  (exists a, In a addresses /\ String.prefix "34550:" a = false) ->
  exists a, publishToGroupsPublicly w addresses template anonymous st
            = (inl (InvalidPublicAddress a), st).
Proof.
  intros H. destruct (checkPublic_fails addresses st H) as (a & Ea).
  exists a. unfold publishToGroupsPublicly, bindM. now rewrite Ea.
Qed.

Lemma length_pos_ltb {A : Type} (l : list A) : l <> [] -> Nat.ltb 0 (List.length l) = true.
Proof. destruct l; [congruence | reflexivity]. Qed.

Lemma length_nonzero_eqb {A : Type} (l : list A) : l <> [] -> Nat.eqb (List.length l) 0 = false.
Proof. destruct l; [congruence | reflexivity]. Qed.

(** C1, as amended.  For a call with a non-empty address list: the
    private branch runs first, and when it raises, the call raises the
    same error in the same state, the public branch not being run; a
    public branch with an address that lacks the prefix "34550:" raises
    before any call to [publish] of that branch; and when that happens
    after the private branch has returned, the call raises in the state
    the private branch left (its envelopes are out), or in the initial
    state when there was no private address. *)
Theorem publishToZeroOrMoreGroups_branch_failure (w : World) (addresses : list string)
    (template : Template) (anonymous : bool) (st : State) :
  addresses <> [] ->
  let wrapL := List.filter isPrivateAddress addresses in
  let nowrap := List.filter (fun a => negb (isPrivateAddress a)) addresses in
  (forall e st1, wrapL <> [] ->
     publishToGroupsPrivately w wrapL template anonymous st = (inl e, st1) ->
     publishToZeroOrMoreGroups w addresses template anonymous st = (inl e, st1)) /\
  (forall st1, (exists a, In a nowrap /\ String.prefix "34550:" a = false) ->
     exists a, publishToGroupsPublicly w nowrap template anonymous st1
               = (inl (InvalidPublicAddress a), st1)) /\
  (forall r st1, wrapL <> [] ->
     publishToGroupsPrivately w wrapL template anonymous st = (inr r, st1) ->
     (exists a, In a nowrap /\ String.prefix "34550:" a = false) ->
     exists a, publishToZeroOrMoreGroups w addresses template anonymous st
               = (inl (InvalidPublicAddress a), st1)) /\
  (wrapL = [] ->
     (exists a, In a nowrap /\ String.prefix "34550:" a = false) ->
     exists a, publishToZeroOrMoreGroups w addresses template anonymous st
               = (inl (InvalidPublicAddress a), st)).
Proof.
  intros Hne wrapL nowrap.
  assert (Hunf : publishToZeroOrMoreGroups w addresses template anonymous st =
    bindM (if Nat.ltb 0 (List.length wrapL)
           then bindM (publishToGroupsPrivately w wrapL template anonymous)
                  (fun result => ret ([] ++ map WrappedRumor (fst result), [] ++ snd result))
           else ret ([], []))
      (fun acc =>
         if Nat.ltb 0 (List.length nowrap)
         then bindM (publishToGroupsPublicly w nowrap template anonymous)
                (fun pub => ret (fst acc ++ [SignedEvent (pc_event (request pub))],
                                 snd acc ++ [pub]))
         else ret acc) st).
  { unfold publishToZeroOrMoreGroups.
    rewrite (length_nonzero_eqb addresses Hne), partition_as_filter. reflexivity. }
  assert (Hnowrap : (exists a, In a nowrap /\ String.prefix "34550:" a = false) ->
                    Nat.ltb 0 (List.length nowrap) = true).
  { intros (a & Hin & _). apply length_pos_ltb. intros E. rewrite E in Hin. contradiction. }
  split; [|split; [|split]].
  - intros e st1 Hw Hfail. rewrite Hunf. unfold bindM at 1.
    rewrite (length_pos_ltb wrapL Hw). unfold bindM at 1. now rewrite Hfail.
  - intros st1. apply publishToGroupsPublicly_fails.
  - intros r st1 Hw Hok Hbad.
    destruct (publishToGroupsPublicly_fails w nowrap template anonymous st1 Hbad) as (a & Ea).
    exists a. rewrite Hunf. unfold bindM at 1.
    rewrite (length_pos_ltb wrapL Hw). unfold bindM at 1. rewrite Hok.
    unfold ret at 1. rewrite (Hnowrap Hbad). unfold bindM. now rewrite Ea.
  - intros Hw Hbad.
    destruct (publishToGroupsPublicly_fails w nowrap template anonymous st Hbad) as (a & Ea).
    exists a. rewrite Hunf. unfold bindM at 1. rewrite Hw. simpl.
    rewrite (Hnowrap Hbad). unfold bindM. now rewrite Ea.
Qed.

Lemma publishToZeroOrMoreGroups_branch_failure_witness :
  let w := demoWorld true true (fun _ => AccessNone) [] in
  let addresses := ["35834:admin:g1"; "34550:admin:c1"] in
  addresses <> [] /\
  publishToZeroOrMoreGroups w addresses note false emptyState = (inl NotGroupMember, emptyState).
Proof.
  intros w addresses.
  assert (H : addresses <> []) by discriminate.
  split; [exact H|].
  apply (proj1 (publishToZeroOrMoreGroups_branch_failure w addresses note false emptyState H)).
  - discriminate.
  - reflexivity.
Defined.

(** C1 as stated fails: the rejection of the private branch (here the
    user is not a member of the private group) ends the call, and the
    public branch, which would have published on its own, publishes
    nothing. *)
Lemma publishToZeroOrMoreGroups_isolation_counterexample :
  let w := demoWorld true true (fun _ => AccessNone) [] in
  publishToZeroOrMoreGroups w ["35834:admin:g1"; "34550:admin:c1"] note false emptyState
    = (inl NotGroupMember, emptyState) /\
  published emptyState = [] /\
  List.length (published (snd (publishToGroupsPublicly w ["34550:admin:c1"] note false emptyState)))
    = 1%nat.
Proof. intros w. repeat split. Qed.

(** C2 fails on the code: the checks sit inside the loop, after the
    envelopes of the preceding addresses have been published.  With the
    user a member of [g1] only, the envelope for [g1] is out when the
    call rejects on the second address, be it for the membership or for
    the prefix. *)
Theorem publishToGroupsPrivately_partial_dispatch :
  let w := demoWorld true true memberOfG1 [] in
  let envelope :=
    {| pc_event := wrap (demoWrap (addATags note ["35834:admin:g1"])
                           {| wo_author := None;
                              wo_wrap := {| wp_author := Some "sharedpriv";
                                            wp_recipient := "sharedpub";
                                            wp_tags := None; wp_kind := None;
                                            wp_algo := None |} |});
       pc_relays := ["wss://group.example"] |} in
  (let out := publishToGroupsPrivately w ["35834:admin:g1"; "35834:admin:g2"]
                note false emptyState in
   fst out = inl NotGroupMember /\ published (snd out) = [envelope]) /\
  (let out := publishToGroupsPrivately w ["35834:admin:g1"; "34550:admin:c1"]
                note false emptyState in
   fst out = inl (InvalidPrivateAddress "34550:admin:c1") /\
   published (snd out) = [envelope]).
Proof. intros w envelope. repeat split. Qed.

(** What does hold: a rejection on the first address comes before any
    call to [publish]. *)
Lemma publishToGroupsPrivately_head_rejected w address addresses template anonymous st :
  String.prefix "35834:" address = false \/ deriveIsGroupMember w address = false ->
  exists e, publishToGroupsPrivately w (address :: addresses) template anonymous st = (inl e, st).
Proof.
  intros H. unfold publishToGroupsPrivately. cbn [foldM]. unfold bindM, publishPrivatelyTo.
  destruct (String.prefix "35834:" address); simpl.
  - destruct H as [H|H]; [discriminate|]. rewrite H. simpl. eexists; reflexivity.
  - eexists; reflexivity.
Qed.

(** *** Read receipts *)

Lemma publishMarker_spec w ids st :
  exists call,
    publishMarker w ids st =
      (inr tt, {| published := published st ++ [call];
                  optimisticReadReceipts := optimisticReadReceipts st;
                  keysDrawn := if nip44Enabled w then S (keysDrawn st) else keysDrawn st |}) /\
    isMarkerCall w ids call.
Proof.
  unfold publishMarker, isMarkerCall, bindM, publish, generatePrivateKey, ret.
  destruct (nip44Enabled w); simpl; eexists; (split; [reflexivity|]); simpl; eauto.
Qed.

Lemma forEach_publishMarker w : forall chunks st,
  exists calls st',
    forEach chunks (publishMarker w) st = (inr tt, st') /\
    published st' = published st ++ calls /\
    optimisticReadReceipts st' = optimisticReadReceipts st /\
    Forall2 (isMarkerCall w) chunks calls.
Proof.
  induction chunks as [|ids chunks IH]; intros st.
  - exists [], st. simpl. rewrite app_nil_r. repeat split. constructor.
  - destruct (publishMarker_spec w ids st) as (call & E & Hcall).
    destruct (IH {| published := published st ++ [call];
                    optimisticReadReceipts := optimisticReadReceipts st;
                    keysDrawn := if nip44Enabled w then S (keysDrawn st) else keysDrawn st |})
      as (calls & st' & E' & Hp & Ho & Hall).
    exists (call :: calls), st'. cbn [forEach]. unfold bindM at 1. rewrite E, E'.
    simpl in Hp, Ho. rewrite Hp, <- app_assoc. repeat split; auto.
Qed.

(** C10.  With the signer disabled, or with no event passed, [markAsSeen]
    returns at once: the state (the calls to [publish], the optimistic
    read receipts, the keys drawn) is the one it started in. *)
Theorem markAsSeen_returns_early (w : World) (events : list Event) (st : State) :
  signerEnabled w = false \/ events = [] ->
  markAsSeen w events st = (inr tt, st).
Proof.
  intros [H| ->]; unfold markAsSeen.
  - now rewrite H.
  - now rewrite orb_true_r.
Qed.

Lemma markAsSeen_returns_early_witness :
  let w := demoWorld false true memberOfG1 ["7"; "8"] in
  let st := {| published := []; optimisticReadReceipts := ["7"]; keysDrawn := 3 |} in
  (signerEnabled w = false \/ receivedEvents 200 = []) /\
  markAsSeen w (receivedEvents 200) st = (inr tt, st).
Proof.
  intros w st.
  assert (H : signerEnabled w = false \/ receivedEvents 200 = []) by (left; reflexivity).
  split; [exact H|].
  exact (markAsSeen_returns_early w (receivedEvents 200) st H).
Defined.

Lemma markAsSeen_unfold w events st :
  signerEnabled w = true -> events <> [] ->
  markAsSeen w events st =
  let allIds := unpublishedReadReceipts w ++ map ev_id events in
  if Nat.ltb 100 (List.length allIds)
  then forEach (chunk 500 allIds) (publishMarker w)
         {| published := published st; optimisticReadReceipts := [];
            keysDrawn := keysDrawn st |}
  else setOptimisticReadReceipts allIds st.
Proof.
  intros Hs He. unfold markAsSeen.
  rewrite Hs, (length_nonzero_eqb events He). simpl orb. cbv iota. cbv zeta.
  destruct (Nat.ltb 100 _); [|reflexivity].
  unfold bindM at 1. unfold getOptimisticReadReceipts at 1. unfold bindM at 1.
  destruct st as [pubs opt keys]; simpl. destruct opt; reflexivity.
Qed.

(** C3, as amended.  With an enabled signer and at least one event
    passed, let [allIds] be the unpublished ids followed by the passed
    ones.  When there are at most 100 of them, nothing is published, no
    key is drawn and the optimistic read receipts become [allIds].  When
    there are more than 100, the ids are cut into chunks of at most 500
    that together are [allIds], one call to [publish] is made per chunk, in
    order, for the marker event of that chunk (kind 15, its first tag the
    expiration at [now + 7776000] seconds, that is 90 days), and the
    optimistic read receipts are empty afterwards. *)
Theorem markAsSeen_threshold (w : World) (events : list Event) (st : State) :
  signerEnabled w = true -> events <> [] ->
  let allIds := unpublishedReadReceipts w ++ map ev_id events in
  let out := markAsSeen w events st in
  fst out = inr tt /\
  ((List.length allIds <= 100)%nat ->
     published (snd out) = published st /\
     keysDrawn (snd out) = keysDrawn st /\
     optimisticReadReceipts (snd out) = allIds) /\
  ((100 < List.length allIds)%nat ->
     Forall (fun ids => (List.length ids <= 500)%nat) (chunk 500 allIds) /\
     concat (chunk 500 allIds) = allIds /\
     optimisticReadReceipts (snd out) = [] /\
     (exists calls,
        published (snd out) = published st ++ calls /\
        Forall2 (isMarkerCall w) (chunk 500 allIds) calls) /\
     (forall ids,
        kind (markerTemplate w ids) = 15 /\
        hd_error (tags (markerTemplate w ids))
          = Some ["expiration"; String_of_Z (w_now w + 7776000)])).
Proof.
  intros Hs He allIds out. unfold out.
  rewrite (markAsSeen_unfold w events st Hs He). cbv zeta. fold allIds.
  destruct (Nat.ltb_spec 100 (List.length allIds)) as [Hgt|Hle].
  - destruct (forEach_publishMarker w (chunk 500 allIds)
                {| published := published st; optimisticReadReceipts := [];
                   keysDrawn := keysDrawn st |})
      as (calls & st' & E & Hp & Ho & Hall).
    rewrite E. simpl in Hp, Ho. simpl. split; [reflexivity|]. split; [lia|]. intros _.
    destruct (HurdakFacts.chunk_spec 500 allIds) as [Hc1 Hc2]; [lia|].
    repeat split; auto.
    exists calls. split; [exact Hp | exact Hall].
  - simpl. split; [reflexivity|]. split; [|lia]. intros _. repeat split.
Qed.

Lemma markAsSeen_threshold_witness :
  let w := demoWorld true false memberOfG1 [] in
  let events := receivedEvents 150 in
  signerEnabled w = true /\ events <> [] /\
  fst (markAsSeen w events emptyState) = inr tt.
Proof.
  intros w events.
  assert (H1 : signerEnabled w = true) by reflexivity.
  assert (H2 : events <> []) by discriminate.
  split; [exact H1 | split; [exact H2|]].
  exact (proj1 (markAsSeen_threshold w events emptyState H1 H2)).
Defined.

(** C3 as stated fails at the threshold itself: with exactly 100 pending
    ids nothing is published and the ids are only recorded optimistically,
    the test of the code being [allIds.length > 100]. *)
Lemma markAsSeen_at_100_counterexample :
  let w := demoWorld true true memberOfG1 [] in
  let out := markAsSeen w (receivedEvents 100) emptyState in
  List.length (unpublishedReadReceipts w ++ map ev_id (receivedEvents 100)) = 100%nat /\
  published (snd out) = [] /\
  optimisticReadReceipts (snd out) = map ev_id (receivedEvents 100).
Proof. intros w out. vm_compute. repeat split. Qed.

(** The two figures of the specification: 50 pending ids publish nothing,
    150 pending ids publish one marker event. *)
Example markAsSeen_50_and_150 :
  let w := demoWorld true true memberOfG1 [] in
  published (snd (markAsSeen w (receivedEvents 50) emptyState)) = [] /\
  List.length (published (snd (markAsSeen w (receivedEvents 150) emptyState))) = 1%nat.
Proof. intros w. vm_compute. split; reflexivity. Qed.

End EngineFacts.

(** ** Further properties of the record merge and of the session store *)

Module MergeMore.
Import Js Merge MergeFacts Sessions.

Lemma updateRecord_unwritten t u : forall r,
  anyWritten t r u = false -> updateRecord r t u = r.
Proof.
  induction u as [|[f v] u IH]; intros r Hany; [reflexivity|].
  unfold anyWritten in Hany. simpl in Hany. apply orb_false_iff in Hany as [C Hany].
  rewrite updateRecord_cons, updateField_unfold, C. now apply IH.
Qed.

(** A merge none of whose entries passes the guard returns the record it
    was given, [undefined] included: this holds for every record and
    every list of entries. *)
Theorem updateRecord_stale_returns_record (r : Record) (t : Z) (u : list (string * JsVal)) :
  Forall (fun e => js_gt t (lastUpdated r (fst e)) = false) u ->
  updateRecord r t u = r.
Proof.
  intros H. apply updateRecord_unwritten. unfold anyWritten.
  induction H as [|e u He Hu IH]; [reflexivity|]. simpl. now rewrite He, IH.
Qed.

Lemma updateRecord_stale_returns_record_witness :
  let r : Record :=
    Some (<["updated_at" := JNum 10]>
          (<["access_updated_at" := JNum 10]> (<["access" := JData "granted"]> ∅))) in
  let u := [("access", JData "requested")] in
  Forall (fun e => js_gt 10 (lastUpdated r (fst e)) = false) u /\
  updateRecord r 10 u = r.
Proof.
  intros r u.
  assert (H : Forall (fun e => js_gt 10 (lastUpdated r (fst e)) = false) u)
    by (constructor; [reflexivity | constructor]).
  split; [exact H|]. exact (updateRecord_stale_returns_record r 10 u H).
Defined.

Lemma updateField_keeps_keys t r e k :
  is_Some (rget r k) -> is_Some (rget (updateField t r e) k).
Proof.
  destruct e as [f v]. rewrite updateField_unfold. intros H.
  destruct (js_gt _ _); [|exact H].
  rewrite rget_overwrite. repeat case_decide; eauto.
Qed.

(** The merge only adds or overwrites keys: it never removes one, it
    never turns an object into [undefined], and a key that is neither
    [updated_at], nor a field of the updates, nor the stamp key of one,
    keeps its value. *)
Theorem updateRecord_frame (r : Record) (t : Z) (u : list (string * JsVal)) :
  (forall k, is_Some (rget r k) -> is_Some (rget (updateRecord r t u) k)) /\
  (forall o, r = Some o -> exists o', updateRecord r t u = Some o') /\
  (forall k, k <> "updated_at" ->
     (forall e, In e u -> fst e <> k /\ tsField (fst e) <> k) ->
     rget (updateRecord r t u) k = rget r k).
Proof.
  split; [|split].
  - revert r. induction u as [|e u IH]; intros r k H; [exact H|].
    rewrite updateRecord_cons. apply IH. now apply updateField_keeps_keys.
  - revert r. induction u as [|[f v] u IH]; intros r o ->; [eauto|].
    rewrite updateRecord_cons, updateField_unfold.
    destruct (js_gt _ _); [unfold overwrite|]; eapply IH; reflexivity.
  - intros k Hk Hu. apply rget_updateRecord_other; [congruence|].
    apply List.Forall_forall. intros e He. destruct (Hu e He). tauto.
Qed.

(** *** Sessions *)

Lemma groupStatus_modify s address t u a :
  groupStatus (modifyGroupStatus s address t u) a =
  if decide (address = a) then updateRecord (groupStatus s address) t u
  else groupStatus s a.
Proof.
  unfold groupStatus, modifyGroupStatus, groupRecord; simpl.
  rewrite lookup_insert. case_decide; [subst|].
  - destruct (s_groups s); [reflexivity|]. now rewrite lookup_empty.
  - destruct (s_groups s); [reflexivity|]. now rewrite lookup_empty.
Qed.

(** [setGroupStatus] changes nothing when there is no session under the
    pubkey; otherwise it touches that session only, keeps its pubkey and
    method, replaces the status record of the address by its merge with
    the updates, and leaves the records of the other addresses alone. *)
Theorem setGroupStatus_effect (pubkey address : string) (t : Z)
    (u : list (string * JsVal)) (sessions : gmap string Session) :
  (sessions !! pubkey = None -> setGroupStatus pubkey address t u sessions = sessions) /\
  (forall k, k <> pubkey ->
     setGroupStatus pubkey address t u sessions !! k = sessions !! k) /\
  (forall s, sessions !! pubkey = Some s ->
     exists s', setGroupStatus pubkey address t u sessions !! pubkey = Some s' /\
       s_pubkey s' = s_pubkey s /\ s_method s' = s_method s /\
       groupStatus s' address = updateRecord (groupStatus s address) t u /\
       (forall a, a <> address -> groupStatus s' a = groupStatus s a)).
Proof.
  unfold setGroupStatus, updateSession. split; [|split].
  - now intros ->.
  - intros k Hk. destruct (sessions !! pubkey); [|reflexivity].
    now rewrite lookup_insert_ne.
  - intros s ->. eexists. split; [apply lookup_insert_eq|].
    split; [reflexivity|]. split; [reflexivity|]. split.
    + rewrite groupStatus_modify. now rewrite decide_True.
    + intros a Ha. rewrite groupStatus_modify. now rewrite decide_False.
Qed.

(** A status update that arrives late does not undo a newer one: when
    the stamp stored for a field of the group is not below the incoming
    timestamp (and is not zero), the value read for that field after
    [setGroupStatus] is the one read before. *)
Theorem setGroupStatus_late_update_ignored (pubkey address : string) (t : Z)
    (u : list (string * JsVal)) (sessions : gmap string Session)
    (s : Session) (f : string) (v : JsVal) (n : Z) :
  payloadUpdates u -> In (f, v) u ->
  sessions !! pubkey = Some s ->
  rget (groupStatus s address) (tsField f) = Some (JNum n) -> n <> 0 -> t <= n ->
  exists s', setGroupStatus pubkey address t u sessions !! pubkey = Some s' /\
    rget (groupStatus s' address) f = rget (groupStatus s address) f /\
    rget (groupStatus s' address) (tsField f) = Some (JNum n).
Proof.
  intros Hpay Hin Hs Hstamp Hn Hle.
  unfold setGroupStatus, updateSession. rewrite Hs.
  eexists. split; [apply lookup_insert_eq|].
  rewrite groupStatus_modify, decide_True by reflexivity.
  pose proof (updateRecord_entry t u (groupStatus s address) f v Hpay Hin) as Hent.
  assert (C : js_gt t (lastUpdated (groupStatus s address) f) = false).
  { unfold lastUpdated. rewrite Hstamp. simpl.
    destruct (Z.eqb_spec n 0); [contradiction|]. simpl. lia. }
  rewrite C in Hent. destruct Hent as [E1 E2]. now rewrite E1, E2.
Qed.

Lemma setGroupStatus_late_update_ignored_witness :
  let granted : Record :=
    Some (<["updated_at" := JNum 10]>
          (<["access_updated_at" := JNum 10]> (<["access" := JData "granted"]> ∅))) in
  let s := {| s_pubkey := "alice"; s_method := "extension";
              s_groups := Some {["35834:admin:g1" := granted]} |} in
  let sessions : gmap string Session := {["alice" := s]} in
  exists s', setGroupStatus "alice" "35834:admin:g1" 5 [("access", JData "requested")] sessions
               !! "alice" = Some s' /\
    rget (groupStatus s' "35834:admin:g1") "access" = Some (JData "granted").
Proof.
  intros granted s sessions.
  destruct (setGroupStatus_late_update_ignored "alice" "35834:admin:g1" 5
              [("access", JData "requested")] sessions s "access" (JData "requested") 10)
    as (s' & E & Hv & _).
  - payload_ok.
  - now left.
  - reflexivity.
  - reflexivity.
  - discriminate.
  - lia.
  - exists s'. split; [exact E|]. rewrite Hv. reflexivity.
Defined.

(** [setSession] and [updateSession] never create a session: under a key
    that holds none the store is returned as it is, and under a key that
    holds one only that entry changes. *)
Theorem updateSession_never_creates (k : string) (f : Session -> Session)
    (data : Session) (sessions : gmap string Session) :
  dom (updateSession k f sessions) = dom sessions /\
  dom (setSession k data sessions) = dom sessions /\
  (sessions !! k = None ->
     updateSession k f sessions = sessions /\ setSession k data sessions = sessions) /\
  (forall s, sessions !! k = Some s ->
     updateSession k f sessions !! k = Some (f s) /\
     setSession k data sessions !! k = Some data).
Proof.
  unfold updateSession, setSession.
  destruct (sessions !! k) as [s|] eqn:E.
  - split; [apply dom_insert_lookup_L; eauto|].
    split; [apply dom_insert_lookup_L; eauto|].
    split; [intros H; discriminate H|].
    intros s1 [= <-]. split; apply lookup_insert_eq.
  - split; [reflexivity|]. split; [reflexivity|].
    split; [intros _; split; reflexivity|]. intros s1 H. discriminate H.
Qed.

(** [logoutPubkey] refuses the pubkey of the current session and leaves
    the store as it is; for any other pubkey it removes exactly that
    session, so the current one is still there afterwards. *)
Theorem logoutPubkey_keeps_current (current : Session) (pubkey : string)
    (sessions : gmap string Session) :
  sessions !! s_pubkey current = Some current ->
  (pubkey = s_pubkey current ->
     logoutPubkey (Some current) pubkey sessions = inl CannotDestroyCurrent) /\
  (pubkey <> s_pubkey current ->
     exists sessions',
       logoutPubkey (Some current) pubkey sessions = inr sessions' /\
       sessions' !! pubkey = None /\
       sessions' !! s_pubkey current = Some current /\
       (forall k, k <> pubkey -> sessions' !! k = sessions !! k)).
Proof.
  intros Hcur. unfold logoutPubkey. split.
  - intros ->. now rewrite String.eqb_refl.
  - intros Hne. destruct (String.eqb_spec (s_pubkey current) pubkey) as [E|_]; [congruence|].
    eexists. split; [reflexivity|]. split; [apply lookup_delete_eq|]. split.
    + rewrite lookup_delete_ne by congruence. exact Hcur.
    + intros k Hk. now rewrite lookup_delete_ne by congruence.
Qed.

Lemma logoutPubkey_keeps_current_witness :
  let alice := {| s_pubkey := "alice"; s_method := "extension"; s_groups := None |} in
  let bob := {| s_pubkey := "bob"; s_method := "pubkey"; s_groups := None |} in
  let sessions : gmap string Session := <["bob" := bob]> {["alice" := alice]} in
  sessions !! s_pubkey alice = Some alice /\
  logoutPubkey (Some alice) "alice" sessions = inl CannotDestroyCurrent.
Proof.
  intros alice bob sessions.
  assert (H : sessions !! s_pubkey alice = Some alice) by reflexivity.
  split; [exact H|].
  exact (proj1 (logoutPubkey_keeps_current alice "alice" sessions H) eq_refl).
Defined.

End MergeMore.

(** ** Further properties of the pubkey loader *)

Module LoaderMore.
Import Hurdak Loader LoaderFacts.

Lemma setAdd_NoDup result q : NoDup result -> NoDup (setAdd result q).
Proof.
  intros H. unfold setAdd. destruct (existsb (String.eqb q) result) eqn:E; [exact H|].
  apply NoDup_app. split; [exact H|]. split; [|apply NoDup_singleton].
  intros x Hx Hq. apply list_elem_of_singleton in Hq. subst x.
  assert (existsb (String.eqb q) result = true); [|congruence].
  apply existsb_exists. exists q. split; [now apply list_elem_of_In | apply String.eqb_refl].
Qed.

Lemma stale_fold_NoDup env key delta : forall raw att res,
  NoDup res -> NoDup (snd (fold_left (staleStep env key delta) raw (att, res))).
Proof.
  induction raw as [|q raw IH]; intros att res H; cbn [fold_left]; [exact H|].
  rewrite staleStep_eq. destruct (isStale env key delta att q); apply IH; auto using setAdd_NoDup.
Qed.

Lemma attemptCount_insert (att : gmap string Z) q p :
  attemptCount (<[q := inc (att !! q)]> att) p =
  if decide (q = p) then attemptCount att p + 1 else attemptCount att p.
Proof.
  unfold attemptCount. rewrite lookup_insert. case_decide; [subst|reflexivity].
  rewrite inc_attemptCount. unfold attemptCount. lia.
Qed.

Lemma stale_fold_attempts_mono env key delta p : forall raw att res,
  attemptCount att p <= attemptCount (fst (fold_left (staleStep env key delta) raw (att, res))) p.
Proof.
  induction raw as [|q raw IH]; intros att res; cbn [fold_left]; [simpl; lia|].
  rewrite staleStep_eq. destruct (isStale env key delta att q); [|apply IH].
  etransitivity; [|apply IH]. rewrite attemptCount_insert. case_decide; lia.
Qed.

Lemma stale_fold_attempts_grow env key delta p : forall raw att res,
  In p raw -> isStale env key delta att p = true ->
  attemptCount att p + 1
  <= attemptCount (fst (fold_left (staleStep env key delta) raw (att, res))) p.
Proof.
  induction raw as [|q raw IH]; intros att res Hin Hst; [contradiction|].
  cbn [fold_left]. rewrite staleStep_eq. destruct (decide (q = p)) as [->|Hne].
  - rewrite Hst. etransitivity; [|apply stale_fold_attempts_mono].
    rewrite attemptCount_insert, decide_True by reflexivity. lia.
  - destruct Hin as [E|Hin]; [congruence|].
    destruct (isStale env key delta att q).
    + etransitivity; [|apply IH; auto].
      * rewrite attemptCount_insert, decide_False by assumption. lia.
      * rewrite (isStale_ext env key delta att); [exact Hst | now apply lookup_insert_ne].
    + now apply IH.
Qed.

Lemma isStale_spec env key delta att p :
  isStale env key delta att p = true <->
  matchesPubkeyPattern p = true /\
  delta * (1 + attemptCount att p) < now env - getFreshness env key p.
Proof.
  unfold isStale. rewrite andb_true_iff, Z.ltb_lt, inc_attemptCount. intuition lia.
Qed.

(** The result of [getStalePubkeys] has no repetition, and each of its
    members is one of the candidates, matches the pattern of the loop and
    passed the freshness comparison with the attempt count it had before
    the call. *)
Theorem getStalePubkeys_result_set (env : Env) (attempts : gmap string Z)
    (pubkeys : list string) (key : string) (delta : Z) :
  let result := snd (getStalePubkeys env attempts pubkeys key delta) in
  NoDup result /\
  (forall p, In p result ->
     In p pubkeys /\ matchesPubkeyPattern p = true /\
     delta * (1 + attemptCount attempts p) < now env - getFreshness env key p).
Proof.
  split.
  - apply stale_fold_NoDup. constructor.
  - intros p Hp. apply getStalePubkeys_In in Hp as [Hin Hst].
    apply isStale_spec in Hst. tauto.
Qed.

(** Attempt counts only grow: whatever the candidates, no identity ends
    a call of [getStalePubkeys] with a smaller count than it had, and an
    identity in the result ends it with a greater one. *)
Theorem getStalePubkeys_attempts_grow (env : Env) (attempts : gmap string Z)
    (pubkeys : list string) (key : string) (delta : Z) (p : string) :
  let out := getStalePubkeys env attempts pubkeys key delta in
  attemptCount attempts p <= attemptCount (fst out) p /\
  (In p (snd out) -> attemptCount attempts p + 1 <= attemptCount (fst out) p).
Proof.
  split.
  - apply stale_fold_attempts_mono.
  - intros Hp. apply getStalePubkeys_In in Hp as [Hin Hst].
    now apply stale_fold_attempts_grow.
Qed.

(** Backoff across calls.  With a non-negative delta, repeating a call
    with the attempts it left (same clock, same freshness store, same
    candidates) selects no identity that the first call did not select,
    and selects one of them again only when [now - freshness] exceeds the
    delta once more: [delta * (2 + attemptCount)], counted before the first
    call. *)
Theorem getStalePubkeys_repeated_call (env : Env) (attempts : gmap string Z)
    (pubkeys : list string) (key : string) (delta : Z) (p : string) :
  0 <= delta ->
  let first := getStalePubkeys env attempts pubkeys key delta in
  let second := getStalePubkeys env (fst first) pubkeys key delta in
  In p (snd second) ->
  In p (snd first) /\
  delta * (2 + attemptCount attempts p) < now env - getFreshness env key p.
Proof.
  intros Hd first second Hp.
  apply getStalePubkeys_In in Hp as [Hin Hst]. apply isStale_spec in Hst as [Hm Hlt].
  pose proof (stale_fold_attempts_mono env key delta p pubkeys attempts []) as Hmono.
  fold (getStalePubkeys env attempts pubkeys key delta) in Hmono. fold first in Hmono.
  assert (Hst0 : isStale env key delta attempts p = true).
  { apply isStale_spec. split; [exact Hm|].
    assert (delta * (1 + attemptCount attempts p) <= delta * (1 + attemptCount (fst first) p))
      by (apply Z.mul_le_mono_nonneg_l; lia).
    lia. }
  assert (Hfirst : In p (snd first)) by (apply getStalePubkeys_In; tauto).
  split; [exact Hfirst|].
  pose proof (stale_fold_attempts_grow env key delta p pubkeys attempts [] Hin Hst0) as Hgrow.
  fold (getStalePubkeys env attempts pubkeys key delta) in Hgrow. fold first in Hgrow.
  assert (delta * (2 + attemptCount attempts p) <= delta * (1 + attemptCount (fst first) p))
    by (apply Z.mul_le_mono_nonneg_l; lia).
  lia.
Qed.

Lemma getStalePubkeys_repeated_call_witness :
  let env := envAt 1000 0 in
  let first := getStalePubkeys env ∅ [aliceKey] "pubkey/profile" 300 in
  let second := getStalePubkeys env (fst first) [aliceKey] "pubkey/profile" 300 in
  0 <= 300 /\ In aliceKey (snd second) /\
  300 * (2 + attemptCount ∅ aliceKey) < now env - getFreshness env "pubkey/profile" aliceKey.
Proof.
  intros env first second.
  assert (H1 : 0 <= 300) by lia.
  assert (H2 : In aliceKey (snd second)) by (vm_compute; tauto).
  split; [exact H1 | split; [exact H2|]].
  exact (proj2 (getStalePubkeys_repeated_call env ∅ [aliceKey] "pubkey/profile" 300
                  aliceKey H1 H2)).
Defined.

(** *** [loadPubkeyData] *)

Lemma loadPubkeyData_unfold env hints attempts key kinds rawPubkeys force :
  loadPubkeyData env hints attempts key kinds rawPubkeys force =
  let stale := getStalePubkeys env attempts rawPubkeys key (loadDelta force) in
  (fst stale,
   if Nat.eqb (List.length (snd stale)) 0 then []
   else map (fun sel =>
               {| lr_skipCache := true;
                  lr_relays := withIndexers hints [fst sel];
                  lr_filters :=
                    map (fun f => {| f_kinds := f_kinds f; f_dtags := f_dtags f;
                                     f_authors := snd sel |})
                        (loadFilters hints kinds) |})
            (getSelections hints (snd stale))).
Proof.
  unfold loadPubkeyData, loadFilters.
  destruct (getStalePubkeys env attempts rawPubkeys key (loadDelta force)) as [a l]; simpl.
  now destruct (Nat.eqb (List.length l) 0).
Qed.

Lemma loadFilters_spec hints kinds :
  Forall (fun f => In APP_DATA (f_kinds f) -> f_dtags f = Some (appDataKeyValues hints))
         (loadFilters hints kinds) /\
  (forall k, (exists f, In f (loadFilters hints kinds) /\ In k (f_kinds f)) <-> In k kinds).
Proof.
  unfold loadFilters. destruct (existsb (Z.eqb APP_DATA) kinds) eqn:E.
  - apply existsb_exists in E as (x & Hx & Ex). apply Z.eqb_eq in Ex. subst x. split.
    + repeat constructor; simpl. intros Hin.
      apply list_elem_of_In, list_elem_of_filter in Hin as [Hne _].
      rewrite Z.eqb_refl in Hne. contradiction.
    + intros k. split.
      * intros (f & [<-|[<-|[]]] & Hk); simpl in Hk.
        -- destruct Hk as [<-|[]]. exact Hx.
        -- apply list_elem_of_In, list_elem_of_filter in Hk as [_ Hk].
           now apply list_elem_of_In.
      * intros Hk. destruct (Z.eqb_spec k APP_DATA) as [->|Hne].
        -- eexists. split; [left; reflexivity|]. now left.
        -- eexists. split; [right; left; reflexivity|]. simpl.
           apply list_elem_of_In, list_elem_of_filter. split.
           ++ apply Is_true_true. apply negb_true_iff. now apply Z.eqb_neq.
           ++ now apply list_elem_of_In.
  - split.
    + repeat constructor; simpl. intros Hin.
      assert (existsb (Z.eqb APP_DATA) kinds = true); [|congruence].
      apply existsb_exists. exists APP_DATA. split; [exact Hin | apply Z.eqb_refl].
    + intros k. split.
      * intros (f & [<-|[]] & Hk). exact Hk.
      * intros Hk. eexists. split; [left; reflexivity | exact Hk].
Qed.

(** [loadPubkeyData] issues no request when no identity is stale;
    otherwise it issues one request per relay selection, with the cache
    skipped, and every filter of a request is restricted to the authors of
    its selection.  In each request the filters together ask for exactly
    the given kinds, and a filter that asks for the app-data kind always
    carries the [#d] restriction to the application's own keys. *)
Theorem loadPubkeyData_requests (env : Env) (hints : Hints) (attempts : gmap string Z)
    (key : string) (kinds : list Z) (rawPubkeys : list string) (force : bool) :
  let stale := getStalePubkeys env attempts rawPubkeys key (loadDelta force) in
  let out := loadPubkeyData env hints attempts key kinds rawPubkeys force in
  fst out = fst stale /\
  (snd stale = [] -> snd out = []) /\
  (snd stale <> [] ->
     Forall2 (fun sel req =>
                lr_skipCache req = true /\
                lr_relays req = withIndexers hints [fst sel] /\
                Forall (fun f => f_authors f = snd sel) (lr_filters req))
             (getSelections hints (snd stale)) (snd out)) /\
  Forall (fun req =>
            Forall (fun f => In APP_DATA (f_kinds f) ->
                             f_dtags f = Some (appDataKeyValues hints))
                   (lr_filters req) /\
            (forall k, (exists f, In f (lr_filters req) /\ In k (f_kinds f)) <-> In k kinds))
         (snd out).
Proof.
  intros stale out. unfold out. rewrite loadPubkeyData_unfold. cbv zeta. fold stale.
  cbn [fst snd]. destruct (loadFilters_spec hints kinds) as [Hd Hk].
  split; [reflexivity|]. split; [now intros ->|]. split.
  - intros Hne. rewrite (EngineFacts.length_nonzero_eqb _ Hne).
    induction (getSelections hints (snd stale)) as [|sel sels IH]; constructor; [|exact IH].
    split; [reflexivity|]. split; [reflexivity|]. simpl.
    apply List.Forall_forall. intros f Hf. apply in_map_iff in Hf as (f0 & <- & _). reflexivity.
  - destruct (Nat.eqb (List.length (snd stale)) 0); [constructor|].
    apply List.Forall_forall. intros req Hreq.
    apply in_map_iff in Hreq as (sel & <- & _). simpl. split.
    + apply List.Forall_forall. intros f Hf. apply in_map_iff in Hf as (f0 & <- & Hf0). simpl.
      rewrite List.Forall_forall in Hd. now apply Hd.
    + intros k. rewrite <- Hk. split.
      * intros (f & Hf & Hin). apply in_map_iff in Hf as (f0 & <- & Hf0). simpl in Hin. eauto.
      * intros (f0 & Hf0 & Hin). eexists. split; [apply in_map_iff; eauto|]. exact Hin.
Qed.

End LoaderMore.

(** ** Further properties of the group publishers *)

Module EngineMore.
Import Js Hurdak Engine EngineFacts Envelopes.

Lemma checkPublic_all addresses st :
  (Forall (fun a => String.prefix "34550:" a = true) addresses /\
   forEach addresses checkPublic st = (inr tt, st)) \/
  (exists a, In a addresses /\ String.prefix "34550:" a = false /\
             forEach addresses checkPublic st = (inl (InvalidPublicAddress a), st)).
Proof.
  induction addresses as [|b addresses IH].
  - left. split; [constructor | reflexivity].
  - cbn [forEach]. unfold bindM, checkPublic at 1 3.
    destruct (String.prefix "34550:" b) eqn:Hb; simpl.
    + destruct IH as [[Hall E]|(a & Hin & Ha & E)].
      * left. split; [now constructor | exact E].
      * right. exists a. split; [now right|]. split; [exact Ha | exact E].
    + right. exists b. split; [now left|]. split; [exact Hb | reflexivity].
Qed.

(** [publishToGroupsPublicly] has two outcomes.  Either some address
    lacks the prefix "34550:", and the call raises for such an address
    with the state untouched; or every address has it, and the call
    publishes once: a single event, signed from the template extended
    with one [a] tag per address in their order, sent to the relays chosen
    for that event. *)
Theorem publishToGroupsPublicly_outcomes (w : World) (addresses : list string)
    (template : Template) (anonymous : bool) (st : State) :
  let event := sign w (addATags template addresses) anonymous in
  let call := {| pc_event := event;
                 pc_relays := forcePlatformRelays w (hintsPublishEvent w event) |} in
  tags (addATags template addresses) = tags template ++ map (fun a => ["a"; a]) addresses /\
  ((exists a, In a addresses /\ String.prefix "34550:" a = false /\
      publishToGroupsPublicly w addresses template anonymous st
        = (inl (InvalidPublicAddress a), st)) \/
   (Forall (fun a => String.prefix "34550:" a = true) addresses /\
    fst (publishToGroupsPublicly w addresses template anonymous st)
      = inr {| request := call |} /\
    published (snd (publishToGroupsPublicly w addresses template anonymous st))
      = published st ++ [call] /\
    keysDrawn (snd (publishToGroupsPublicly w addresses template anonymous st))
      = keysDrawn st)).
Proof.
  intros event call. split; [reflexivity|].
  unfold publishToGroupsPublicly, bindM.
  destruct (checkPublic_all addresses st) as [[Hall E]|(a & Hin & Ha & E)]; rewrite E.
  - right. split; [exact Hall|]. repeat split.
  - left. exists a. repeat split; assumption.
Qed.

(** *** The private publisher *)

Lemma wrapWithFallback_single w template author wp :
  wrapWithFallback w template author wp =
  [nip59wrap w template {| wo_author := author; wo_wrap := fallbackParams w wp |}].
Proof. unfold wrapWithFallback, fallbackParams. now destruct (nip44Enabled w). Qed.

(** What one successful turn of the loop adds. *)
Lemma publishPrivatelyTo_inr w template anonymous acc address st acc' st' :
  publishPrivatelyTo w template anonymous acc address st = (inr acc', st') ->
  exists rumor pub,
    acc' = (fst acc ++ [rumor], snd acc ++ [pub]) /\
    published st' = published st ++ [request pub] /\
    optimisticReadReceipts st' = optimisticReadReceipts st /\
    keysDrawn st' = (if anonymous then S (keysDrawn st) else keysDrawn st) /\
    privatelyPublishable w address /\
    isGroupEnvelope w template address rumor pub.
Proof.
  unfold publishPrivatelyTo, privatelyPublishable, isGroupEnvelope.
  destruct (String.prefix "35834:" address); cbn [negb]; [|unfold throw; discriminate].
  destruct (deriveIsGroupMember w address); cbn [negb]; [|unfold throw; discriminate].
  destruct anonymous; unfold bindM at 1; unfold generatePrivateKey, ret, bindM at 1;
    cbv beta iota zeta;
    (destruct (sharedKeyForGroup w address) as [key|] eqn:Hkey;
       [|unfold throw; discriminate]);
    rewrite wrapWithFallback_single; cbn [foldM]; unfold bindM, publish, ret;
    cbv beta iota; intros [= <- <-]; do 2 eexists; cbn [fst snd published
      optimisticReadReceipts keysDrawn request];
    (split; [reflexivity|]); repeat split; eauto;
    do 2 eexists; (split; [reflexivity|]); repeat split.
Qed.

Lemma publishPrivatelyTo_ok w template anonymous acc address st :
  privatelyPublishable w address ->
  exists acc' st', publishPrivatelyTo w template anonymous acc address st = (inr acc', st').
Proof.
  intros (Hp & Hm & [key Hk]). unfold publishPrivatelyTo.
  rewrite Hp, Hm, Hk. cbn [negb].
  destruct anonymous; unfold bindM at 1; unfold generatePrivateKey, ret, bindM at 1;
    cbv beta iota zeta; rewrite wrapWithFallback_single; cbn [foldM];
    unfold bindM, publish, ret; cbv beta iota; eauto.
Qed.

Lemma publishPrivately_fold_inr w template anonymous : forall addresses acc st acc' st',
  foldM (publishPrivatelyTo w template anonymous) addresses acc st = (inr acc', st') ->
  exists news : list (Rumor * Pub),
    acc' = (fst acc ++ map fst news, snd acc ++ map snd news) /\
    published st' = published st ++ map (fun rp => request (snd rp)) news /\
    optimisticReadReceipts st' = optimisticReadReceipts st /\
    keysDrawn st' = (if anonymous then keysDrawn st + List.length addresses
                     else keysDrawn st)%nat /\
    Forall (privatelyPublishable w) addresses /\
    Forall2 (fun a rp => isGroupEnvelope w template a (fst rp) (snd rp)) addresses news.
Proof.
  induction addresses as [|a addresses IH]; intros acc st acc' st' H.
  - injection H as <- <-. exists []. simpl. rewrite !app_nil_r.
    destruct acc. repeat split; auto. destruct anonymous; lia.
  - cbn [foldM] in H. unfold bindM at 1 in H.
    destruct (publishPrivatelyTo w template anonymous acc a st) as [[e|acc1] st1] eqn:E1;
      [discriminate|].
    apply publishPrivatelyTo_inr in E1
      as (rumor & pub & -> & Hp1 & Ho1 & Hk1 & Hok & Henv).
    apply IH in H as (news & -> & Hp & Ho & Hk & Hall & Hf2).
    exists ((rumor, pub) :: news). cbn [fst snd map].
    rewrite <- !app_assoc. split; [reflexivity|]. split.
    { rewrite Hp, Hp1, <- app_assoc. reflexivity. }
    split; [congruence|]. split.
    { rewrite Hk, Hk1. destruct anonymous; simpl; lia. }
    split; constructor; assumption.
Qed.

Lemma publishPrivately_fold_ok w template anonymous : forall addresses acc st,
  Forall (privatelyPublishable w) addresses ->
  exists acc' st',
    foldM (publishPrivatelyTo w template anonymous) addresses acc st = (inr acc', st').
Proof.
  induction addresses as [|a addresses IH]; intros acc st Hall.
  - do 2 eexists. reflexivity.
  - inversion Hall as [|? ? Ha Hrest]; subst.
    destruct (publishPrivatelyTo_ok w template anonymous acc a st Ha) as (acc1 & st1 & E1).
    destruct (IH acc1 st1 Hrest) as (acc' & st' & E).
    exists acc', st'. cbn [foldM]. unfold bindM at 1. now rewrite E1.
Qed.

Lemma publishToGroupsPrivately_inr w addresses template anonymous st events pubs st' :
  publishToGroupsPrivately w addresses template anonymous st = (inr (events, pubs), st') ->
  List.length events = List.length addresses /\
  List.length pubs = List.length addresses /\
  published st' = published st ++ map request pubs /\
  optimisticReadReceipts st' = optimisticReadReceipts st /\
  keysDrawn st' = (if anonymous then keysDrawn st + List.length addresses
                   else keysDrawn st)%nat /\
  Forall2 (fun a rp => isGroupEnvelope w template a (fst rp) (snd rp))
          addresses (combine events pubs).
Proof.
  unfold publishToGroupsPrivately. intros E.
  apply publishPrivately_fold_inr in E as (news & Hacc & Hp & Ho & Hk & Hall & Hf2).
  cbn [fst snd app] in Hacc. injection Hacc as -> ->.
  pose proof (Forall2_length _ _ _ Hf2) as Hlen.
  rewrite !length_map. repeat split; auto.
  - now rewrite map_map.
  - assert (Ec : combine (map fst news) (map snd news) = news).
    { clear. induction news as [|[r p] news IH]; simpl; [reflexivity | now rewrite IH]. }
    now rewrite Ec.
Qed.

(** [publishToGroupsPrivately] succeeds exactly on the lists all of
    whose addresses carry the prefix "35834:", are groups the user has
    access to and have a shared key.  It then returns one rumor and one
    pub per address, in the order of the addresses; the calls to [publish]
    it made are the requests of these pubs; each envelope is the wrap of
    the template tagged with its own address only, made with the shared
    key of that group; and a private key is drawn per address when the
    post is anonymous, none otherwise. *)
Theorem publishToGroupsPrivately_success (w : World) (addresses : list string)
    (template : Template) (anonymous : bool) (st : State) :
  (Forall (privatelyPublishable w) addresses <->
   exists result st',
     publishToGroupsPrivately w addresses template anonymous st = (inr result, st')) /\
  (forall events pubs st',
     publishToGroupsPrivately w addresses template anonymous st = (inr (events, pubs), st') ->
     List.length events = List.length addresses /\
     List.length pubs = List.length addresses /\
     published st' = published st ++ map request pubs /\
     optimisticReadReceipts st' = optimisticReadReceipts st /\
     keysDrawn st' = (if anonymous then keysDrawn st + List.length addresses
                      else keysDrawn st)%nat /\
     Forall2 (fun a rp => isGroupEnvelope w template a (fst rp) (snd rp))
             addresses (combine events pubs)).
Proof.
  split.
  - unfold publishToGroupsPrivately. split.
    + intros Hall. now apply publishPrivately_fold_ok.
    + intros (result & st' & E).
      now apply publishPrivately_fold_inr in E as (? & _ & _ & _ & _ & H & _).
  - apply publishToGroupsPrivately_inr.
Qed.

(** *** The entry point *)

Lemma publishToZeroOrMoreGroups_unfold w addresses template anonymous st :
  addresses <> [] ->
  publishToZeroOrMoreGroups w addresses template anonymous st =
  bindM (if Nat.ltb 0 (List.length (List.filter isPrivateAddress addresses))
         then bindM (publishToGroupsPrivately w (List.filter isPrivateAddress addresses)
                       template anonymous)
                (fun result => ret ([] ++ map WrappedRumor (fst result), [] ++ snd result))
         else ret ([], []))
    (fun acc =>
       if Nat.ltb 0 (List.length (List.filter (fun a => negb (isPrivateAddress a)) addresses))
       then bindM (publishToGroupsPublicly w
                     (List.filter (fun a => negb (isPrivateAddress a)) addresses)
                     template anonymous)
              (fun pub => ret (fst acc ++ [SignedEvent (pc_event (request pub))],
                               snd acc ++ [pub]))
       else ret acc) st.
Proof.
  intros Hne. unfold publishToZeroOrMoreGroups.
  rewrite (length_nonzero_eqb addresses Hne), partition_as_filter. reflexivity.
Qed.

Lemma publishToGroupsPublicly_inr w addresses template anonymous st pub st' :
  publishToGroupsPublicly w addresses template anonymous st = (inr pub, st') ->
  published st' = published st ++ [request pub] /\
  optimisticReadReceipts st' = optimisticReadReceipts st.
Proof.
  unfold publishToGroupsPublicly, bindM.
  destruct (checkPublic_all addresses st) as [[_ E]|(a & _ & _ & E)]; rewrite E;
    [|discriminate].
  unfold publish. intros [= <- <-]. split; reflexivity.
Qed.

(** Whenever [publishToZeroOrMoreGroups] returns, the pubs it returns
    are the calls to [publish] it made, in order, and it returns as many
    events as pubs: one signed event for the broadcast of an empty list,
    otherwise one rumor per private address followed by one signed event
    when there is a public address.  The read receipts are not touched. *)
Theorem publishToZeroOrMoreGroups_result (w : World) (addresses : list string)
    (template : Template) (anonymous : bool) (st : State)
    (events : list Produced) (pubs : list Pub) (st' : State) :
  publishToZeroOrMoreGroups w addresses template anonymous st = (inr (events, pubs), st') ->
  published st' = published st ++ map request pubs /\
  optimisticReadReceipts st' = optimisticReadReceipts st /\
  List.length events = List.length pubs /\
  List.length pubs =
    (List.length (List.filter isPrivateAddress addresses) +
     (if Nat.eqb (List.length addresses) 0 then 1
      else if Nat.ltb 0 (List.length (List.filter (fun a => negb (isPrivateAddress a)) addresses))
           then 1 else 0))%nat.
Proof.
  destruct addresses as [|a0 addresses'] eqn:Ea.
  - unfold publishToZeroOrMoreGroups, bindM, publish, ret. simpl.
    intros [= <- <- <-]. simpl. repeat split.
  - rewrite <- Ea. assert (Hne : addresses <> []) by (rewrite Ea; discriminate).
    rewrite (length_nonzero_eqb addresses Hne).
    rewrite (publishToZeroOrMoreGroups_unfold w addresses template anonymous st Hne).
    set (wrapL := List.filter isPrivateAddress addresses).
    set (nowrap := List.filter (fun a => negb (isPrivateAddress a)) addresses).
    unfold bindM at 1.
    assert (Hfirst : forall acc1 st1,
      (if Nat.ltb 0 (List.length wrapL)
       then bindM (publishToGroupsPrivately w wrapL template anonymous)
              (fun result => ret ([] ++ map WrappedRumor (fst result), [] ++ snd result))
       else ret ([], [])) st = (inr acc1, st1) ->
      published st1 = published st ++ map request (snd acc1) /\
      optimisticReadReceipts st1 = optimisticReadReceipts st /\
      List.length (fst acc1) = List.length (snd acc1) /\
      List.length (snd acc1) = List.length wrapL).
    { intros acc1 st1. destruct (Nat.ltb 0 (List.length wrapL)) eqn:Hw.
      - unfold bindM.
        destruct (publishToGroupsPrivately w wrapL template anonymous st)
          as [[e|[evs pbs]] st2] eqn:E; [discriminate|].
        unfold ret. intros [= <- <-].
        destruct (publishToGroupsPrivately_inr w wrapL template anonymous st evs pbs st2 E)
          as (H1 & H2 & H3 & H4 & _).
        cbn [fst snd app]. rewrite length_map. repeat split; auto; lia.
      - unfold ret. intros [= <- <-]. simpl. rewrite app_nil_r.
        apply Nat.ltb_ge in Hw. repeat split; lia. }
    destruct ((if Nat.ltb 0 (List.length wrapL)
               then bindM (publishToGroupsPrivately w wrapL template anonymous)
                      (fun result => ret ([] ++ map WrappedRumor (fst result), [] ++ snd result))
               else ret ([], [])) st) as [[e|acc1] st1] eqn:E1; [discriminate|].
    destruct (Hfirst acc1 st1 eq_refl) as (Hp1 & Ho1 & Hl1 & Hl2).
    destruct (Nat.ltb 0 (List.length nowrap)) eqn:Hn.
    + unfold bindM.
      destruct (publishToGroupsPublicly w nowrap template anonymous st1)
        as [[e|pub] st2] eqn:E2; [discriminate|].
      unfold ret. intros [= <- <- <-].
      apply publishToGroupsPublicly_inr in E2 as [Hp2 Ho2].
      rewrite Hp2, Hp1, map_app, !length_app, <- app_assoc. simpl.
      repeat split; auto; try congruence; lia.
    + unfold ret. intros [= -> <-]. cbn [fst snd] in *.
      repeat split; auto; lia.
Qed.

Lemma publishToZeroOrMoreGroups_result_witness :
  let w := demoWorld true true memberOfG1 [] in
  exists events pubs st',
    publishToZeroOrMoreGroups w ["35834:admin:g1"; "34550:admin:c1"] note false emptyState
      = (inr (events, pubs), st') /\
    published st' = published emptyState ++ map request pubs /\
    List.length events = 2%nat.
Proof.
  intros w.
  destruct (publishToZeroOrMoreGroups w ["35834:admin:g1"; "34550:admin:c1"] note false
              emptyState) as [[e|[events pubs]] st'] eqn:E.
  - exfalso. vm_compute in E. discriminate E.
  - exists events, pubs, st'. split; [reflexivity|].
    destruct (publishToZeroOrMoreGroups_result w ["35834:admin:g1"; "34550:admin:c1"] note
                false emptyState events pubs st' E) as (H1 & _ & H3 & H4).
    split; [exact H1|]. rewrite H3, H4. reflexivity.
Defined.

End EngineMore.

(** ** Properties of the group key functions *)

Module GroupFacts.
Import Js Hurdak Engine EngineFacts Envelopes Sessions Groups EngineMore.

Lemma afterCalls_nil st : afterCalls st [] 0 = st.
Proof. destruct st. unfold afterCalls. simpl. now rewrite app_nil_r, Nat.add_0_r. Qed.

Lemma afterCalls_afterCalls st c1 n1 c2 n2 :
  afterCalls (afterCalls st c1 n1) c2 n2 = afterCalls st (c1 ++ c2) (n1 + n2).
Proof. unfold afterCalls. simpl. now rewrite app_assoc, Nat.add_assoc. Qed.

Lemma publishRumors_wrapped w relays template author wp pubs st :
  publishRumors relays (wrapWithFallback w template author wp) pubs st =
  let call := {| pc_event := wrap (nip59wrap w template
                                     {| wo_author := author;
                                        wo_wrap := fallbackParams w wp |});
                 pc_relays := relays |} in
  (inr (pubs ++ [{| request := call |}]), afterCalls st [call] 0).
Proof.
  rewrite wrapWithFallback_single. unfold publishRumors, afterCalls. cbn [foldM].
  unfold bindM, publish, ret. simpl. now rewrite Nat.add_0_r.
Qed.

Lemma publishKeyShareTo_ok gw address template pubs pubkey st ak :
  adminKeyForGroup gw address = Some ak ->
  publishKeyShareTo gw address template pubs pubkey st =
  (inr (pubs ++ [{| request :=
                      {| pc_event := shareEnvelope (gw_world gw) template
                                       (Some (ak_privkey ak))
                                       (privateKeys (gw_world gw) (keysDrawn st)) pubkey None;
                         pc_relays := keyShareRelays gw pubkey address |} |}]),
   afterCalls st
     [{| pc_event := shareEnvelope (gw_world gw) template (Some (ak_privkey ak))
                       (privateKeys (gw_world gw) (keysDrawn st)) pubkey None;
         pc_relays := keyShareRelays gw pubkey address |}] 1).
Proof.
  intros Hak. unfold publishKeyShareTo. rewrite Hak.
  unfold bindM at 1. unfold generatePrivateKey at 1. cbv beta iota zeta.
  rewrite publishRumors_wrapped. cbv zeta. unfold afterCalls, shareEnvelope. simpl.
  now rewrite Nat.add_0_r, Nat.add_1_r.
Qed.

Lemma publishKeyShares_fold gw address template ak : forall pubkeys pubs st,
  adminKeyForGroup gw address = Some ak ->
  foldM (publishKeyShareTo gw address template) pubkeys pubs st =
  (inr (pubs ++ map (fun c => {| request := c |})
                  (shareCalls gw address template (Some (ak_privkey ak)) (keysDrawn st) pubkeys)),
   afterCalls st
     (shareCalls gw address template (Some (ak_privkey ak)) (keysDrawn st) pubkeys)
     (List.length pubkeys)).
Proof.
  induction pubkeys as [|pubkey pubkeys IH]; intros pubs st Hak.
  - simpl. unfold ret. now rewrite app_nil_r, afterCalls_nil.
  - cbn [foldM]. unfold bindM at 1. rewrite (publishKeyShareTo_ok _ _ _ _ _ _ ak Hak).
    rewrite IH by assumption. rewrite afterCalls_afterCalls.
    cbn [shareCalls map List.length keysDrawn afterCalls].
    rewrite <- app_assoc. simpl. now rewrite Nat.add_1_r.
Qed.

Lemma shareCalls_length gw address template author first pubkeys :
  List.length (shareCalls gw address template author first pubkeys) = List.length pubkeys.
Proof. revert first. induction pubkeys; intros first; simpl; [reflexivity | now rewrite IHpubkeys]. Qed.

Lemma shareCalls_recipients gw address template author : forall pubkeys first,
  Forall2 (fun pubkey call =>
             pc_relays call = keyShareRelays gw pubkey address /\
             exists key, pc_event call
                         = shareEnvelope (gw_world gw) template author key pubkey None)
          pubkeys (shareCalls gw address template author first pubkeys).
Proof.
  induction pubkeys as [|pubkey pubkeys IH]; intros first; simpl; constructor; eauto.
Qed.

(** [publishKeyShares] with the admin key of the group at hand sends one
    envelope per recipient, in order: the template wrapped for that
    recipient alone, authored with the admin key, by a key drawn for this
    envelope (the next one for the next recipient), to the relays chosen
    for that recipient.  Without the admin key it raises on the first
    recipient before anything is drawn or published, and returns no pub
    for an empty list. *)
Theorem publishKeyShares_one_per_recipient (gw : GroupWorld) (address : string)
    (pubkeys : list string) (template : Template) (st : State) :
  (forall ak, adminKeyForGroup gw address = Some ak ->
     let calls := shareCalls gw address template (Some (ak_privkey ak))
                    (keysDrawn st) pubkeys in
     publishKeyShares gw address pubkeys template st
       = (inr (map (fun c => {| request := c |}) calls),
          afterCalls st calls (List.length pubkeys)) /\
     List.length calls = List.length pubkeys /\
     Forall2 (fun pubkey call =>
                pc_relays call = keyShareRelays gw pubkey address /\
                exists key, pc_event call
                            = shareEnvelope (gw_world gw) template
                                (Some (ak_privkey ak)) key pubkey None)
             pubkeys calls) /\
  (adminKeyForGroup gw address = None ->
     publishKeyShares gw address pubkeys template st =
     match pubkeys with
     | [] => (inr [], st)
     | _ :: _ => (inl (TypeError "adminKey.privkey"), st)
     end).
Proof.
  split.
  - intros ak Hak calls. split; [|split].
    + unfold publishKeyShares. now rewrite (publishKeyShares_fold _ _ _ ak).
    + apply shareCalls_length.
    + apply shareCalls_recipients.
  - intros Hnone. unfold publishKeyShares. destruct pubkeys as [|pubkey pubkeys]; [reflexivity|].
    cbn [foldM]. unfold bindM, publishKeyShareTo. now rewrite Hnone.
Qed.

(** An invitation goes to the invited pubkeys and then to the admin's
    own pubkey, one envelope each, and its template carries the private
    key of the shared key of the group with the role "member"; an eviction
    goes to the evicted pubkeys only and its template holds the address and
    the client tags, no key. *)
Theorem invites_and_evictions (gw : GroupWorld) (address : string)
    (pubkeys : list string) (gracePeriod : Z) (st : State)
    (relays : list string) (sk : SharedKey) (ak : AdminKey) :
  groupRelays gw address = Some relays ->
  sharedKeyForGroup (gw_world gw) address = Some sk ->
  adminKeyForGroup gw address = Some ak ->
  (exists template calls,
     publishGroupInvites gw address pubkeys gracePeriod st
       = (inr (map (fun c => {| request := c |}) calls),
          afterCalls st calls (S (List.length pubkeys))) /\
     calls = shareCalls gw address template (Some (ak_privkey ak)) (keysDrawn st)
               (pubkeys ++ [ak_pubkey ak]) /\
     List.length calls = S (List.length pubkeys) /\
     kind template = 24 /\
     In ["privkey"; sk_privkey sk] (tags template) /\
     In ["role"; "member"] (tags template) /\
     In ["a"; address] (tags template)) /\
  (exists template calls,
     publishGroupEvictions gw address pubkeys st
       = (inr (map (fun c => {| request := c |}) calls),
          afterCalls st calls (List.length pubkeys)) /\
     calls = shareCalls gw address template (Some (ak_privkey ak)) (keysDrawn st) pubkeys /\
     kind template = 24 /\
     tags template = ["a"; address] :: clientTags gw).
Proof.
  intros Hr Hsk Hak. split.
  - do 2 eexists. unfold publishGroupInvites. rewrite Hr, Hsk, Hak.
    unfold publishKeyShares. rewrite (publishKeyShares_fold _ _ _ ak) by assumption.
    rewrite length_app, Nat.add_1_r. cbn [app]. split; [reflexivity|]. split; [reflexivity|].
    split; [rewrite shareCalls_length, length_app; simpl; lia|].
    split; [reflexivity|]. simpl. tauto.
  - do 2 eexists. unfold publishGroupEvictions, publishKeyShares.
    rewrite (publishKeyShares_fold _ _ _ ak) by assumption. cbn [app].
    repeat split.
Qed.

Lemma invites_and_evictions_witness :
  let gw := demoGroupWorld true in
  groupRelays gw "35834:admin:g1" = Some ["wss://group.example"] /\
  sharedKeyForGroup (gw_world gw) "35834:admin:g1" = demoSharedKey "35834:admin:g1" /\
  adminKeyForGroup gw "35834:admin:g1" = Some (demoAdminKey "35834:admin:g1") /\
  exists template calls,
    publishGroupEvictions gw "35834:admin:g1" ["bob"; "carol"] emptyState
      = (inr (map (fun c => {| request := c |}) calls), afterCalls emptyState calls 2) /\
    tags template = ["a"; "35834:admin:g1"] :: clientTags gw.
Proof.
  intros gw.
  assert (H1 : groupRelays gw "35834:admin:g1" = Some ["wss://group.example"]) by reflexivity.
  assert (H2 : sharedKeyForGroup (gw_world gw) "35834:admin:g1"
               = demoSharedKey "35834:admin:g1") by reflexivity.
  assert (H3 : adminKeyForGroup gw "35834:admin:g1" = Some (demoAdminKey "35834:admin:g1"))
    by reflexivity.
  split; [exact H1 | split; [exact H2 | split; [exact H3|]]].
  destruct (proj2 (invites_and_evictions gw "35834:admin:g1" ["bob"; "carol"] 0 emptyState
                     _ _ _ H1 H2 H3)) as (template & calls & E & _ & _ & Ht).
  exists template, calls. split; [exact E | exact Ht].
Defined.

Lemma invites_shape gw address pubkeys gracePeriod st relays sk ak :
  groupRelays gw address = Some relays ->
  sharedKeyForGroup (gw_world gw) address = Some sk ->
  adminKeyForGroup gw address = Some ak ->
  exists template,
    publishGroupInvites gw address pubkeys gracePeriod st
      = (inr (map (fun c => {| request := c |})
                (shareCalls gw address template (Some (ak_privkey ak)) (keysDrawn st)
                   (pubkeys ++ [ak_pubkey ak]))),
         afterCalls st
           (shareCalls gw address template (Some (ak_privkey ak)) (keysDrawn st)
              (pubkeys ++ [ak_pubkey ak]))
           (S (List.length pubkeys))) /\
    In ["privkey"; sk_privkey sk] (tags template).
Proof.
  intros Hr Hsk Hak. eexists. unfold publishGroupInvites. rewrite Hr, Hsk, Hak.
  unfold publishKeyShares. rewrite (publishKeyShares_fold _ _ _ ak) by assumption.
  rewrite length_app, Nat.add_1_r. cbn [app]. split; [reflexivity|]. simpl. tauto.
Qed.

Lemma admin_request_shape gw address template st me :
  sessionPubkey gw = Some me ->
  exists c1 c2,
    publishToGroupAdmin gw address template st = (inr tt, afterCalls st [c1; c2] 2) /\
    pc_relays c1 = forcePlatformRelays (gw_world gw) (hintsWithinContext (gw_world gw) address) /\
    pc_relays c2 = forcePlatformRelays (gw_world gw) (hintsWithinContext (gw_world gw) address).
Proof.
  intros Hme. do 2 eexists. split; [|split].
  - unfold publishToGroupAdmin. rewrite Hme. cbn [forEach].
    unfold bindM at 1. unfold bindM at 1. unfold generatePrivateKey at 1. cbv beta iota zeta.
    unfold bindM at 1. rewrite publishRumors_wrapped. cbv beta iota zeta.
    unfold ret at 1.
    unfold bindM at 1. unfold bindM at 1. unfold generatePrivateKey at 1. cbv beta iota zeta.
    unfold bindM at 1. rewrite publishRumors_wrapped. cbv beta iota zeta.
    unfold ret. unfold afterCalls. simpl.
    rewrite <- app_assoc, !Nat.add_0_r. simpl.
    replace (keysDrawn st + 2)%nat with (S (S (keysDrawn st))) by lia. reflexivity.
  - reflexivity.
  - reflexivity.
Qed.

(** The two calls of [publishToGroupAdmin]. *)
Lemma publishToGroupAdmin_calls gw address template st me :
  sessionPubkey gw = Some me ->
  publishToGroupAdmin gw address template st =
  (inr tt,
   afterCalls st
     [{| pc_event := shareEnvelope (gw_world gw) template None
                       (privateKeys (gw_world gw) (keysDrawn st)) (addressPubkey gw address)
                       (Some [["expiration"; String_of_Z (w_now (gw_world gw) + 2592000)]]);
         pc_relays := forcePlatformRelays (gw_world gw)
                        (hintsWithinContext (gw_world gw) address) |};
      {| pc_event := shareEnvelope (gw_world gw) template None
                       (privateKeys (gw_world gw) (S (keysDrawn st))) me
                       (Some [["expiration"; String_of_Z (w_now (gw_world gw) + 2592000)]]);
         pc_relays := forcePlatformRelays (gw_world gw)
                        (hintsWithinContext (gw_world gw) address) |}] 2).
Proof.
  intros Hme. unfold publishToGroupAdmin. rewrite Hme. cbn [forEach].
  unfold bindM at 1. unfold bindM at 1. unfold generatePrivateKey at 1. cbv beta iota zeta.
  unfold bindM at 1. rewrite publishRumors_wrapped. cbv beta iota zeta.
  unfold ret at 1.
  unfold bindM at 1. unfold bindM at 1. unfold generatePrivateKey at 1. cbv beta iota zeta.
  unfold bindM at 1. rewrite publishRumors_wrapped. cbv beta iota zeta.
  unfold ret. unfold afterCalls, shareEnvelope. simpl.
  rewrite <- app_assoc, !Nat.add_0_r. simpl.
  replace (keysDrawn st + 2)%nat with (S (S (keysDrawn st))) by lia. reflexivity.
Qed.

(** [publishToGroupAdmin] sends two envelopes to the relays of the
    group context, each made with a key of its own and carrying an
    expiration 30 days (2592000 seconds) ahead: the first for the pubkey of
    the address, the second for the user.  Without a session it raises
    before any call. *)
Theorem publishToGroupAdmin_two_envelopes (gw : GroupWorld) (address : string)
    (template : Template) (st : State) :
  let w := gw_world gw in
  let relays := forcePlatformRelays w (hintsWithinContext w address) in
  let expiration := Some [["expiration"; String_of_Z (w_now w + 2592000)]] in
  (forall me, sessionPubkey gw = Some me ->
     publishToGroupAdmin gw address template st =
     (inr tt,
      afterCalls st
        [{| pc_event := shareEnvelope w template None (privateKeys w (keysDrawn st))
                          (addressPubkey gw address) expiration;
            pc_relays := relays |};
         {| pc_event := shareEnvelope w template None (privateKeys w (S (keysDrawn st)))
                          me expiration;
            pc_relays := relays |}] 2)) /\
  (sessionPubkey gw = None ->
     publishToGroupAdmin gw address template st
       = (inl (TypeError "session.get().pubkey"), st)).
Proof.
  intros w relays expiration. split.
  - intros me Hme. unfold publishToGroupAdmin. rewrite Hme. cbn [forEach].
    unfold bindM at 1. unfold bindM at 1. unfold generatePrivateKey at 1. cbv beta iota zeta.
    unfold bindM at 1. rewrite publishRumors_wrapped. cbv beta iota zeta.
    unfold ret at 1.
    unfold bindM at 1. unfold bindM at 1. unfold generatePrivateKey at 1. cbv beta iota zeta.
    unfold bindM at 1. rewrite publishRumors_wrapped. cbv beta iota zeta.
    unfold ret. unfold afterCalls, shareEnvelope. simpl.
    rewrite <- app_assoc, !Nat.add_0_r. simpl.
    replace (keysDrawn st + 2)%nat with (S (S (keysDrawn st))) by lia. reflexivity.
  - intros Hnone. unfold publishToGroupAdmin. now rewrite Hnone.
Qed.

(** The metadata of a closed group goes out in one call either way,
    and how is decided by [listPublicly] alone: listed publicly, the event
    is signed with the admin key; otherwise the only thing published is the
    wrap made with the shared key of the group.  When the admin key is
    missing, or the shared key on the private path, the call raises and
    nothing is published. *)
Theorem publishGroupMeta_routing (gw : GroupWorld) (address id : string)
    (feeds : list Tag) (relays : list string) (meta : GroupMeta) (st : State) :
  let w := gw_world gw in
  let to := forcePlatformRelays w (hintsWithinContext w address) in
  let template := groupMetaTemplate gw id feeds relays meta in
  (forall ak, adminKeyForGroup gw address = Some ak ->
     (let call := {| pc_event := signWithKey gw template (ak_privkey ak);
                     pc_relays := to |} in
      publishGroupMeta gw address id feeds relays meta true st
        = (inr (inl {| request := call |}), afterCalls st [call] 0)) /\
     (forall sk, sharedKeyForGroup w address = Some sk ->
        let call := {| pc_event := wrap (nip59wrap w template
                                           {| wo_author := Some (ak_privkey ak);
                                              wo_wrap := fallbackParams w (sharedKeyWrap sk) |});
                       pc_relays := to |} in
        publishGroupMeta gw address id feeds relays meta false st
          = (inr (inr [{| request := call |}]), afterCalls st [call] 0)) /\
     (sharedKeyForGroup w address = None ->
        exists e, publishGroupMeta gw address id feeds relays meta false st = (inl e, st))) /\
  (adminKeyForGroup gw address = None ->
     forall listPublicly,
       exists e, publishGroupMeta gw address id feeds relays meta listPublicly st
                 = (inl e, st)).
Proof.
  intros w to template. split.
  - intros ak Hak. split; [|split].
    + unfold publishGroupMeta, publishAsGroupAdminPublicly, bindM. rewrite Hak.
      unfold publish, ret, afterCalls. simpl. now rewrite Nat.add_0_r.
    + intros sk Hsk. unfold publishGroupMeta, publishAsGroupAdminPrivately. fold w.
      rewrite Hak, Hsk. unfold bindM at 1. rewrite publishRumors_wrapped. reflexivity.
    + intros Hsk. unfold publishGroupMeta, publishAsGroupAdminPrivately, bindM. fold w.
      rewrite Hak, Hsk. eexists; reflexivity.
  - intros Hak [|]; unfold publishGroupMeta, publishAsGroupAdminPublicly,
      publishAsGroupAdminPrivately, bindM; rewrite Hak; eexists; reflexivity.
Qed.

(** An entry request by the holder of the admin key of the group does
    not touch the session store: no status is set to requested, the user
    is sent an invitation instead (to the user and to the admin pubkey).
    Anybody else gets the access status of the group merged with the
    requested value at the current time, and two envelopes go to the admin
    of the group and to the user; the call itself never raises then. *)
Theorem publishGroupEntryRequest_paths (gw : GroupWorld) (address : string)
    (claim : option string) (sessions : gmap string Session) (st : State) :
  (forall ak me, adminKeyForGroup gw address = Some ak -> sessionPubkey gw = Some me ->
     fst (publishGroupEntryRequest gw address claim sessions st) = inr sessions /\
     (forall relays sk,
        groupRelays gw address = Some relays ->
        sharedKeyForGroup (gw_world gw) address = Some sk ->
        exists template,
          snd (publishGroupEntryRequest gw address claim sessions st)
            = afterCalls st
                (shareCalls gw address template (Some (ak_privkey ak)) (keysDrawn st)
                   [me; ak_pubkey ak]) 2 /\
          In ["privkey"; sk_privkey sk] (tags template))) /\
  (adminKeyForGroup gw address = None ->
     fst (publishGroupEntryRequest gw address claim sessions st)
       = inr (setGroupStatus (currentPubkey gw) address (w_now (gw_world gw))
                [("access", accessValue gw Requested)] sessions) /\
     (sessionPubkey gw = None ->
        snd (publishGroupEntryRequest gw address claim sessions st) = st) /\
     (forall me, sessionPubkey gw = Some me ->
        List.length (published (snd (publishGroupEntryRequest gw address claim sessions st)))
          = (List.length (published st) + 2)%nat /\
        map pc_relays
          (skipn (List.length (published st))
             (published (snd (publishGroupEntryRequest gw address claim sessions st))))
          = [forcePlatformRelays (gw_world gw) (hintsWithinContext (gw_world gw) address);
             forcePlatformRelays (gw_world gw) (hintsWithinContext (gw_world gw) address)])).
Proof.
  split.
  - intros ak me Hak Hme. unfold publishGroupEntryRequest. rewrite Hak, Hme.
    unfold bindM, unawaited, ret. cbn [fst snd]. split; [reflexivity|].
    intros relays sk Hr Hsk. destruct (invites_shape gw address [me] 0 st relays sk ak Hr Hsk Hak)
      as (template & E & Ht).
    exists template. rewrite E. cbn [snd app]. split; [reflexivity | exact Ht].
  - intros Hak. unfold publishGroupEntryRequest. rewrite Hak.
    unfold bindM, unawaited, ret. cbn [fst snd]. split; [reflexivity|]. split.
    + intros Hnone. unfold publishToGroupAdmin. now rewrite Hnone.
    + intros me Hme.
      match goal with
      | |- context [publishToGroupAdmin gw address ?t st] =>
          destruct (admin_request_shape gw address t st me Hme) as (c1 & c2 & E & R1 & R2)
      end.
      rewrite E. cbn [snd afterCalls published]. rewrite length_app. split; [reflexivity|].
      rewrite skipn_app, skipn_all, Nat.sub_diag. simpl. now rewrite R1, R2.
Qed.

(** Leaving a group always merges the access value "none" into the
    status of the group at the current time and never raises.  The holder
    of the admin key publishes nothing.  Anybody else sends the exit
    request, a kind 26 event that names the leaving profile and carries
    the client tags and the address, in two envelopes to the relays of the
    group context: one for the pubkey of the address, one for the user,
    each made with a key of its own and expiring after 30 days; without a
    session nothing is sent. *)
Theorem publishGroupExitRequest_paths (gw : GroupWorld) (address : string)
    (sessions : gmap string Session) (st : State) :
  let w := gw_world gw in
  let relays := forcePlatformRelays w (hintsWithinContext w address) in
  let expiration := Some [["expiration"; String_of_Z (w_now w + 2592000)]] in
  let request :=
    {| kind := 26;
       tags := clientTags gw ++ [["a"; address]];
       content := displayProfile gw (currentPubkey gw) +:+ " is leaving the group";
       created_at := w_now w |} in
  fst (publishGroupExitRequest gw address sessions st)
    = inr (setGroupStatus (currentPubkey gw) address (w_now w)
             [("access", accessValue gw AccessNone)] sessions) /\
  (is_Some (adminKeyForGroup gw address) ->
     snd (publishGroupExitRequest gw address sessions st) = st) /\
  (adminKeyForGroup gw address = None ->
     (sessionPubkey gw = None ->
        snd (publishGroupExitRequest gw address sessions st) = st) /\
     (forall me, sessionPubkey gw = Some me ->
        snd (publishGroupExitRequest gw address sessions st)
          = afterCalls st
              [{| pc_event := shareEnvelope w request None (privateKeys w (keysDrawn st))
                                (addressPubkey gw address) expiration;
                  pc_relays := relays |};
               {| pc_event := shareEnvelope w request None (privateKeys w (S (keysDrawn st)))
                                me expiration;
                  pc_relays := relays |}] 2)).
Proof.
  intros w relays expiration request. unfold publishGroupExitRequest. fold w.
  destruct (adminKeyForGroup gw address) as [ak|] eqn:Hak.
  - split; [reflexivity|]. split; [reflexivity|]. discriminate.
  - unfold bindM, unawaited, ret. cbn [fst snd]. split; [reflexivity|].
    split; [intros [? H]; discriminate H|]. intros _. split.
    + intros Hnone. unfold publishToGroupAdmin. now rewrite Hnone.
    + intros me Hme.
      now rewrite (publishToGroupAdmin_calls gw address _ st me Hme).
Qed.

End GroupFacts.

(** ** Properties of [initGroup] *)

Module InitGroupFacts.
Import Js Hurdak Engine EngineFacts Envelopes Groups EngineMore.

Lemma prefix_append (p rest : string) : String.prefix p (p +:+ rest) = true.
Proof.
  induction p as [|c p IH].
  - now destruct rest.
  - change (String.prefix (String c p) (String c p +:+ rest))
      with (match ascii_dec c c with
            | left _ => String.prefix p (p +:+ rest)
            | right _ => false
            end).
    destruct (ascii_dec c c) as [_|Hc]; [exact IH | now contradiction Hc].
Qed.

Lemma private_kind_prefix rest :
  isPrivateAddress (String_of_Z 35834 +:+ ":" +:+ rest) = true.
Proof.
  replace (String_of_Z 35834) with "35834" by (vm_compute; reflexivity).
  change ("35834" +:+ ":" +:+ rest) with ("35834:" +:+ rest).
  apply prefix_append.
Qed.

Lemma public_kind_prefix rest :
  String.prefix "34550:" (String_of_Z 34550 +:+ ":" +:+ rest) = true.
Proof.
  replace (String_of_Z 34550) with "34550" by (vm_compute; reflexivity).
  change ("34550" +:+ ":" +:+ rest) with ("34550:" +:+ rest).
  apply prefix_append.
Qed.

(** [initGroup] returns the address made of the kind, the public key of
    the admin key and the random id, and registers the admin key under its
    public key and the group under its address.  For kind 35834 it also
    draws a second key, the shared key of the group, registers it under
    its public key, and the address is one the publishers treat as
    private; for any other kind no shared key is made and the store of
    shared keys is left alone.  The address of a kind 34550 group is one
    [publishToGroupsPublicly] accepts. *)
Theorem initGroup_registers (ks : KeySource) (kind : Z) (relays : list string)
    (stores : GroupStores) (draws : Draws) :
  let out := initGroup ks kind relays stores draws in
  let res := fst (fst out) in
  let stores' := snd (fst out) in
  let draws' := snd out in
  let privkey := ks_privateKeys ks (keysUsed draws) in
  let pubkey := ks_getPublicKey ks privkey in
  ig_address res
    = String_of_Z kind +:+ ":" +:+ pubkey +:+ ":" +:+ ks_randomIds ks (idsUsed draws) /\
  ak_group (ig_adminKey res) = ig_address res /\
  ak_privkey (ig_adminKey res) = privkey /\
  groupAdminKeys stores' !! pubkey = Some (ig_adminKey res) /\
  (exists g, groups stores' !! ig_address res = Some g /\
             g_address g = ig_address res /\ g_pubkey g = pubkey /\ g_relays g = relays) /\
  idsUsed draws' = S (idsUsed draws) /\
  (kind = 35834 ->
     isPrivateAddress (ig_address res) = true /\
     keysUsed draws' = S (S (keysUsed draws)) /\
     exists key, ig_sharedKey res = Some key /\
                 sk_group key = ig_address res /\
                 sk_privkey key = ks_privateKeys ks (S (keysUsed draws)) /\
                 groupSharedKeys stores' !! sk_pubkey key = Some key) /\
  (kind <> 35834 ->
     ig_sharedKey res = None /\
     groupSharedKeys stores' = groupSharedKeys stores /\
     keysUsed draws' = S (keysUsed draws)) /\
  (kind = 34550 ->
     forall w template anonymous st,
       exists pub, fst (publishToGroupsPublicly w [ig_address res] template anonymous st)
                   = inr pub).
Proof.
  intros out res stores' draws' privkey pubkey.
  unfold res, stores', draws', out, initGroup.
  destruct (Z.eqb_spec kind 35834) as [->|Hne]; cbn [fst snd initSharedKey ig_address
    ig_adminKey ig_sharedKey ak_group ak_privkey groupAdminKeys groups groupSharedKeys
    keysUsed idsUsed].
  - split; [reflexivity|]. split; [reflexivity|]. split; [reflexivity|].
    split; [apply lookup_insert_eq|]. split.
    { eexists. split; [apply lookup_insert_eq|]. repeat split. }
    split; [reflexivity|]. split.
    + intros _. split; [apply private_kind_prefix|]. split; [reflexivity|].
      eexists. split; [reflexivity|]. split; [reflexivity|]. split; [reflexivity|].
      cbn [sk_pubkey]. apply lookup_insert_eq.
    + split; [congruence | discriminate].
  - split; [reflexivity|]. split; [reflexivity|]. split; [reflexivity|].
    split; [apply lookup_insert_eq|]. split.
    { eexists. split; [apply lookup_insert_eq|]. repeat split. }
    split; [reflexivity|]. split; [congruence|]. split; [intros _; repeat split|].
    intros -> w template anonymous st.
    unfold publishToGroupsPublicly, bindM. cbn [forEach]. unfold bindM, checkPublic.
    rewrite public_kind_prefix. simpl. eexists. reflexivity.
Qed.

End InitGroupFacts.

(** ** Properties of the relay policy lists *)

Module RelayFacts.
Import Js Merge MergeFacts Engine Relays.

Lemma policyTags_In u r tag :
  In tag (policyTags u r) <->
  (rp_read r || rp_write r) = true /\
  tag = "r" :: normalizeRelayUrl u (rp_url r) :: policyMarker r.
Proof.
  unfold policyTags, policyMarker.
  destruct (rp_read r), (rp_write r); simpl; intuition (try discriminate; auto).
Qed.

Lemma relayListTags_closed_form u clientTags relays :
  relayListTags u clientTags relays
  = map (fun r => "r" :: normalizeRelayUrl u (rp_url r) :: policyMarker r)
        (List.filter (fun r => isShareableRelayUrl u (rp_url r) && (rp_read r || rp_write r))
                     relays)
    ++ clientTags.
Proof.
  unfold relayListTags. f_equal.
  induction relays as [|r relays IH]; [reflexivity|]. cbn [List.filter].
  destruct (isShareableRelayUrl u (rp_url r)); cbn [andb flat_map]; [|exact IH].
  rewrite IH. unfold policyTags, policyMarker.
  destruct (rp_read r) eqn:Er, (rp_write r) eqn:Ew; cbn [orb andb map app];
    rewrite ?Er, ?Ew; reflexivity.
Qed.

(** The tags of the relay list event are, in the order of the policies,
    one tag for each policy whose url is shareable and that reads or
    writes (the normalized url, marked "write" or "read" when the policy
    does only that), followed by the client tags.  A policy that neither
    reads nor writes, or whose url is not shareable, leaves no tag.  The
    event, of kind 10002 and sent to the write relays, exists only when
    the user can sign.  Whether or not the user can sign, the list goes
    through the timestamp guard of the record merge: it is stored in the
    user's record, stamped with the current time, when the current time is
    above the stamp of the stored list, and is dropped otherwise, the
    record staying as it was. *)
Theorem relayListTags_entries (u : UrlTools) (canSign : bool) (clientTags : list Tag)
    (label : list RelayPolicy -> string) (now : Z) (person : Record)
    (relays : list RelayPolicy) :
  let out := publishRelays u canSign clientTags label now person relays in
  relayListTags u clientTags relays
    = map (fun r => "r" :: normalizeRelayUrl u (rp_url r) :: policyMarker r)
          (List.filter (fun r => isShareableRelayUrl u (rp_url r) && (rp_read r || rp_write r))
                       relays)
      ++ clientTags /\
  (forall tag,
     In tag (relayListTags u clientTags relays) <->
     (exists r, In r relays /\ isShareableRelayUrl u (rp_url r) = true /\
                (rp_read r || rp_write r) = true /\
                tag = "r" :: normalizeRelayUrl u (rp_url r) :: policyMarker r)
     \/ In tag clientTags) /\
  stored out = stored (publishRelays u (negb canSign) clientTags label now person relays) /\
  (js_gt now (lastUpdated person "relays") = true ->
     rget (stored out) "relays" = Some (JData (label relays)) /\
     rget (stored out) "relays_updated_at" = Some (JNum now) /\
     (forall k, k <> "relays" -> k <> "relays_updated_at" -> k <> "updated_at" ->
        rget (stored out) k = rget person k)) /\
  (js_gt now (lastUpdated person "relays") = false -> stored out = person) /\
  (canSign = false -> event out = None) /\
  (canSign = true ->
     event out = Some {| d_kind := 10002;
                         d_tags := relayListTags u clientTags relays;
                         d_relays := writeTargets u |}).
Proof.
  intros out. split; [apply relayListTags_closed_form|].
  split; [|split; [reflexivity|split; [|split; [|split]]]].
  - intros tag. unfold relayListTags. rewrite in_app_iff, in_flat_map. split.
    + intros [(r & Hr & Ht)|Hc]; [left|now right].
      apply filter_In in Hr as [Hr Hs]. apply policyTags_In in Ht as [Hrw ->]. eauto 6.
    + intros [(r & Hr & Hs & Hrw & ->)|Hc]; [left|now right].
      exists r. split; [apply filter_In; tauto|]. apply policyTags_In. tauto.
  - intros C. unfold out, publishRelays, updateStore; cbn [stored].
    rewrite updateRecord_cons, updateField_unfold, C. cbn [updateRecord fold_left].
    split; [|split].
    + rewrite rget_overwrite. reflexivity.
    + rewrite rget_overwrite. reflexivity.
    + intros k H1 H2 H3. rewrite rget_overwrite.
      change (tsField "relays") with "relays_updated_at".
      repeat case_decide; congruence.
  - intros C. unfold out, publishRelays, updateStore; cbn [stored].
    now rewrite updateRecord_cons, updateField_unfold, C.
  - intros E. unfold out. now rewrite E.
  - intros E. unfold out. now rewrite E.
Qed.

Lemma rejectUrl_In url policies p :
  In p (rejectUrl url policies) <-> In p policies /\ rp_url p <> url.
Proof.
  unfold rejectUrl. rewrite filter_In, negb_true_iff, String.eqb_neq. tauto.
Qed.

Lemma rejectUrl_idem url policies :
  rejectUrl url (rejectUrl url policies) = rejectUrl url policies.
Proof.
  unfold rejectUrl. induction policies as [|p policies IH]; simpl; [reflexivity|].
  destruct (negb (String.eqb (rp_url p) url)) eqn:E; simpl; [rewrite E|]; now rewrite IH.
Qed.

Lemma rejectUrl_snoc url policies p :
  rp_url p = url -> rejectUrl url (rejectUrl url policies ++ [p]) = rejectUrl url policies.
Proof.
  intros E. unfold rejectUrl at 1. rewrite List.filter_app.
  fold (rejectUrl url (rejectUrl url policies)). rewrite rejectUrl_idem.
  simpl. rewrite E, String.eqb_refl. simpl. apply app_nil_r.
Qed.

Lemma keepUrl_rejectUrl url policies :
  List.filter (fun p => String.eqb (rp_url p) url) (rejectUrl url policies) = [].
Proof.
  unfold rejectUrl. induction policies as [|p policies IH]; simpl; [reflexivity|].
  destruct (String.eqb (rp_url p) url) eqn:E; simpl; [|rewrite E]; exact IH.
Qed.

Lemma rejectUrl_sublist url policies : sublist (rejectUrl url policies) policies.
Proof.
  unfold rejectUrl. induction policies as [|p policies IH]; simpl; [constructor|].
  destruct (negb (String.eqb (rp_url p) url)); now constructor.
Qed.

Lemma rejectUrl_length url policies :
  (List.length (rejectUrl url policies)
   + List.length (List.filter (fun p => String.eqb (rp_url p) url) policies))%nat
  = List.length policies.
Proof.
  unfold rejectUrl. induction policies as [|p policies IH]; simpl; [reflexivity|].
  destruct (String.eqb (rp_url p) url); simpl; lia.
Qed.

(** After [leaveRelay] the list is the old one without the policies
    that name the url: the others are all there, as often as before and in
    their order.  [joinRelay] puts the policy of the normalized url, reading
    and writing, after what leaving that url gives; [setRelayPolicy] with a
    policy that gives no url of its own puts the policy with the given
    flags, [false] for a flag not given, after what leaving the url gives.
    So exactly one policy names the url afterwards, the last one, the
    policies of the other urls are kept, doing it twice is doing it once,
    and leaving afterwards gives what leaving at once gives. *)
Theorem relay_policy_updates (u : UrlTools) (url : string) (policy : PartialPolicy)
    (policies : list RelayPolicy) :
  ((forall p, In p (leaveRelay url policies) <-> In p policies /\ rp_url p <> url) /\
   sublist (leaveRelay url policies) policies /\
   (List.length (leaveRelay url policies)
    + List.length (List.filter (fun p => String.eqb (rp_url p) url) policies))%nat
   = List.length policies) /\
  (let url' := normalizeRelayUrl u url in
   let joined := joinRelay u url policies in
   joined = leaveRelay url' policies
            ++ [{| rp_url := url'; rp_read := true; rp_write := true |}] /\
   List.filter (fun p => String.eqb (rp_url p) url') joined
     = [{| rp_url := url'; rp_read := true; rp_write := true |}] /\
   rejectUrl url' joined = rejectUrl url' policies /\
   joinRelay u url joined = joined /\
   leaveRelay url' joined = leaveRelay url' policies) /\
  (pp_url policy = None ->
   let updated := setRelayPolicy url policy policies in
   updated = leaveRelay url policies ++ [withDefaults url policy] /\
   withDefaults url policy
     = {| rp_url := url;
          rp_read := match pp_read policy with Some b => b | None => false end;
          rp_write := match pp_write policy with Some b => b | None => false end |} /\
   List.filter (fun p => String.eqb (rp_url p) url) updated = [withDefaults url policy] /\
   rp_url (withDefaults url policy) = url /\
   rejectUrl url updated = rejectUrl url policies /\
   setRelayPolicy url policy updated = updated /\
   leaveRelay url updated = leaveRelay url policies).
Proof.
  split; [|split].
  - split; [intros p; apply rejectUrl_In|].
    split; [apply rejectUrl_sublist | apply rejectUrl_length].
  - cbv zeta. unfold joinRelay, leaveRelay.
    set (url' := normalizeRelayUrl u url).
    set (new := {| rp_url := url'; rp_read := true; rp_write := true |}).
    assert (Hnew : rp_url new = url') by reflexivity.
    split; [reflexivity|]. split; [|split; [|split]].
    + rewrite List.filter_app, keepUrl_rejectUrl. simpl. now rewrite String.eqb_refl.
    + now apply rejectUrl_snoc.
    + now rewrite rejectUrl_snoc.
    + now apply rejectUrl_snoc.
  - intros Hurl. cbv zeta. unfold setRelayPolicy, leaveRelay.
    fold (rejectUrl url policies).
    assert (Hnew : rp_url (withDefaults url policy) = url)
      by (unfold withDefaults; now rewrite Hurl).
    split; [reflexivity|].
    split; [unfold withDefaults; now rewrite Hurl|].
    split; [|split; [|split; [|split]]].
    + rewrite List.filter_app, keepUrl_rejectUrl. cbn [List.filter app].
      now rewrite Hnew, String.eqb_refl.
    + exact Hnew.
    + now apply rejectUrl_snoc.
    + fold (rejectUrl url (rejectUrl url policies ++ [withDefaults url policy])).
      now rewrite rejectUrl_snoc.
    + now apply rejectUrl_snoc.
Qed.

End RelayFacts.

(** ** Properties of the tag update of [updateSingleton] *)

Module SingletonFacts.
Import Engine Singleton.

Lemma valueEqb_eq a b : valueEqb a b = true <-> a = b.
Proof.
  destruct a, b; simpl; try (split; congruence).
  rewrite String.eqb_eq. split; congruence.
Qed.

Lemma seen_spec v seen : existsb (valueEqb v) seen = true <-> In v seen.
Proof.
  rewrite existsb_exists. split.
  - intros (x & Hx & E). apply valueEqb_eq in E. now subst.
  - intros H. exists v. split; [exact H | now apply valueEqb_eq].
Qed.

Lemma uniqByValue_In : forall tags seen t,
  In t (uniqByValue seen tags) -> In t tags /\ ~ In (tagValue t) seen.
Proof.
  intros tags; induction tags as [|t0 tags IH]; intros seen t H; [contradiction|].
  simpl in H. destruct (existsb (valueEqb (tagValue t0)) seen) eqn:E.
  - apply IH in H as [H1 H2]. split; [now right | exact H2].
  - destruct H as [<-|H].
    + split; [now left|]. intros Hin. apply seen_spec in Hin. congruence.
    + apply IH in H as [H1 H2]. split; [now right|]. intros Hin. apply H2. now right.
Qed.

Lemma uniqByValue_NoDup : forall tags seen,
  List.NoDup (map tagValue (uniqByValue seen tags)).
Proof.
  intros tags; induction tags as [|t0 tags IH]; intros seen; simpl; [constructor|].
  destruct (existsb (valueEqb (tagValue t0)) seen); [apply IH|].
  simpl. constructor; [|apply IH].
  intros Hin. apply in_map_iff in Hin as (t & Et & Ht).
  apply uniqByValue_In in Ht as [_ Hn]. apply Hn. rewrite Et. now left.
Qed.

Lemma uniqByValue_covers : forall tags seen t,
  In t tags -> ~ In (tagValue t) seen ->
  exists t', In t' (uniqByValue seen tags) /\ tagValue t' = tagValue t.
Proof.
  intros tags; induction tags as [|t0 tags IH]; intros seen t Hin Hn; [contradiction|].
  simpl. destruct (existsb (valueEqb (tagValue t0)) seen) eqn:E.
  - destruct Hin as [->|Hin]; [apply seen_spec in E; contradiction|].
    now apply IH.
  - destruct Hin as [->|Hin]; [exists t; split; [now left | reflexivity]|].
    destruct (valueEqb (tagValue t0) (tagValue t)) eqn:E0.
    + apply valueEqb_eq in E0. exists t0. split; [now left | exact E0].
    + destruct (IH (tagValue t0 :: seen) t Hin) as (t' & Ht' & Et').
      * intros [Heq|Hs]; [|contradiction].
        apply valueEqb_eq in Heq. congruence.
      * exists t'. split; [now right | exact Et'].
Qed.

Lemma kept_In remove tags t :
  In t (List.filter
          (fun t => negb (existsb (fun rm => valueEqb (tagValue rm) (tagValue t)) remove)) tags)
  <-> In t tags /\ (forall rm, In rm remove -> tagValue rm <> tagValue t).
Proof.
  rewrite filter_In, negb_true_iff. split; intros [H1 H2]; (split; [exact H1|]).
  - intros rm Hrm E. assert (existsb (fun rm => valueEqb (tagValue rm) (tagValue t)) remove = true);
      [|congruence].
    apply existsb_exists. exists rm. split; [exact Hrm | now apply valueEqb_eq].
  - destruct (existsb _ remove) eqn:E; [|reflexivity].
    apply existsb_exists in E as (rm & Hrm & E). apply valueEqb_eq in E.
    now specialize (H2 rm Hrm).
Qed.

(** The tags [updateSingleton] writes back hold each value (second
    element) once; they are tags that were there and are not named by
    [remove], or tags of [add]; every value of [add] is among them, and so
    is every value that was there and is not removed; and a value named by
    [remove] is gone unless [add] brings it back. *)
Theorem updateTags_values (add remove tags : list Tag) :
  let result := updateTags add remove tags in
  List.NoDup (map tagValue result) /\
  (forall t, In t result ->
     In t add \/
     (In t tags /\ forall rm, In rm remove -> tagValue rm <> tagValue t)) /\
  (forall t, In t add -> exists t', In t' result /\ tagValue t' = tagValue t) /\
  (forall t, In t tags -> (forall rm, In rm remove -> tagValue rm <> tagValue t) ->
     exists t', In t' result /\ tagValue t' = tagValue t) /\
  (forall rm, In rm remove -> (forall a, In a add -> tagValue a <> tagValue rm) ->
     forall t, In t result -> tagValue t <> tagValue rm).
Proof.
  intros result. unfold result, updateTags.
  assert (Hin : forall t, In t (uniqByValue []
             (List.filter (fun t => negb (existsb (fun rm => valueEqb (tagValue rm) (tagValue t))
                                            remove)) tags ++ add)) ->
           In t add \/ (In t tags /\ forall rm, In rm remove -> tagValue rm <> tagValue t)).
  { intros t Ht. apply uniqByValue_In in Ht as [Ht _]. apply in_app_iff in Ht as [Ht|Ht].
    - right. now apply kept_In.
    - now left. }
  split; [apply uniqByValue_NoDup|]. split; [exact Hin|]. split; [|split].
  - intros t Ht. apply uniqByValue_covers; [|now intros []].
    apply in_app_iff. now right.
  - intros t Ht Hkeep. apply uniqByValue_covers; [|now intros []].
    apply in_app_iff. left. now apply kept_In.
  - intros rm Hrm Hadd t Ht E. destruct (Hin t Ht) as [Ha|[_ Hk]].
    + now apply (Hadd t Ha).
    + now apply (Hk rm Hrm).
Qed.

End SingletonFacts.

(** ** Properties of the direct messages *)

Module MessageFacts.
Import Js Engine EngineFacts Envelopes Groups GroupFacts Messages.

Lemma uniqFrom_In : forall xs seen x,
  In x (uniqFrom seen xs) <-> In x xs /\ ~ In x seen.
Proof.
  induction xs as [|y xs IH]; intros seen x; simpl; [tauto|].
  destruct (existsb (String.eqb y) seen) eqn:E.
  - rewrite IH. apply existsb_exists in E as (z & Hz & Ez). apply String.eqb_eq in Ez. subst z.
    split; [tauto|]. intros [[->|H] Hn]; [contradiction | tauto].
  - assert (Hy : ~ In y seen).
    { intros H. assert (existsb (String.eqb y) seen = true); [|congruence].
      apply existsb_exists. exists y. split; [exact H | apply String.eqb_refl]. }
    simpl. rewrite IH. simpl. split.
    + intros [->|[H Hn]]; [tauto|]. split; [tauto|]. intros Hs. apply Hn. now right.
    + intros [[->|H] Hn]; [now left|].
      destruct (String.eqb_spec y x) as [->|Hne]; [now left|].
      right. split; [exact H|]. intros [E'|Hs]; [congruence | contradiction].
Qed.

Lemma uniqFrom_NoDup : forall xs seen, List.NoDup (uniqFrom seen xs).
Proof.
  induction xs as [|y xs IH]; intros seen; simpl; [constructor|].
  destruct (existsb (String.eqb y) seen); [apply IH|].
  constructor; [|apply IH]. intros H. apply uniqFrom_In in H as [_ Hn]. apply Hn. now left.
Qed.

Lemma sendMessage_fold mw template relays : forall participants st,
  forEach participants (fun pubkey =>
    let* key := generatePrivateKey (mw_world mw) in
    let rumor := nip59wrap (mw_world mw) template
                   {| wo_author := None; wo_wrap := recipientWrap key pubkey None |} in
    let* _ := publish {| pc_event := wrap rumor; pc_relays := relays |} in
    ret tt) st
  = (inr tt,
     afterCalls st (messageCalls mw template relays (keysDrawn st) participants)
       (List.length participants)).
Proof.
  induction participants as [|p participants IH]; intros st.
  - simpl. unfold ret. now rewrite afterCalls_nil.
  - cbn [forEach]. unfold bindM at 1. unfold bindM at 1. unfold generatePrivateKey at 1.
    cbv beta iota zeta. unfold bindM at 1. unfold publish at 1. cbv beta iota.
    unfold ret at 1. rewrite IH. unfold afterCalls. cbn [messageCalls keysDrawn published
      optimisticReadReceipts List.length]. rewrite <- app_assoc. simpl.
    now rewrite Nat.add_succ_r.
Qed.

Lemma messageCalls_length mw template relays : forall participants first,
  List.length (messageCalls mw template relays first participants) = List.length participants.
Proof. induction participants; intros first; simpl; [reflexivity | now rewrite IHparticipants]. Qed.

(** [sendMessage] publishes one envelope per participant and never
    raises: the participants are the pubkeys listed in the channel id and
    the user, each once even when listed twice; every envelope wraps the
    same kind 14 template, which mentions each listed pubkey, for one
    participant with a key drawn for it, and all go to the same relays. *)
Theorem sendMessage_one_per_participant (mw : MessageWorld) (channelId content : string)
    (st : State) :
  let recipients := split "," channelId in
  let participants := uniq (recipients ++ [mw_user mw]) in
  let template := messageTemplate mw recipients content in
  let calls := messageCalls mw template (mergedMessageRelays mw recipients)
                 (keysDrawn st) participants in
  sendMessage mw channelId content st = (inr tt, afterCalls st calls (List.length participants)) /\
  List.length calls = List.length participants /\
  List.NoDup participants /\
  (forall p, In p participants <-> In p recipients \/ p = mw_user mw) /\
  kind template = 14 /\
  (forall p, In p recipients -> In (mention mw p) (tags template)).
Proof.
  intros recipients participants template calls.
  split; [|split; [|split; [|split; [|split]]]].
  - unfold sendMessage. apply sendMessage_fold.
  - apply messageCalls_length.
  - apply uniqFrom_NoDup.
  - intros p. unfold participants, uniq. rewrite uniqFrom_In, in_app_iff. simpl.
    intuition congruence.
  - reflexivity.
  - intros p Hp. simpl. apply in_app_iff. left. now apply in_map.
Qed.

Lemma without_In x xs y : In y (without x xs) <-> In y xs /\ y <> x.
Proof. unfold without. rewrite filter_In, negb_true_iff, String.eqb_neq. tauto. Qed.

(** [sendLegacyMessage] refuses a channel with more than one member
    besides the user, and only then.  Otherwise the draft is of kind 4 and
    is addressed (mention tag, encryption and relays) to one pubkey: the
    user for a channel with no other member, else the one other member,
    and the user again if that member is the empty string. *)
Theorem sendLegacyMessage_recipient (mw : MessageWorld) (channelId content : string) :
  let others := without (mw_user mw) (split "," channelId) in
  ((1 < List.length others)%nat <->
     sendLegacyMessage mw channelId content = inl TooManyRecipients) /\
  (forall draft, sendLegacyMessage mw channelId content = inr draft ->
     exists pubkey,
       m_kind draft = 4 /\
       m_tags draft = mention mw pubkey :: mw_clientTags mw /\
       m_content draft = nip04Encrypt mw content pubkey /\
       m_relays draft = publishMessageRelays mw pubkey /\
       (others = [] -> pubkey = mw_user mw) /\
       (forall other, others = [other] -> other <> EmptyString -> pubkey = other) /\
       (others = [EmptyString] -> pubkey = mw_user mw) /\
       (pubkey = mw_user mw \/ In pubkey (split "," channelId))).
Proof.
  intros others. unfold sendLegacyMessage. fold others.
  destruct (Nat.ltb_spec 1 (List.length others)) as [Hgt|Hle].
  - split; [tauto|]. discriminate.
  - split; [split; [lia | discriminate]|].
    intros draft [= <-]. exists (firstOr others (mw_user mw)).
    split; [reflexivity|]. split; [reflexivity|]. split; [reflexivity|].
    split; [reflexivity|]. split; [now intros ->|]. split; [|split].
    + intros other -> Hne. simpl. destruct (String.eqb_spec other EmptyString); [contradiction|].
      reflexivity.
    + now intros ->.
    + destruct others as [|o rest] eqn:Eo; [now left|]. simpl.
      destruct (String.eqb o EmptyString); [now left|]. right.
      assert (Hin : In o others) by (rewrite Eo; now left).
      unfold others in Hin. now apply without_In in Hin.
Qed.

(** A channel id that lists nobody: the one entry is the empty string,
    and the message goes to the user. *)
Example sendLegacyMessage_empty_channel :
  sendLegacyMessage demoMessageWorld EmptyString "hi"
  = inr {| m_kind := 4; m_tags := [["p"; "user"]]; m_content := "hi";
           m_relays := ["wss://inbox.example"] |}.
Proof. reflexivity. Qed.

End MessageFacts.

(** ** Properties of [updateHandle] *)

Module HandleFacts.
Import Handles.

Lemma setFreshness_same ns key ts f : setFreshness ns key ts f ns key = ts.
Proof. unfold setFreshness. now rewrite !String.eqb_refl. Qed.

Lemma setFreshness_other ns key ts f ns' key' :
  (ns, key) <> (ns', key') -> setFreshness ns key ts f ns' key' = f ns' key'.
Proof.
  intros H. unfold setFreshness.
  destruct (String.eqb_spec ns ns'); destruct (String.eqb_spec key key'); simpl;
    try reflexivity. subst. contradiction.
Qed.

(** [updateHandle] looks a handle up at most once per event.  Without
    a name (absent or empty), or with a [created_at] that is not above the
    freshness recorded for the pubkey, it changes nothing and looks
    nothing up.  Otherwise it looks the name up, once, and raises the
    freshness of [("handle", pubkey)] to [created_at].  The freshness of a
    pair never goes down and only that of [("handle", pubkey)] can change;
    so handling the same event again changes nothing and looks nothing
    up. *)
Theorem updateHandle_once_per_event (loadHandle : string -> option Handle)
    (pubkey : string) (created_at : Z) (nip05 : option string) (st : HandleState) :
  let st' := updateHandle loadHandle pubkey created_at nip05 st in
  (nip05 = None \/ nip05 = Some EmptyString \/ created_at <= freshness st "handle" pubkey ->
     st' = st) /\
  (forall name, nip05 = Some name -> name <> EmptyString ->
     freshness st "handle" pubkey < created_at ->
     lookups st' = lookups st ++ [name] /\
     freshness st' "handle" pubkey = created_at) /\
  (forall ns key, freshness st ns key <= freshness st' ns key) /\
  (forall ns key, (ns, key) <> ("handle", pubkey) -> freshness st' ns key = freshness st ns key) /\
  (forall name, nip05 = Some name -> name <> EmptyString ->
     created_at <= freshness st' "handle" pubkey /\
     (freshness st "handle" pubkey < created_at -> lookups st' = lookups st ++ [name])) /\
  (lookups st' <> lookups st ->
     freshness st "handle" pubkey < created_at /\
     freshness st' "handle" pubkey = created_at) /\
  updateHandle loadHandle pubkey created_at nip05 st' = st'.
Proof.
  intros st'. unfold st', updateHandle.
  destruct nip05 as [name|].
  2:{ repeat split; try lia; try congruence; intros; discriminate. }
  destruct (String.eqb_spec name EmptyString) as [->|Hname]; cbn [orb].
  { split; [reflexivity|]. split; [intros ? [= <-] Hne; contradiction|].
    split; [intros; lia|]. split; [reflexivity|]. split; [congruence|].
    split; [congruence | reflexivity]. }
  destruct (Z.leb_spec created_at (freshness st "handle" pubkey)) as [Hle|Hgt].
  - split; [reflexivity|]. split; [intros; lia|].
    split; [intros; lia|]. split; [reflexivity|]. split; [intros ? _ _; split; lia|].
    split; [congruence|]. destruct (String.eqb_spec name EmptyString); [contradiction|].
    cbn [orb]. destruct (Z.leb_spec created_at (freshness st "handle" pubkey)); [reflexivity | lia].
  - cbn [freshness lookups handles]. split; [|split; [|split; [|split; [|split; [|split]]]]].
    + intros [H|[H|H]]; [discriminate H | injection H as ->; contradiction | lia].
    + intros name' [= <-] _ _. rewrite setFreshness_same. split; reflexivity.
    + intros ns key. destruct (decide ((( "handle", pubkey) : string * string) = (ns, key)))
        as [[= <- <-]|Hne].
      * rewrite setFreshness_same. lia.
      * rewrite setFreshness_other by exact Hne. lia.
    + intros ns key Hne. apply setFreshness_other. congruence.
    + intros name' [= <-] _. rewrite setFreshness_same. split; [lia | reflexivity].
    + intros _. rewrite setFreshness_same. split; [lia | reflexivity].
    + destruct (String.eqb_spec name EmptyString); [contradiction|]. cbn [orb].
      rewrite setFreshness_same, Z.leb_refl. reflexivity.
Qed.

(** [updateHandle] stores a handle for nobody but the author of the
    event, and only the handle that the lookup returned for that very
    pubkey, with the looked-up name as its [nip05]: a handle that claims
    another pubkey leaves the store as it is. *)
Theorem updateHandle_stores_own_handle (loadHandle : string -> option Handle)
    (pubkey : string) (created_at : Z) (nip05 : option string) (st : HandleState) :
  let st' := updateHandle loadHandle pubkey created_at nip05 st in
  (forall k, k <> pubkey -> handles st' !! k = handles st !! k) /\
  (handles st' !! pubkey = handles st !! pubkey \/
   exists name h,
     nip05 = Some name /\ loadHandle name = Some h /\ h_pubkey h = pubkey /\
     handles st' !! pubkey
       = Some {| h_pubkey := pubkey; h_nip05 := Some name; h_relays := h_relays h |}).
Proof.
  intros st'. unfold st', updateHandle.
  destruct nip05 as [name|]; [|split; auto].
  destruct (String.eqb name EmptyString || Z.leb created_at (freshness st "handle" pubkey));
    [split; auto|].
  cbn [handles]. destruct (loadHandle name) as [h|] eqn:Eh; [|split; auto].
  destruct (String.eqb_spec (h_pubkey h) pubkey) as [E|Hne]; [|split; auto].
  split.
  - intros k Hk. now rewrite lookup_insert_ne by congruence.
  - right. exists name, h. rewrite lookup_insert_eq, E.
    split; [reflexivity|]. split; [exact Eh|]. split; reflexivity.
Qed.

End HandleFacts.
